(** * Hotline: the relay's session and correlation engine, and the
      application-side client, embedded from the TypeScript sources.

    - [Relay] follows the relay server (the snapshot with watchers and the
      [list-handlers] command; the older snapshot [src/server.ts] has the
      same [findAppSocket], response and request branches, without the
      broadcasts).
    - [Client] follows [createHotline] of [src/client.ts].
    - [Events] holds the event fan-out, which the relay snapshots at hand do
      not contain.

    Frames are JSON objects whose protocol fields carry the types declared
    in [types.ts]; values the relay never inspects stay opaque [json]. *)

From Stdlib Require Import List String ZArith Bool Lia Arith.
Import ListNotations.

Set Implicit Arguments.
#[local] Set Warnings "-register-all".

(** ** JSON values and JavaScript truthiness *)

Inductive json : Type :=
| JNull
| JBool (b : bool)
| JNum (n : Z)
| JStr (s : string)
| JArr (items : list json)
| JObj (fields : list (string * json)).

(** [if (v)] for a possibly-undefined JSON value. *)
Definition truthy (v : option json) : bool :=
  match v with
  | None => false
  | Some JNull => false
  | Some (JBool b) => b
  | Some (JNum n) => negb (n =? 0)%Z
  | Some (JStr s) => negb (s =? "")%string
  | Some (JArr _) => true
  | Some (JObj _) => true
  end.

(** [if (s)] for a possibly-undefined string. *)
Definition truthy_str (s : option string) : bool :=
  match s with
  | Some s => negb (s =? "")%string
  | None => false
  end.

(** [s === lit] for a possibly-undefined string. *)
Definition opt_str_is (s : option string) (lit : string) : bool :=
  match s with
  | Some s => (s =? lit)%string
  | None => false
  end.

(** [x || undefined] on a string read from the query string. *)
Definition or_undefined (s : option string) : option string :=
  if truthy_str s then s else None.

(** [obj?.key] on a JSON value. *)
Fixpoint assoc_field (key : string) (fields : list (string * json)) : option json :=
  match fields with
  | [] => None
  | (k, v) :: rest => if (k =? key)%string then Some v else assoc_field key rest
  end.

Definition field (key : string) (v : option json) : option json :=
  match v with
  | Some (JObj fields) => assoc_field key fields
  | _ => None
  end.

(** ** JavaScript [Map] and [Set], in insertion order *)

Section JsMap.
Context {K V : Type}.
Variable eqb : K -> K -> bool.

Fixpoint map_get (k : K) (m : list (K * V)) : option V :=
  match m with
  | [] => None
  | (k', v) :: rest => if eqb k' k then Some v else map_get k rest
  end.

(** [m.set(k, v)]: an existing key keeps its position. *)
Fixpoint map_set (k : K) (v : V) (m : list (K * V)) : list (K * V) :=
  match m with
  | [] => [(k, v)]
  | (k', v') :: rest =>
      if eqb k' k then (k, v) :: rest else (k', v') :: map_set k v rest
  end.

Definition map_delete (k : K) (m : list (K * V)) : list (K * V) :=
  filter (fun e => negb (eqb (fst e) k)) m.

Definition keys (m : list (K * V)) : list K := map fst m.
End JsMap.

(** [set.add(x)] and [set.delete(x)] on a [Set] of sockets. *)
Definition set_add (x : nat) (s : list nat) : list nat :=
  if existsb (Nat.eqb x) s then s else s ++ [x].

Definition set_delete (x : nat) (s : list nat) : list nat :=
  filter (fun y => negb (y =? x)) s.

(** ** The relay server *)

Module Relay.

(** A socket is known by its identity. *)
Definition ws := nat.

(** The wire frame, parsed.  A field that is absent is [None]. *)
Record Frame := mkFrame {
  f_id : option string;
  f_type : option string;
  f_role : option string;
  f_appId : option string;
  f_handlers : option json;
  f_payload : option json;
  f_ok : option bool;
  f_data : option json;
  f_error : option string
}.

Definition empty_frame : Frame :=
  mkFrame None None None None None None None None None.

(** What [JSON.parse] makes of an inbound payload. *)
Inductive Raw :=
| Malformed
| Parsed (msg : Frame).

Inductive Role := RoleApp | RoleCli | RoleWatch.

Record ClientData := mkClientData {
  role : Role;
  appId : option string
}.

Record AppConnection := mkAppConnection {
  conn_appId : string;
  connectedAt : Z;
  handlers : option json
}.

Record PendingRequest := mkPending {
  cliSocket : ws;
  appSocket : ws;
  timer : nat
}.

(** The closure handed to [setTimeout] by the request branch: it holds the
    request id and the requesting socket. *)
Record Timer := mkTimer {
  due : Z;
  t_id : string;
  t_ws : ws
}.

Inductive Dir := DirReq | DirRes.

(** What a socket is sent: a frame, or the watcher envelope
    [{dir, appId, msg}]. *)
Inductive Sent :=
| SMsg (f : Frame)
| SBroadcast (dir : Dir) (appId : option string) (msg : Frame).

Record State := mkState {
  apps : list (ws * AppConnection);
  watchers : list ws;
  pendingRequests : list (string * PendingRequest);
  data : list (ws * ClientData);
  timers : list (nat * Timer);
  next_timer : nat;
  now : Z;
  port : Z;
  pid : Z;
  started : Z;
  outbox : list (ws * Sent)
}.

Definition init (port pid start : Z) : State :=
  mkState [] [] [] [] [] 0 start port pid start [].

Definition with_apps (a : list (ws * AppConnection)) (s : State) : State :=
  mkState a (watchers s) (pendingRequests s) (data s) (timers s)
          (next_timer s) (now s) (port s) (pid s) (started s) (outbox s).

Definition with_watchers (w : list ws) (s : State) : State :=
  mkState (apps s) w (pendingRequests s) (data s) (timers s)
          (next_timer s) (now s) (port s) (pid s) (started s) (outbox s).

Definition with_pending (p : list (string * PendingRequest)) (s : State) : State :=
  mkState (apps s) (watchers s) p (data s) (timers s)
          (next_timer s) (now s) (port s) (pid s) (started s) (outbox s).

Definition with_data (d : list (ws * ClientData)) (s : State) : State :=
  mkState (apps s) (watchers s) (pendingRequests s) d (timers s)
          (next_timer s) (now s) (port s) (pid s) (started s) (outbox s).

Definition with_timers (t : list (nat * Timer)) (n : nat) (s : State) : State :=
  mkState (apps s) (watchers s) (pendingRequests s) (data s) t
          n (now s) (port s) (pid s) (started s) (outbox s).

Definition with_now (t : Z) (s : State) : State :=
  mkState (apps s) (watchers s) (pendingRequests s) (data s) (timers s)
          (next_timer s) t (port s) (pid s) (started s) (outbox s).

Definition with_outbox (o : list (ws * Sent)) (s : State) : State :=
  mkState (apps s) (watchers s) (pendingRequests s) (data s) (timers s)
          (next_timer s) (now s) (port s) (pid s) (started s) o.

(** [ws.data]; a socket is given its data when it is upgraded. *)
Definition ws_data (s : State) (w : ws) : ClientData :=
  match map_get Nat.eqb w (data s) with
  | Some d => d
  | None => mkClientData RoleCli None
  end.

(** *** App routing *)

Definition findAppSocket (apps : list (ws * AppConnection))
           (targetAppId : option string) : option ws :=
  let entries := apps in
  if (List.length entries =? 0) then None
  else if negb (truthy_str targetAppId) then
    match entries with
    | [e] => Some (fst e)
    | _ => None
    end
  else
    let matches :=
      filter (fun e => opt_str_is targetAppId (conn_appId (snd e))) entries in
    match matches with
    | [] => None
    | m :: _ => Some (fst m)
    end.

(** [[...new Set(xs)]]: first occurrences, in order. *)
Fixpoint dedup (seen xs : list string) : list string :=
  match xs with
  | [] => []
  | x :: rest =>
      if existsb (String.eqb x) seen then dedup seen rest
      else x :: dedup (x :: seen) rest
  end.

Definition listAppIds (apps : list (ws * AppConnection)) : list string :=
  dedup [] (map (fun e => conn_appId (snd e)) apps).

(** [xs.join(", ")] *)
Definition join (xs : list string) : string := String.concat ", " xs.

(** *** Sending *)

Definition ws_send (w : ws) (m : Sent) (s : State) : State :=
  with_outbox (outbox s ++ [(w, m)]) s.

Definition response_ok (id : string) (d : json) : Frame :=
  mkFrame (Some id) None None None None None (Some true) (Some d) None.

Definition response_err (id : string) (e : string) : Frame :=
  mkFrame (Some id) None None None None None (Some false) None (Some e).

Definition send (w : ws) (r : Frame) (s : State) : State :=
  ws_send w (SMsg r) s.

Definition broadcast (d : Dir) (a : option string) (msg : Frame) (s : State) : State :=
  with_outbox (outbox s ++ map (fun w => (w, SBroadcast d a msg)) (watchers s)) s.

(** *** Timers of the runtime *)

Definition REQUEST_TIMEOUT : Z := 30000.

Definition setTimeout (delay : Z) (id : string) (w : ws) (s : State) : nat * State :=
  let h := next_timer s in
  (h, with_timers (timers s ++ [(h, mkTimer (now s + delay) id w)]) (S h) s).

Definition clearTimeout (h : nat) (s : State) : State :=
  with_timers (map_delete Nat.eqb h (timers s)) (next_timer s) s.

(** *** Server handlers *)

Definition app_summary (a : AppConnection) : json :=
  JObj [("appId"%string, JStr (conn_appId a));
        ("connectedAt"%string, JNum (connectedAt a))].

Definition list_apps (s : State) : json :=
  JObj [("port"%string, JNum (port s));
        ("pid"%string, JNum (pid s));
        ("uptime"%string, JNum ((now s - started s) / 1000));
        ("apps"%string, JArr (map (fun e => app_summary (snd e)) (apps s)))].

(** [targetAppId && conn.appId !== targetAppId] *)
Definition skipped (targetAppId : option json) (c : AppConnection) : bool :=
  truthy targetAppId &&
  negb match targetAppId with
       | Some (JStr t) => (conn_appId c =? t)%string
       | _ => false
       end.

Definition handlers_entry (c : AppConnection) : json :=
  JObj [("appId"%string, JStr (conn_appId c));
        ("handlers"%string,
         match handlers c with Some h => h | None => JArr [] end)].

Definition list_handlers (s : State) (payload : json) : json :=
  let targetAppId := field "appId" (Some payload) in
  JArr (map (fun e => handlers_entry (snd e))
            (filter (fun e => negb (skipped targetAppId (snd e))) (apps s))).

(** The [serverHandlers] table after the module's three [handle] calls. *)
Definition serverHandlers (type : string) : option (State -> json -> json) :=
  if (type =? "ping")%string then Some (fun _ _ => JObj [])
  else if (type =? "list-apps")%string then Some (fun s _ => list_apps s)
  else if (type =? "list-handlers")%string then Some list_handlers
  else None.

(** Returns the new state and whether the command was the server's own. *)
Definition handleServerCommand (w : ws) (id type : string) (payload : option json)
           (s : State) : bool * State :=
  match serverHandlers type with
  | None => (false, s)
  | Some handler =>
      let result :=
        handler s match payload with
                  | None | Some JNull => JObj []
                  | Some p => p
                  end in
      (true, send w (response_ok id result) s)
  end.

(** *** Cleanup *)

Fixpoint fail_pending (w : ws) (entries : list (string * PendingRequest))
         (s : State) : State :=
  match entries with
  | [] => s
  | (id, pending) :: rest =>
      if appSocket pending =? w then
        let s1 := clearTimeout (timer pending) s in
        let s2 := send (cliSocket pending) (response_err id "App disconnected") s1 in
        let s3 := with_pending (map_delete String.eqb id (pendingRequests s2)) s2 in
        fail_pending w rest s3
      else fail_pending w rest s
  end.

Definition disconnect_notice (a : string) : Frame :=
  mkFrame None (Some "disconnect"%string) None (Some a) None None None None None.

Definition cleanupApp (w : ws) (s : State) : State :=
  match map_get Nat.eqb w (apps s) with
  | None => s
  | Some info =>
      let s1 := with_apps (map_delete Nat.eqb w (apps s)) s in
      let s2 := broadcast DirReq (Some (conn_appId info))
                          (disconnect_notice (conn_appId info)) s1 in
      fail_pending w (pendingRequests s2) s2
  end.

(** *** Connection handlers *)

Definition fetch (w : ws) (roleParam appParam : option string) (s : State) : State :=
  let r := if opt_str_is roleParam "watch" then RoleWatch else RoleCli in
  with_data (map_set Nat.eqb w (mkClientData r (or_undefined appParam)) (data s)) s.

Definition open (w : ws) (s : State) : State :=
  match role (ws_data s w) with
  | RoleWatch => with_watchers (set_add w (watchers s)) s
  | _ => s
  end.

Definition is_register (msg : Frame) : bool :=
  opt_str_is (f_type msg) "register" && opt_str_is (f_role msg) "app"
  && truthy_str (f_appId msg).

Definition register_notice (a : string) (h : option json) : Frame :=
  mkFrame None (Some "register"%string) None (Some a) h None None None None.

Definition register (w : ws) (msg : Frame) (a : string) (s : State) : State :=
  let s1 := with_data (map_set Nat.eqb w (mkClientData RoleApp (Some a)) (data s)) s in
  let conn := mkAppConnection a (now s1)
                (if truthy (f_handlers msg) then f_handlers msg else None) in
  let s2 := with_apps (map_set Nat.eqb w conn (apps s1)) s1 in
  broadcast DirReq (Some a) (register_notice a (f_handlers msg)) s2.

(** ["ok" in msg && msg.id] *)
Definition is_response (msg : Frame) : bool :=
  match f_ok msg with Some _ => true | None => false end && truthy_str (f_id msg).

Definition route_response (msg : Frame) (id : string) (s : State) : State :=
  match map_get String.eqb id (pendingRequests s) with
  | Some pending =>
      let s1 := clearTimeout (timer pending) s in
      let appInfo := map_get Nat.eqb (appSocket pending) (apps s1) in
      let s2 := broadcast DirRes (option_map conn_appId appInfo) msg s1 in
      let s3 := ws_send (cliSocket pending) (SMsg msg) s2 in
      with_pending (map_delete String.eqb id (pendingRequests s3)) s3
  | None => s
  end.

(** [{ id: msg.id, type: msg.type, payload: msg.payload }] *)
Definition forwarded (id type : string) (payload : option json) : Frame :=
  mkFrame (Some id) (Some type) None None None payload None None None.

Definition ambiguous_error (apps : list (ws * AppConnection)) : string :=
  ("Multiple apps connected. Specify --app. Available: " ++ join (listAppIds apps))%string.

Definition no_app_error (targetAppId : option string) : string :=
  match targetAppId with
  | Some t => if truthy_str targetAppId
              then ("No app connected with id: " ++ t)%string
              else "No app connected"%string
  | None => "No app connected"%string
  end.

Definition route_request (w : ws) (msg : Frame) (id type : string) (s : State) : State :=
  let (handled, s1) := handleServerCommand w id type (f_payload msg) s in
  if handled then s1
  else
    let targetAppId := appId (ws_data s w) in
    match findAppSocket (apps s) targetAppId with
    | None =>
        if negb (truthy_str targetAppId) && (1 <? List.length (apps s))
        then send w (response_err id (ambiguous_error (apps s))) s
        else send w (response_err id (no_app_error targetAppId)) s
    | Some a =>
        let (h, s1) := setTimeout REQUEST_TIMEOUT id w s in
        let s2 := with_pending
                    (map_set String.eqb id (mkPending w a h) (pendingRequests s1)) s1 in
        let appInfo := map_get Nat.eqb a (apps s2) in
        let s3 := broadcast DirReq (option_map conn_appId appInfo)
                            (forwarded id type (f_payload msg)) s2 in
        ws_send a (SMsg (forwarded id type (f_payload msg))) s3
    end.

Definition message (w : ws) (raw : Raw) (s : State) : State :=
  match raw with
  | Malformed => s
  | Parsed msg =>
      if is_register msg then
        match f_appId msg with
        | Some a => register w msg a s
        | None => s
        end
      else if is_response msg then
        match f_id msg with
        | Some id => route_response msg id s
        | None => s
        end
      else if truthy_str (f_id msg) && truthy_str (f_type msg) then
        match f_id msg, f_type msg with
        | Some id, Some type => route_request w msg id type s
        | _, _ => s
        end
      else s
  end.

Definition close (w : ws) (s : State) : State :=
  match role (ws_data s w) with
  | RoleApp => cleanupApp w s
  | RoleWatch => with_watchers (set_delete w (watchers s)) s
  | RoleCli => s
  end.

(** [{ id: msg.id, ok: false, error: "Request timed out" }] *)
Definition timeout_response (rid : string) : Frame :=
  response_err rid "Request timed out".

(** The callback of the request branch's [setTimeout], run for handle [h]. *)
Definition fire (h : nat) (s : State) : State :=
  match map_get Nat.eqb h (timers s) with
  | None => s
  | Some t =>
      let s1 := with_timers (map_delete Nat.eqb h (timers s)) (next_timer s) s in
      let s2 := with_pending (map_delete String.eqb (t_id t) (pendingRequests s1)) s1 in
      send (t_ws t) (timeout_response (t_id t)) s2
  end.

(** The clock reaches [t]: every armed timer that is due by then runs, in
    the order the timers were armed (all are armed with the same delay). *)
Definition elapse (t : Z) (s : State) : State :=
  let ready := filter (fun e => (due (snd e) <=? t)%Z) (timers s) in
  let s1 := fold_left (fun acc e => fire (fst e) acc) ready s in
  with_now (Z.max (now s1) t) s1.

Inductive Event :=
| Connect (w : ws) (roleParam appParam : option string)
| Message (w : ws) (raw : Raw)
| Close (w : ws)
| Elapse (t : Z).

Definition step (s : State) (e : Event) : State :=
  match e with
  | Connect w r a => open w (fetch w r a s)
  | Message w raw => message w raw s
  | Close w => close w s
  | Elapse t => elapse t s
  end.

Definition run (s : State) (es : list Event) : State := fold_left step es s.

(** *** Application resolution, as the request branch tells the outcomes apart *)

Inductive Resolution :=
| Resolved (w : ws)
| AMBIGUOUS
| NONE.

Definition resolveApplication (apps : list (ws * AppConnection))
           (targetAppId : option string) : Resolution :=
  match findAppSocket apps targetAppId with
  | Some w => Resolved w
  | None =>
      if negb (truthy_str targetAppId) && (1 <? List.length apps)
      then AMBIGUOUS else NONE
  end.

(** A target as [fetch] stores it: omitted, or a non-empty id. *)
Definition omitted (targetAppId : option string) : Prop :=
  truthy_str targetAppId = false.

Definition given (targetAppId : option string) (t : string) : Prop :=
  targetAppId = Some t /\ t <> ""%string.

(** *** Representation invariant and observations on the outbox *)

(** Keys of the two Maps are unique, and every timer handle in use was
    handed out by the runtime's counter. *)
Record wf (s : State) : Prop := mk_wf {
  wf_pending_keys : NoDup (keys (pendingRequests s));
  wf_timer_keys : NoDup (keys (timers s));
  wf_timer_lt : forall h t, In (h, t) (timers s) -> h < next_timer s;
  wf_pending_lt : forall id p, In (id, p) (pendingRequests s) -> timer p < next_timer s
}.

(** The pending correlations routed to socket [w]. *)
Definition routed_to (w : ws) (pending : list (string * PendingRequest))
  : list (string * PendingRequest) :=
  filter (fun e => appSocket (snd e) =? w) pending.

(** Whether something sent carries the request id [rid]. *)
Definition mentions (rid : string) (m : ws * Sent) : bool :=
  match snd m with
  | SMsg f => opt_str_is (f_id f) rid
  | SBroadcast _ _ f => opt_str_is (f_id f) rid
  end.

(** What was appended to the outbox since it had [n] entries. *)
Definition since (n : nat) (s : State) : list (ws * Sent) := skipn n (outbox s).

(** An event that leaves request [rid], routed to application [a], alone
    until [deadline]: no frame carries the id, the application stays, the
    clock stays short of the deadline. *)
Definition quiet (rid : string) (a : ws) (deadline : Z) (e : Event) : Prop :=
  match e with
  | Connect _ _ _ => True
  | Message _ Malformed => True
  | Message _ (Parsed msg) => f_id msg <> Some rid
  | Close w => w <> a
  | Elapse t => (t < deadline)%Z
  end.

(** Request [rid] of client [c] is in flight towards [a]: its correlation is
    in the table, its timer [h] is armed for [deadline] and is the only one
    that carries the id, and nothing carrying the id was sent since the
    outbox had [n] entries. *)
Record in_flight (rid : string) (c a : ws) (h : nat) (deadline : Z) (n : nat)
       (s : State) : Prop := mk_in_flight {
  fl_wf : wf s;
  fl_pending : map_get String.eqb rid (pendingRequests s) = Some (mkPending c a h);
  fl_timer : map_get Nat.eqb h (timers s) = Some (mkTimer deadline rid c);
  fl_only : forall h' t', In (h', t') (timers s) -> t_id t' = rid -> h' = h;
  fl_handle : forall id p, In (id, p) (pendingRequests s) -> timer p = h -> id = rid;
  fl_silent : filter (mentions rid) (since n s) = [];
  fl_len : n <= List.length (outbox s)
}.

(** Request [rid] of client [c] has timed out: since the outbox had [n]
    entries the one thing sent that carries the id is the timeout response
    to [c]; the id is in no correlation and on no timer. *)
Record timed_out (rid : string) (c : ws) (n : nat) (s : State) : Prop := mk_timed_out {
  to_wf : wf s;
  to_pending : map_get String.eqb rid (pendingRequests s) = None;
  to_timers : forall h' t', In (h', t') (timers s) -> t_id t' <> rid;
  to_sent : filter (mentions rid) (since n s) = [(c, SMsg (timeout_response rid))];
  to_len : n <= List.length (outbox s)
}.

End Relay.

(** ** The application-side client *)

Module Client.

(** What calling a handler (and awaiting it) comes to: a value, possibly
    [undefined], or a thrown error with its [message], possibly absent. *)
Inductive Outcome :=
| Returned (result : option json)
| Thrown (message : option string).

Definition HandlerFn := json -> Outcome.

Record HandlerConfig := mkConfig {
  handler : HandlerFn;
  fields : option json;
  description : option string
}.

Record HandlerSchema := mkSchema {
  schema_type : string;
  schema_description : option string;
  schema_fields : option json
}.

Record HotlineOptions := mkOptions {
  opt_port : option Z;
  opt_appId : string;
  opt_handlers : option (list (string * HandlerConfig))
}.

Record HotlineRequest := mkRequest {
  req_id : option string;
  req_type : option string;
  req_payload : option json
}.

Inductive Raw :=
| Malformed
| Parsed (msg : HotlineRequest).

(** What the client writes to a socket. *)
Inductive Outgoing :=
| Register (appId : string) (handlers : list HandlerSchema)
| Response (id : string) (ok : bool) (data : option json) (error : option string).

Definition DEFAULT_PORT : Z := 8675.
Definition RECONNECT_CAP_MS : Z := 30000.

(** The variables closed over by [createHotline], with the runtime's armed
    timers (handle and delay) and the frames written to each socket. *)
Record State := mkState {
  port : Z;
  appId : string;
  handlers : list (string * HandlerFn);
  handlerSchemas : list HandlerSchema;
  ws : option nat;
  reconnectDelay : Z;
  reconnectTimer : option nat;
  intentionalClose : bool;
  timers : list (nat * Z);
  next_timer : nat;
  next_socket : nat;
  closing : list nat;
  sent : list (nat * Outgoing)
}.

Definition with_handlers (h : list (string * HandlerFn)) (sc : list HandlerSchema)
           (s : State) : State :=
  mkState (port s) (appId s) h sc (ws s) (reconnectDelay s) (reconnectTimer s)
          (intentionalClose s) (timers s) (next_timer s) (next_socket s)
          (closing s) (sent s).

Definition with_ws (w : option nat) (s : State) : State :=
  mkState (port s) (appId s) (handlers s) (handlerSchemas s) w (reconnectDelay s)
          (reconnectTimer s) (intentionalClose s) (timers s) (next_timer s)
          (next_socket s) (closing s) (sent s).

Definition with_reconnectDelay (d : Z) (s : State) : State :=
  mkState (port s) (appId s) (handlers s) (handlerSchemas s) (ws s) d
          (reconnectTimer s) (intentionalClose s) (timers s) (next_timer s)
          (next_socket s) (closing s) (sent s).

Definition with_reconnectTimer (t : option nat) (s : State) : State :=
  mkState (port s) (appId s) (handlers s) (handlerSchemas s) (ws s) (reconnectDelay s)
          t (intentionalClose s) (timers s) (next_timer s)
          (next_socket s) (closing s) (sent s).

Definition with_intentionalClose (b : bool) (s : State) : State :=
  mkState (port s) (appId s) (handlers s) (handlerSchemas s) (ws s) (reconnectDelay s)
          (reconnectTimer s) b (timers s) (next_timer s)
          (next_socket s) (closing s) (sent s).

Definition with_timers (t : list (nat * Z)) (n : nat) (s : State) : State :=
  mkState (port s) (appId s) (handlers s) (handlerSchemas s) (ws s) (reconnectDelay s)
          (reconnectTimer s) (intentionalClose s) t n
          (next_socket s) (closing s) (sent s).

Definition with_next_socket (n : nat) (s : State) : State :=
  mkState (port s) (appId s) (handlers s) (handlerSchemas s) (ws s) (reconnectDelay s)
          (reconnectTimer s) (intentionalClose s) (timers s) (next_timer s)
          n (closing s) (sent s).

Definition with_closing (c : list nat) (s : State) : State :=
  mkState (port s) (appId s) (handlers s) (handlerSchemas s) (ws s) (reconnectDelay s)
          (reconnectTimer s) (intentionalClose s) (timers s) (next_timer s)
          (next_socket s) c (sent s).

Definition with_sent (o : list (nat * Outgoing)) (s : State) : State :=
  mkState (port s) (appId s) (handlers s) (handlerSchemas s) (ws s) (reconnectDelay s)
          (reconnectTimer s) (intentionalClose s) (timers s) (next_timer s)
          (next_socket s) (closing s) o.

(** [xs.findIndex(p)], [None] for -1. *)
Fixpoint findIndex {A : Type} (p : A -> bool) (xs : list A) : option nat :=
  match xs with
  | [] => None
  | x :: rest => if p x then Some 0 else option_map S (findIndex p rest)
  end.

(** [xs[idx] = x] for an index within the array. *)
Fixpoint assign {A : Type} (idx : nat) (x : A) (xs : list A) : list A :=
  match xs, idx with
  | [], _ => []
  | _ :: rest, 0 => x :: rest
  | y :: rest, S i => y :: assign i x rest
  end.

Definition registerHandler (type : string) (config : HandlerConfig) (s : State) : State :=
  let handlers' := map_set String.eqb type (handler config) (handlers s) in
  let schema := mkSchema type (description config) (fields config) in
  let idx := findIndex (fun sc => (schema_type sc =? type)%string) (handlerSchemas s) in
  match idx with
  | Some i => with_handlers handlers' (assign i schema (handlerSchemas s)) s
  | None => with_handlers handlers' (handlerSchemas s ++ [schema]) s
  end.

(** [() => ({})] *)
Definition ping_handler : HandlerFn := fun _ => Returned (Some (JObj [])).

Definition createHotline (options : HotlineOptions) : State :=
  let port := match opt_port options with Some p => p | None => DEFAULT_PORT end in
  let s0 := mkState port (opt_appId options) [] [] None 1000 None false [] 0 0 [] [] in
  let s1 := match opt_handlers options with
            | Some entries =>
                fold_left (fun acc e => registerHandler (fst e) (snd e) acc) entries s0
            | None => s0
            end in
  with_handlers (map_set String.eqb "ping"%string ping_handler (handlers s1))
                (handlerSchemas s1) s1.

(** [ws?.send(...)] on the socket the variable [ws] holds. *)
Definition ws_send (m : Outgoing) (s : State) : State :=
  match ws s with
  | Some k => with_sent (sent s ++ [(k, m)]) s
  | None => s
  end.

Section Runtime.
(** The global [__DEV__]: [None] where it is not defined. *)
Variable DEV : option bool.

Definition connect (s : State) : State :=
  match DEV with
  | Some false => s
  | _ =>
      let s1 := with_intentionalClose false s in
      with_next_socket (S (next_socket s1)) (with_ws (Some (next_socket s1)) s1)
  end.

Definition onopen (s : State) : State :=
  let s1 := with_reconnectDelay 1000 s in
  ws_send (Register (appId s1) (handlerSchemas s1)) s1.

Definition onmessage (raw : Raw) (s : State) : State :=
  match raw with
  | Malformed => s
  | Parsed msg =>
      match req_id msg, req_type msg with
      | Some id, Some type =>
          if negb (truthy_str (Some id)) || negb (truthy_str (Some type)) then s
          else
            match map_get String.eqb type (handlers s) with
            | Some handler =>
                let payload := match req_payload msg with
                               | None | Some JNull => JObj []
                               | Some p => p
                               end in
                match handler payload with
                | Returned result =>
                    let data := match result with Some v => v | None => JNull end in
                    ws_send (Response id true (Some data) None) s
                | Thrown message =>
                    let error := match message with
                                 | Some m => m
                                 | None => "Handler error"%string
                                 end in
                    ws_send (Response id false None (Some error)) s
                end
            | None =>
                ws_send (Response id false None
                                  (Some ("Unknown command: " ++ type)%string)) s
            end
      | _, _ => s
      end
  end.

Definition scheduleReconnect (s : State) : State :=
  match reconnectTimer s with
  | Some _ => s
  | None =>
      let h := next_timer s in
      with_reconnectTimer (Some h)
        (with_timers (timers s ++ [(h, reconnectDelay s)]) (S h) s)
  end.

(** The callback handed to [setTimeout] by [scheduleReconnect]. *)
Definition reconnect_callback (s : State) : State :=
  let s1 := with_reconnectTimer None s in
  let s2 := with_reconnectDelay
              (Z.min (reconnectDelay s1 * 2) RECONNECT_CAP_MS) s1 in
  connect s2.

Definition timer_fires (h : nat) (s : State) : State :=
  match map_get Nat.eqb h (timers s) with
  | None => s
  | Some _ =>
      reconnect_callback
        (with_timers (map_delete Nat.eqb h (timers s)) (next_timer s) s)
  end.

Definition onclose (s : State) : State :=
  let s1 := with_ws None s in
  if negb (intentionalClose s1) then scheduleReconnect s1 else s1.

Definition clearTimeout (h : nat) (s : State) : State :=
  with_timers (map_delete Nat.eqb h (timers s)) (next_timer s) s.

Definition disconnect (s : State) : State :=
  let s1 := with_intentionalClose true s in
  let s2 := match reconnectTimer s1 with
            | Some h => with_reconnectTimer None (clearTimeout h s1)
            | None => s1
            end in
  let s3 := match ws s2 with
            | Some k => with_closing (closing s2 ++ [k]) s2
            | None => s2
            end in
  with_ws None s3.

Definition handle (type : string) (config : HandlerConfig) (s : State) : State :=
  registerHandler type config s.

Inductive Event :=
| CallConnect
| CallDisconnect
| CallHandle (type : string) (config : HandlerConfig)
| OnOpen
| OnMessage (raw : Raw)
| OnClose
| TimerFires (h : nat).

Definition step (s : State) (e : Event) : State :=
  match e with
  | CallConnect => connect s
  | CallDisconnect => disconnect s
  | CallHandle type config => handle type config s
  | OnOpen => onopen s
  | OnMessage raw => onmessage raw s
  | OnClose => onclose s
  | TimerFires h => timer_fires h s
  end.

Definition run (s : State) (es : list Event) : State := fold_left step es s.

(** One failed attempt: the connection closes, and the reconnection timer
    that this arms runs. *)
Definition failed_attempt (s : State) : State :=
  let s1 := onclose s in
  match reconnectTimer s1 with
  | Some h => timer_fires h s1
  | None => s1
  end.

(** Whether an event is a call of [handle] for the type ["ping"]. *)
Definition names_ping (e : Event) : Prop :=
  match e with
  | CallHandle type _ => type = "ping"%string
  | _ => False
  end.

End Runtime.

(** The reconnection timer variable and the runtime's armed timers agree:
    none, or the one timer the variable holds. *)
Definition one_timer (s : State) : Prop :=
  (reconnectTimer s = None /\ timers s = []) \/
  (exists h d, reconnectTimer s = Some h /\ timers s = [(h, d)]).

(** Ready for a first reconnection: the delay is at its initial value, no
    timer is armed, and the last disconnect was not the caller's. *)
Definition fresh (s : State) : Prop :=
  reconnectDelay s = 1000%Z /\ reconnectTimer s = None /\ timers s = [] /\
  intentionalClose s = false.

(** The delays of the armed timers. *)
Definition armed_delays (s : State) : list Z := map snd (timers s).

(** The answer the client writes for a [ping] request with id [id]. *)
Definition ping_request (id : string) : Raw :=
  Parsed (mkRequest (Some id) (Some "ping"%string) None).

(** A handler that throws, and a handler for an application command. *)
Definition throwing : HandlerConfig :=
  mkConfig (fun _ => Thrown (Some "overridden"%string)) None None.

Definition get_state : HandlerConfig :=
  mkConfig (fun _ => Returned (Some (JNum 1))) None (Some "Read from app state"%string).

End Client.

(** ** Event fan-out *)

Module Events.

(** Modelled from the spec: a one-shot waiter session, with the event name
    it blocks on and the application id it may have named (the relay code
    that registers waiters is not among the sources). *)
Record Waiter := mkWaiter {
  session : nat;
  event : string;
  target : option string
}.

(** Modelled from the spec: the frame an event is delivered as,
    [{type: "event", appId, event, data}], tagged with the id of the
    application it came from. *)
Record Notice := mkNotice {
  n_appId : string;
  n_event : string;
  n_data : option json
}.

(** Modelled from the spec: the session registry as far as events go (the
    registered applications with their ids, the observers, the waiters),
    with what each session was delivered and which sessions the relay
    closed. *)
Record State := mkState {
  applications : list (nat * string);
  observers : list nat;
  waiters : list Waiter;
  delivered : list (nat * Notice);
  closed : list nat
}.

(** Modelled from the spec: a waiter matches an event by name, and by
    application id when it named one. *)
Definition matches (appId name : string) (w : Waiter) : bool :=
  (event w =? name)%string &&
  match target w with
  | Some t => (t =? appId)%string
  | None => true
  end.

(** Modelled from the spec: the relay's handling of an inbound event frame
    (the event branch of the relay's message handler is not among the
    sources).  The frame is delivered to every observer and to every
    matching waiter; a waiter that was served is closed and dropped. *)
Definition onEvent (sender : nat) (name : string) (data : option json)
           (s : State) : State :=
  match map_get Nat.eqb sender (applications s) with
  | None => s
  | Some appId =>
      let notice := mkNotice appId name data in
      let served := filter (matches appId name) (waiters s) in
      mkState (applications s) (observers s)
              (filter (fun w => negb (matches appId name w)) (waiters s))
              (delivered s
                 ++ map (fun o => (o, notice)) (observers s)
                 ++ map (fun w => (session w, notice)) served)
              (closed s ++ map session served)
  end.

(** An inbound event frame: the sending session, the name and the data. *)
Record Inbound := mkInbound {
  in_sender : nat;
  in_event : string;
  in_data : option json
}.

Definition onEvents (s : State) (evs : list Inbound) : State :=
  fold_left (fun acc e => onEvent (in_sender e) (in_event e) (in_data e) acc) evs s.

(** What a session was delivered. *)
Definition delivered_to (x : nat) (log : list (nat * Notice)) : list Notice :=
  map snd (filter (fun d => fst d =? x) log).

(** The first of the frames that comes from a registered application and
    matches the waiter, as the notice it is delivered as. *)
Fixpoint first_match (applications : list (nat * string)) (w : Waiter)
         (evs : list Inbound) : option Notice :=
  match evs with
  | [] => None
  | e :: rest =>
      match map_get Nat.eqb (in_sender e) applications with
      | Some appId =>
          if matches appId (in_event e) w
          then Some (mkNotice appId (in_event e) (in_data e))
          else first_match applications w rest
      | None => first_match applications w rest
      end
  end.

(** A registry with one application, one observer and two waiters, and a
    run of three event frames from the application. *)
Definition nav_waiter : Waiter := mkWaiter 8 "navigation" None.

Definition demo : State :=
  mkState [(1, "com.a"%string)] [7]
          [nav_waiter; mkWaiter 9 "navigation" (Some "com.b"%string)] [] [].

Definition demo_events : list Inbound :=
  [mkInbound 1 "error" None;
   mkInbound 1 "navigation" (Some (JStr "Home"));
   mkInbound 1 "navigation" (Some (JStr "Settings"))].

End Events.

(** ** Concrete runs *)

Module Scenario.
Import Relay.

Definition register_frame (a : string) (h : option json) : Frame :=
  mkFrame None (Some "register"%string) (Some "app"%string) (Some a) h None None None None.

Definition request_frame (id type : string) (payload : option json) : Frame :=
  mkFrame (Some id) (Some type) None None None payload None None None.

Definition reply_frame (id : string) (d : json) : Frame :=
  mkFrame (Some id) None None None None None (Some true) (Some d) None.

Definition boot : State := init 8675 4242 0.

(** Application [com.a] on socket 1; a client without a target on socket 2
    has request ["1"] in flight. *)
Definition one_in_flight : State :=
  run boot [Connect 1 None None;
            Message 1 (Parsed (register_frame "com.a" None));
            Connect 2 None None;
            Message 2 (Parsed (request_frame "1" "echo" None))].

(** A registration frame that also carries [ok] and the id in flight. *)
Definition register_with_ok : Frame :=
  mkFrame (Some "1"%string) (Some "register"%string) (Some "app"%string)
          (Some "com.b"%string) None None (Some true) None None.

(** Applications [com.a] and [com.b] on sockets 1 and 3; a client without a
    target on socket 2. *)
Definition two_apps : State :=
  run boot [Connect 1 None None;
            Message 1 (Parsed (register_frame "com.a" None));
            Connect 3 None None;
            Message 3 (Parsed (register_frame "com.b" None));
            Connect 2 None None].

(** The application of [one_in_flight] goes away before the deadline. *)
Definition app_leaves : State :=
  run one_in_flight [Elapse 10; Close 1; Elapse 30000].

(** Clients on sockets 2 and 3 both send a request with id ["dup"], ten
    milliseconds apart, to the application on socket 1. *)
Definition twice_same_id : State :=
  run boot [Connect 1 None None;
            Message 1 (Parsed (register_frame "com.a" None));
            Connect 2 None None;
            Connect 3 None None;
            Message 2 (Parsed (request_frame "dup" "echo" None));
            Elapse 10;
            Message 3 (Parsed (request_frame "dup" "echo" None))].

(** One client sends two requests with id ["dup"], ten milliseconds apart:
    the state when the second has just been forwarded, and when its
    deadline is reached. *)
Definition reused_forwarded : State :=
  run boot [Connect 1 None None;
            Message 1 (Parsed (register_frame "com.a" None));
            Connect 2 None None;
            Message 2 (Parsed (request_frame "dup" "echo" None));
            Elapse 10;
            Message 2 (Parsed (request_frame "dup" "echo" None))].

Definition reused_deadline : State := run reused_forwarded [Elapse 30010].

End Scenario.

(** ** More of the relay: shutdown, and what runs are made of *)

Module RelayMore.
Import Relay.

(** [shutdown]: the timers of the pending requests are cleared and the table
    is emptied; nothing is sent. *)
Definition shutdown (s : State) : State :=
  let s1 := fold_left (fun acc e => clearTimeout (timer (snd e)) acc)
                      (pendingRequests s) s in
  with_pending [] s1.

(** The types in the [serverHandlers] table. *)
Definition own_command (type : string) : Prop :=
  type = "ping"%string \/ type = "list-apps"%string \/ type = "list-handlers"%string.


(** Every pending correlation has its timer armed, and that timer carries
    the correlation's id and client. *)
Definition armed (s : State) : Prop :=
  forall id p, In (id, p) (pendingRequests s) ->
    exists d, map_get Nat.eqb (timer p) (timers s)
              = Some (mkTimer d id (cliSocket p)).

(** Every armed timer is due after now and within the request timeout. *)
Definition in_window (s : State) : Prop :=
  forall h t, In (h, t) (timers s) ->
    (now s < due t <= now s + REQUEST_TIMEOUT)%Z.

(** Each socket is at most once in the registry and once among the
    watchers. *)
Definition sets_ok (s : State) : Prop :=
  NoDup (keys (apps s)) /\ NoDup (watchers s).

End RelayMore.

(** ** More of the client: what its runs keep *)

Module ClientMore.
Import Client.

(** The schema list names no type twice, and every type it names has a
    handler. *)
Definition schemas_ok (s : State) : Prop :=
  NoDup (map schema_type (handlerSchemas s)) /\
  forall sc, In sc (handlerSchemas s) ->
             exists f, map_get String.eqb (schema_type sc) (handlers s) = Some f.

(** No socket was ever opened and nothing was written. *)
Definition silent (s : State) : Prop :=
  ws s = None /\ sent s = [] /\ next_socket s = 0.



End ClientMore.

(** ** The command line: flags and command suggestions (src/src/types.ts)

    [args] is [process.argv.slice(2)], a list of strings.  A string is
    read through its length and its units [a[i]]; only their equality is
    used, so units are modelled as [Ascii.ascii]. *)

Module Cli.

(** [args.indexOf(x)], [None] for -1. *)
Fixpoint indexOf (x : string) (args : list string) : option nat :=
  match args with
  | [] => None
  | y :: rest => if (y =? x)%string then Some 0 else option_map S (indexOf x rest)
  end.

(** [`--${name}`] *)
Definition dashed (name : string) : string := ("--" ++ name)%string.

Definition flag (args : list string) (name : string) : option string :=
  match indexOf (dashed name) args with
  | None => None
  | Some i => if List.length args <=? i + 1 then None else nth_error args (i + 1)
  end.

(** [args.includes(`--${name}`)] *)
Definition hasFlag (args : list string) (name : string) : bool :=
  existsb (fun y => (y =? dashed name)%string) args.

(** The table [dp]: a list of rows. *)
Definition Table : Type := list (list nat).

(** [dp[i][j]] *)
Definition get2 (dp : Table) (i j : nat) : nat := nth j (nth i dp []) 0.

(** [dp[i][j] = v]; every index the loops use is inside the table, where
    [assign] is the array store. *)
Definition set2 (dp : Table) (i j v : nat) : Table :=
  Client.assign i (Client.assign j v (nth i dp [])) dp.

(** [Math.min(x, y, z)] *)
Definition min3 (x y z : nat) : nat := Nat.min (Nat.min x y) z.

(** [x !== y] on two units, [None] for [undefined]. *)
Definition differ (x y : option Ascii.ascii) : bool :=
  match x, y with
  | Some c, Some d => negb (Ascii.eqb c d)
  | None, None => false
  | _, _ => true
  end.

(** [a[i - 1] !== b[j - 1] ? 1 : 0] *)
Definition cost (a b : string) (i j : nat) : nat :=
  if differ (String.get (i - 1) a) (String.get (j - 1) b) then 1 else 0.

(** The body of the inner loop. *)
Definition cell (a b : string) (i : nat) (dp : Table) (j : nat) : Table :=
  set2 dp i j (min3 (get2 dp (i - 1) j + 1)
                    (get2 dp i (j - 1) + 1)
                    (get2 dp (i - 1) (j - 1) + cost a b i j)).

Definition levenshtein (a b : string) : nat :=
  let m := String.length a in
  let n := String.length b in
  let dp0 : Table := repeat (repeat 0 (n + 1)) (m + 1) in
  let dp1 := fold_left (fun dp i => set2 dp i 0 i) (seq 0 (m + 1)) dp0 in
  let dp2 := fold_left (fun dp j => set2 dp 0 j j) (seq 0 (n + 1)) dp1 in
  let dp3 := fold_left (fun dp i => fold_left (cell a b i) (seq 1 n) dp)
                       (seq 1 m) dp2 in
  get2 dp3 m n.

Definition COMMANDS : list string :=
  ["status"; "start"; "stop"; "cmd"; "query"; "watch"; "wait"; "setup";
   "teardown"; "logs"]%string.

(** [d < bestDist], [None] for [Infinity]. *)
Definition below (d : nat) (bestDist : option nat) : bool :=
  match bestDist with
  | None => true
  | Some e => d <? e
  end.

(** One turn of the loop of [closestCommand] on [(best, bestDist)]. *)
Definition consider (input : string) (acc : option string * option nat)
           (cmd : string) : option string * option nat :=
  let d := levenshtein input cmd in
  if below d (snd acc) && (d <=? 3) then (Some cmd, Some d) else acc.

(** [closestCommand], over the command list it loops on. *)
Definition closestCommandIn (commands : list string) (input : string)
  : option string :=
  fst (fold_left (consider input) commands (None, None)).

Definition closestCommand (input : string) : option string :=
  closestCommandIn COMMANDS input.

(** The edit distance between the first [i] units of [a] and the first
    [j] units of [b], by its recurrence; the table is compared with it. *)
Fixpoint edit (a b : string) (i : nat) : nat -> nat :=
  match i with
  | 0 => fun j => j
  | S i' =>
      fix row (j : nat) : nat :=
        match j with
        | 0 => S i'
        | S j' => min3 (edit a b i' (S j') + 1)
                       (row j' + 1)
                       (edit a b i' j' + cost a b (S i') (S j'))
        end
  end.

(** The table has [m + 1] rows of [n + 1] cells. *)
Definition shaped (m n : nat) (dp : Table) : Prop :=
  List.length dp = m + 1 /\ forall r, In r dp -> List.length r = n + 1.

(** Rows [0..k] of the table hold the recurrence, and its first column
    the row numbers. *)
Definition filled (a b : string) (m n k : nat) (dp : Table) : Prop :=
  shaped m n dp /\
  (forall i j, i <= k -> j <= n -> get2 dp i j = edit a b i j) /\
  (forall i, i <= m -> get2 dp i 0 = i).

End Cli.

(** ** The relay before watchers (src/src/server.ts)

    The older snapshot has no watcher set, no [list-handlers] command and
    does not keep the handler list of a registration.  Its state is the
    relay state with [watchers] left empty; [findAppSocket], [listAppIds],
    [send], the loop of [cleanupApp] and the timeout callback are the same
    code as in [Relay]. *)

Module RelayV1.
Import Relay.

(** [{ id: msg.id, ok: true }] *)
Definition bare_ok (id : string) : Frame :=
  mkFrame (Some id) None None None None None (Some true) None None.

(** Returns the new state and whether the command was built in. *)
Definition handleBuiltIn (w : ws) (id type : string) (s : State) : bool * State :=
  if (type =? "ping")%string then (true, send w (bare_ok id) s)
  else if (type =? "list-apps")%string
       then (true, send w (response_ok id (list_apps s)) s)
       else (false, s).

Definition cleanupApp (w : ws) (s : State) : State :=
  match map_get Nat.eqb w (apps s) with
  | None => s
  | Some info =>
      let s1 := with_apps (map_delete Nat.eqb w (apps s)) s in
      fail_pending w (pendingRequests s1) s1
  end.

Definition fetch (w : ws) (appParam : option string) (s : State) : State :=
  with_data (map_set Nat.eqb w (mkClientData RoleCli (or_undefined appParam))
                     (data s)) s.

Definition open (w : ws) (s : State) : State := s.

Definition register (w : ws) (a : string) (s : State) : State :=
  let s1 := with_data (map_set Nat.eqb w (mkClientData RoleApp (Some a)) (data s)) s in
  with_apps (map_set Nat.eqb w (mkAppConnection a (now s1) None) (apps s1)) s1.

Definition route_response (msg : Frame) (id : string) (s : State) : State :=
  match map_get String.eqb id (pendingRequests s) with
  | Some pending =>
      let s1 := clearTimeout (timer pending) s in
      let s2 := ws_send (cliSocket pending) (SMsg msg) s1 in
      with_pending (map_delete String.eqb id (pendingRequests s2)) s2
  | None => s
  end.

Definition route_request (w : ws) (msg : Frame) (id type : string) (s : State) : State :=
  let (handled, s1) := handleBuiltIn w id type s in
  if handled then s1
  else
    let targetAppId := appId (ws_data s w) in
    match findAppSocket (apps s) targetAppId with
    | None =>
        if negb (truthy_str targetAppId) && (1 <? List.length (apps s))
        then send w (response_err id (ambiguous_error (apps s))) s
        else send w (response_err id (no_app_error targetAppId)) s
    | Some a =>
        let (h, s1) := setTimeout REQUEST_TIMEOUT id w s in
        let s2 := with_pending
                    (map_set String.eqb id (mkPending w a h) (pendingRequests s1)) s1 in
        ws_send a (SMsg (forwarded id type (f_payload msg))) s2
    end.

Definition message (w : ws) (raw : Raw) (s : State) : State :=
  match raw with
  | Malformed => s
  | Parsed msg =>
      if is_register msg then
        match f_appId msg with
        | Some a => register w a s
        | None => s
        end
      else if is_response msg then
        match f_id msg with
        | Some id => route_response msg id s
        | None => s
        end
      else if truthy_str (f_id msg) && truthy_str (f_type msg) then
        match f_id msg, f_type msg with
        | Some id, Some type => route_request w msg id type s
        | _, _ => s
        end
      else s
  end.

Definition close (w : ws) (s : State) : State :=
  match role (ws_data s w) with
  | RoleApp => cleanupApp w s
  | _ => s
  end.

(** The [role] parameter of the URL is not read. *)
Definition step (s : State) (e : Event) : State :=
  match e with
  | Connect w _ a => open w (fetch w a s)
  | Message w raw => message w raw s
  | Close w => close w s
  | Elapse t => elapse t s
  end.

Definition run (s : State) (es : list Event) : State := fold_left step es s.

(** An application entry without its handler list. *)
Definition forget (c : AppConnection) : AppConnection :=
  mkAppConnection (conn_appId c) (connectedAt c) None.

Definition forget_entry (e : ws * AppConnection) : ws * AppConnection :=
  (fst e, forget (snd e)).

(** A state of the later relay, seen without the handler lists. *)
Definition erase (s : State) : State :=
  with_apps (map forget_entry (apps s)) s.

(** Events on which the two snapshots are meant to agree: no connection
    asks to watch, and no frame names a command whose answer changed
    ([ping]) or that only the later relay has ([list-handlers]). *)
Definition shared_event (e : Event) : bool :=
  match e with
  | Connect _ r _ => negb (opt_str_is r "watch")
  | Message _ (Parsed msg) =>
      negb (opt_str_is (f_type msg) "ping")
      && negb (opt_str_is (f_type msg) "list-handlers")
  | _ => true
  end.

(** An application registers with a handler list, a client's request is
    forwarded and answered, a second request is left unanswered when the
    application goes away, and the clock runs past the deadline. *)
Definition exchange : list Event :=
  [Connect 1 None None;
   Message 1 (Parsed (Scenario.register_frame "com.a"
                        (Some (JArr [JObj [("type"%string, JStr "echo")]]))));
   Connect 2 None (Some "com.a"%string);
   Message 2 (Parsed (Scenario.request_frame "1" "echo" None));
   Message 1 (Parsed (Scenario.reply_frame "1" (JStr "hello")));
   Message 2 (Parsed (Scenario.request_frame "2" "list-apps" None));
   Message 2 (Parsed (Scenario.request_frame "3" "echo" None));
   Elapse 10;
   Close 1;
   Message 2 (Parsed (Scenario.request_frame "4" "echo" None));
   Elapse 40000].

End RelayV1.
(** * Facts *)

(** ** The [Map] operations *)

Section JsMapFacts.
Context {K V : Type} {eqb : K -> K -> bool}.
Hypothesis eqb_eq : forall a b, eqb a b = true <-> a = b.

#[local] Abbreviation map_get := (@map_get K V eqb).
#[local] Abbreviation map_set := (@map_set K V eqb).
#[local] Abbreviation map_delete := (@map_delete K V eqb).
#[local] Abbreviation keys := (@keys K V).

Lemma eqb_refl' : forall a, eqb a a = true.
Proof. intro a. apply eqb_eq. reflexivity. Qed.

Lemma eqb_neq : forall a b, a <> b -> eqb a b = false.
Proof.
  intros a b H. destruct (eqb a b) eqn:E; [|reflexivity].
  apply eqb_eq in E. contradiction.
Qed.

Lemma eqb_false_neq : forall a b, eqb a b = false -> a <> b.
Proof.
  intros a b E H. apply eqb_eq in H. congruence.
Qed.

Lemma map_get_set_eq : forall k v m, map_get k (map_set k v m) = Some v.
Proof.
  intros k v m. induction m as [|[k' v'] rest IH]; simpl.
  - now rewrite eqb_refl'.
  - destruct (eqb k' k) eqn:E; simpl.
    + now rewrite eqb_refl'.
    + now rewrite E.
Qed.

Lemma map_get_set_neq : forall k k' v m,
    k <> k' -> map_get k' (map_set k v m) = map_get k' m.
Proof.
  intros k k' v m Hne. induction m as [|[k0 v0] rest IH]; simpl.
  - now rewrite (eqb_neq Hne).
  - destruct (eqb k0 k) eqn:E; simpl.
    + apply eqb_eq in E. subst k0. now rewrite (eqb_neq Hne).
    + destruct (eqb k0 k'); [reflexivity | exact IH].
Qed.

Lemma map_get_delete_eq : forall k m, map_get k (map_delete k m) = None.
Proof.
  intros k m. unfold map_delete. induction m as [|[k0 v0] rest IH]; simpl.
  - reflexivity.
  - destruct (eqb k0 k) eqn:E; simpl; [exact IH | now rewrite E].
Qed.

Lemma map_get_delete_neq : forall k k' m,
    k <> k' -> map_get k' (map_delete k m) = map_get k' m.
Proof.
  intros k k' m Hne. unfold map_delete.
  induction m as [|[k0 v0] rest IH]; simpl.
  - reflexivity.
  - destruct (eqb k0 k) eqn:E; simpl.
    + apply eqb_eq in E. subst k0. now rewrite (eqb_neq Hne).
    + destruct (eqb k0 k'); [reflexivity | exact IH].
Qed.

Lemma map_get_In : forall k v m, map_get k m = Some v -> In (k, v) m.
Proof.
  intros k v m. induction m as [|[k0 v0] rest IH]; simpl; [discriminate|].
  destruct (eqb k0 k) eqn:E.
  - intro H. injection H as ->. apply eqb_eq in E. subst. now left.
  - intro H. right. now apply IH.
Qed.

Lemma map_get_None_notin : forall k m,
    map_get k m = None -> ~ In k (keys m).
Proof.
  intros k m. induction m as [|[k0 v0] rest IH]; simpl; [tauto|].
  destruct (eqb k0 k) eqn:E; [discriminate|].
  intros H [H1 | H1].
  - subst. now rewrite eqb_refl' in E.
  - now apply IH.
Qed.

Lemma In_map_get_nodup : forall k v m,
    NoDup (keys m) -> In (k, v) m -> map_get k m = Some v.
Proof.
  intros k v m. induction m as [|[k0 v0] rest IH]; simpl; [tauto|].
  intros Hnd [H | H].
  - injection H as -> ->. now rewrite eqb_refl'.
  - inversion Hnd as [|? ? Hnotin Hnd']; subst.
    destruct (eqb k0 k) eqn:E.
    + apply eqb_eq in E. subst k0. exfalso. apply Hnotin.
      change k with (fst (k, v)). now apply in_map.
    + now apply IH.
Qed.

Lemma keys_map_set_incl : forall k v m k',
    In k' (keys (map_set k v m)) -> k' = k \/ In k' (keys m).
Proof.
  intros k v m k'. induction m as [|[k0 v0] rest IH]; simpl.
  - intros [H | []]. now left.
  - destruct (eqb k0 k) eqn:E; simpl.
    + intros [H | H]; [now left | right; now right].
    + intros [H | H]; [right; now left |].
      destruct (IH H) as [H' | H']; [now left | right; now right].
Qed.

Lemma NoDup_keys_set : forall k v m,
    NoDup (keys m) -> NoDup (keys (map_set k v m)).
Proof.
  intros k v m. induction m as [|[k0 v0] rest IH]; simpl; intro Hnd.
  - constructor; [tauto | constructor].
  - inversion Hnd as [|? ? Hnotin Hnd']; subst.
    destruct (eqb k0 k) eqn:E; simpl.
    + apply eqb_eq in E. subst k0. now constructor.
    + constructor; [|now apply IH].
      intro Hin. destruct (keys_map_set_incl _ _ _ _ Hin) as [H | H].
      * subst. now rewrite eqb_refl' in E.
      * contradiction.
Qed.

Lemma NoDup_keys_filter : forall (p : K * V -> bool) m,
    NoDup (keys m) -> NoDup (keys (filter p m)).
Proof.
  intros p m. induction m as [|[k0 v0] rest IH]; simpl; intro Hnd.
  - constructor.
  - inversion Hnd as [|? ? Hnotin Hnd']; subst.
    destruct (p (k0, v0)); simpl; [|now apply IH].
    constructor; [|now apply IH].
    intro Hin. apply Hnotin. unfold keys in *.
    apply in_map_iff in Hin. destruct Hin as [[k1 v1] [Hk Hin]].
    apply filter_In in Hin. destruct Hin as [Hin _].
    simpl in Hk. subst. change k0 with (fst (k0, v1)). now apply in_map.
Qed.

Lemma NoDup_keys_delete : forall k m,
    NoDup (keys m) -> NoDup (keys (map_delete k m)).
Proof. intros k m. apply NoDup_keys_filter. Qed.

Lemma In_map_delete : forall k e m,
    In e (map_delete k m) <-> In e m /\ fst e <> k.
Proof.
  intros k e m. unfold map_delete. rewrite filter_In.
  split; intros [H1 H2]; split; try assumption.
  - apply eqb_false_neq. now apply negb_true_iff.
  - apply negb_true_iff. now apply eqb_neq.
Qed.

Lemma In_map_set : forall k v e m,
    In e (map_set k v m) -> e = (k, v) \/ In e m.
Proof.
  intros k v e m. induction m as [|[k0 v0] rest IH]; simpl.
  - intros [H | []]. now left.
  - destruct (eqb k0 k); simpl.
    + intros [H | H]; [now left | right; now right].
    + intros [H | H]; [right; now left |].
      destruct (IH H) as [H' | H']; [now left | right; now right].
Qed.
(** Insertion order: a new key goes last, a key already there keeps its
    place. *)
Lemma keys_map_set_new : forall k v m,
    ~ In k (keys m) -> keys (map_set k v m) = keys m ++ [k].
Proof.
  intros k v m. induction m as [|[k0 v0] rest IH]; simpl; intro Hnin.
  - reflexivity.
  - destruct (eqb k0 k) eqn:E.
    + apply eqb_eq in E. subst. exfalso. apply Hnin. now left.
    + simpl. f_equal. apply IH. intro Hin. apply Hnin. now right.
Qed.

Lemma keys_map_set_old : forall k v m,
    In k (keys m) -> keys (map_set k v m) = keys m.
Proof.
  intros k v m. induction m as [|[k0 v0] rest IH]; simpl; intro Hin.
  - destruct Hin.
  - destruct (eqb k0 k) eqn:E.
    + apply eqb_eq in E. now subst.
    + simpl. f_equal. apply IH. destruct Hin as [-> | Hin]; [|assumption].
      now rewrite eqb_refl' in E.
Qed.
End JsMapFacts.

(** ** The relay *)

Module RelayFacts.
Import Relay.

Lemma filter_first_match {A : Type} (p : A -> bool) (pre post : list A) (x : A) :
  Forall (fun y => p y = false) pre -> p x = true ->
  filter p (pre ++ x :: post) = x :: filter p post.
Proof.
  intros Hpre Hx. induction Hpre as [|y pre Hy _ IH]; simpl.
  - now rewrite Hx.
  - now rewrite Hy.
Qed.

Lemma filter_none {A : Type} (p : A -> bool) (l : list A) :
  Forall (fun y => p y = false) l -> filter p l = [].
Proof.
  intros H. induction H as [|y l Hy _ IH]; simpl; [reflexivity|].
  now rewrite Hy.
Qed.

Lemma fetch_target_shape (w : ws) (r a : option string) (s : State) :
  let t := appId (ws_data (fetch w r a s) w) in
  omitted t \/ exists id, given t id.
Proof.
  unfold ws_data, fetch. simpl.
  rewrite (map_get_set_eq Nat.eqb_eq). simpl.
  unfold or_undefined. destruct (truthy_str a) eqn:E.
  - right. destruct a as [id|]; [|discriminate]. exists id. split; [reflexivity|].
    simpl in E. intros ->. discriminate.
  - now left.
Qed.

(** The registry lists the sockets in the order in which they first
    registered. *)
Lemma register_order (w : ws) (msg : Frame) (a : string) (s : State) :
  keys (apps (register w msg a s)) =
  if existsb (Nat.eqb w) (keys (apps s)) then keys (apps s)
  else keys (apps s) ++ [w].
Proof.
  unfold register. simpl. destruct (existsb (Nat.eqb w) (keys (apps s))) eqn:E.
  - apply (keys_map_set_old Nat.eqb_eq). apply existsb_exists in E.
    destruct E as (x & Hin & Hx). apply Nat.eqb_eq in Hx. now subst.
  - apply (keys_map_set_new Nat.eqb_eq). intro Hin.
    assert (Ex : existsb (Nat.eqb w) (keys (apps s)) = true).
    { apply existsb_exists. exists w. split; [assumption | apply Nat.eqb_refl]. }
    congruence.
Qed.

(** C1: the outcome of application resolution over the registry, case by
    case: an empty registry gives no target; an omitted target gives the
    only application when there is exactly one, and the ambiguous outcome
    when there are several; a given target gives the first application in
    registration order whose appId equals it, and no target when none
    does. *)
Theorem C1_resolveApplication (registry : list (ws * AppConnection))
        (targetAppId : option string) :
  (registry = [] -> resolveApplication registry targetAppId = NONE) /\
  (forall w info, omitted targetAppId -> registry = [(w, info)] ->
                  resolveApplication registry targetAppId = Resolved w) /\
  (omitted targetAppId -> 1 < List.length registry ->
   resolveApplication registry targetAppId = AMBIGUOUS) /\
  (forall t, given targetAppId t ->
     (forall earlier w info later,
         registry = earlier ++ (w, info) :: later ->
         conn_appId info = t ->
         Forall (fun e => conn_appId (snd e) <> t) earlier ->
         resolveApplication registry targetAppId = Resolved w) /\
     (Forall (fun e => conn_appId (snd e) <> t) registry ->
      resolveApplication registry targetAppId = NONE)).
Proof.
  repeat split.
  - intros ->. unfold resolveApplication, findAppSocket. simpl.
    now rewrite andb_false_r.
  - intros w info Hom ->. unfold resolveApplication, findAppSocket. simpl.
    unfold omitted in Hom. now rewrite Hom.
  - intros Hom Hlen. unfold resolveApplication, findAppSocket.
    unfold omitted in Hom. rewrite Hom.
    destruct registry as [|e1 [|e2 rest]]; simpl in *; try lia. reflexivity.
  - intros earlier w info later -> Hid Hpre.
    destruct H as [-> Hne].
    unfold resolveApplication, findAppSocket.
    assert (Ht : truthy_str (Some t) = true).
    { simpl. apply negb_true_iff. now apply String.eqb_neq. }
    rewrite Ht. simpl negb. cbv iota.
    replace (List.length (earlier ++ (w, info) :: later) =? 0) with false.
    2:{ symmetry. apply Nat.eqb_neq. rewrite length_app. simpl. lia. }
    rewrite filter_first_match.
    + reflexivity.
    + eapply Forall_impl; [|exact Hpre]. intros e He. simpl.
      apply String.eqb_neq. congruence.
    + simpl. apply String.eqb_eq. now symmetry.
  - intros Hnone. destruct H as [-> Hne].
    unfold resolveApplication, findAppSocket.
    assert (Ht : truthy_str (Some t) = true).
    { simpl. apply negb_true_iff. now apply String.eqb_neq. }
    rewrite Ht. simpl negb. cbv iota.
    rewrite filter_none.
    + simpl. now destruct (List.length registry =? 0).
    + eapply Forall_impl; [|exact Hnone]. intros e He. simpl.
      apply String.eqb_neq. congruence.
Qed.

(** The four cases of C1 at concrete registries. *)
Lemma C1_resolveApplication_witness :
  resolveApplication [] (Some "a"%string) = NONE /\
  resolveApplication [(4, mkAppConnection "a" 0 None)] None = Resolved 4 /\
  resolveApplication [(4, mkAppConnection "a" 0 None);
                      (5, mkAppConnection "b" 0 None)] None = AMBIGUOUS /\
  resolveApplication [(4, mkAppConnection "a" 0 None);
                      (5, mkAppConnection "b" 0 None);
                      (6, mkAppConnection "b" 1 None)] (Some "b"%string) = Resolved 5 /\
  resolveApplication [(4, mkAppConnection "a" 0 None)] (Some "b"%string) = NONE.
Proof.
  assert (Hb : given (Some "b"%string) "b"%string).
  { split; [reflexivity | discriminate]. }
  split; [|split; [|split; [|split]]].
  - destruct (C1_resolveApplication [] (Some "a"%string)) as (H & _).
    apply H. reflexivity.
  - destruct (C1_resolveApplication [(4, mkAppConnection "a" 0 None)] None)
      as (_ & H & _).
    apply (H 4 (mkAppConnection "a" 0 None)); reflexivity.
  - destruct (C1_resolveApplication
                [(4, mkAppConnection "a" 0 None); (5, mkAppConnection "b" 0 None)]
                None) as (_ & _ & H & _).
    apply H; [reflexivity | simpl; lia].
  - destruct (C1_resolveApplication
                [(4, mkAppConnection "a" 0 None); (5, mkAppConnection "b" 0 None);
                 (6, mkAppConnection "b" 1 None)] (Some "b"%string))
      as (_ & _ & _ & H).
    destruct (H "b"%string Hb) as (Hfirst & _).
    apply (Hfirst [(4, mkAppConnection "a" 0 None)] 5 (mkAppConnection "b" 0 None)
                  [(6, mkAppConnection "b" 1 None)]).
    + reflexivity.
    + reflexivity.
    + constructor; [simpl; discriminate | constructor].
  - destruct (C1_resolveApplication [(4, mkAppConnection "a" 0 None)]
                                    (Some "b"%string)) as (_ & _ & _ & H).
    destruct (H "b"%string Hb) as (_ & Hnone).
    apply Hnone. constructor; [simpl; discriminate | constructor].
Defined.

Lemma message_not_register (w : ws) (msg : Frame) (s : State) :
  is_register msg = false ->
  message w (Parsed msg) s =
  if is_response msg then
    match f_id msg with
    | Some id => route_response msg id s
    | None => s
    end
  else if truthy_str (f_id msg) && truthy_str (f_type msg) then
    match f_id msg, f_type msg with
    | Some id, Some type => route_request w msg id type s
    | _, _ => s
    end
  else s.
Proof. intros H. unfold message. now rewrite H. Qed.

Lemma message_response (w : ws) (msg : Frame) (id : string) (s : State) :
  is_register msg = false -> is_response msg = true -> f_id msg = Some id ->
  message w (Parsed msg) s = route_response msg id s.
Proof.
  intros Hreg Hres Hid. rewrite message_not_register by assumption.
  now rewrite Hres, Hid.
Qed.

Lemma message_request (w : ws) (msg : Frame) (id type : string) (s : State) :
  is_register msg = false -> is_response msg = false ->
  f_id msg = Some id -> id <> ""%string ->
  f_type msg = Some type -> type <> ""%string ->
  message w (Parsed msg) s = route_request w msg id type s.
Proof.
  intros Hreg Hres Hid Hne Hty Hnt. rewrite message_not_register by assumption.
  rewrite Hres, Hid, Hty. simpl.
  apply String.eqb_neq in Hne, Hnt. now rewrite Hne, Hnt.
Qed.

(** The relay snapshots have no event branch: a frame without [id] and
    without [ok] that is not a registration, such as an event frame, is
    dropped. *)
Lemma frame_without_id_dropped (w : ws) (msg : Frame) (s : State) :
  is_register msg = false -> f_id msg = None ->
  message w (Parsed msg) s = s.
Proof.
  intros Hreg Hid. rewrite message_not_register by assumption.
  unfold is_response. rewrite Hid. simpl. rewrite andb_false_r. reflexivity.
Qed.

(** C2 (as amended): a frame that is not a registration, has [ok] and an id
    held in the pending table has its correlation removed and its timer
    cleared, and is sent as it is to the socket the request came from (the
    watchers get their copy); when the id is not in the table nothing is
    sent and nothing changes. *)
Theorem C2_response_routing (s : State) (w : ws) (msg : Frame) (id : string) :
  is_register msg = false ->
  is_response msg = true ->
  f_id msg = Some id ->
  (forall pending,
      map_get String.eqb id (pendingRequests s) = Some pending ->
      let s' := message w (Parsed msg) s in
      pendingRequests s' = map_delete String.eqb id (pendingRequests s) /\
      map_get String.eqb id (pendingRequests s') = None /\
      timers s' = map_delete Nat.eqb (timer pending) (timers s) /\
      map_get Nat.eqb (timer pending) (timers s') = None /\
      outbox s' =
        outbox s
          ++ map (fun o => (o, SBroadcast DirRes
                                 (option_map conn_appId
                                    (map_get Nat.eqb (appSocket pending) (apps s)))
                                 msg)) (watchers s)
          ++ [(cliSocket pending, SMsg msg)] /\
      apps s' = apps s /\ watchers s' = watchers s /\ data s' = data s) /\
  (map_get String.eqb id (pendingRequests s) = None ->
   message w (Parsed msg) s = s).
Proof.
  intros Hreg Hres Hid. rewrite (message_response w msg s Hreg Hres Hid).
  unfold route_response. split.
  - intros pending Hget. rewrite Hget. simpl.
    repeat split.
    + apply map_get_delete_eq.
    + apply map_get_delete_eq.
    + now rewrite <- app_assoc.
  - intros Hget. now rewrite Hget.
Qed.

Lemma C2_response_routing_witness :
  let msg := Scenario.reply_frame "1" (JNum 7) in
  let s' := message 1 (Parsed msg) Scenario.one_in_flight in
  map_get String.eqb "1"%string (pendingRequests s') = None /\
  outbox s' = outbox Scenario.one_in_flight ++ [(2, SMsg msg)].
Proof.
  pose proof (C2_response_routing Scenario.one_in_flight 1
                (Scenario.reply_frame "1" (JNum 7)) (id := "1"%string)
                eq_refl eq_refl eq_refl) as [H _].
  specialize (H (mkPending 2 1 0) eq_refl).
  destruct H as (_ & Hgone & _ & _ & Hout & _).
  split; [exact Hgone | exact Hout].
Defined.

(** C2 as stated fails: a frame with [ok] and an id held in the pending
    table that also has the registration shape is taken as a registration;
    the correlation and its timer stay, and the client is sent nothing. *)
Lemma C2_counterexample :
  let s := Scenario.one_in_flight in
  let s' := message 1 (Parsed Scenario.register_with_ok) s in
  f_ok Scenario.register_with_ok = Some true /\
  f_id Scenario.register_with_ok = Some "1"%string /\
  map_get String.eqb "1"%string (pendingRequests s) = Some (mkPending 2 1 0) /\
  map_get String.eqb "1"%string (pendingRequests s') = Some (mkPending 2 1 0) /\
  map_get Nat.eqb 0 (timers s') = Some (mkTimer 30000 "1" 2) /\
  outbox s' = outbox s.
Proof. vm_compute. repeat split. Qed.

Lemma append_assoc (a b c : string) : ((a ++ b) ++ c = a ++ (b ++ c))%string.
Proof. induction a as [|ch a IH]; simpl; [reflexivity | now rewrite IH]. Qed.

Lemma concat_contains (sep x : string) (xs : list string) :
  In x xs -> exists pre post, String.concat sep xs = (pre ++ x ++ post)%string.
Proof.
  induction xs as [|y rest IH]; [intros []|].
  intros [-> | Hin].
  - destruct rest as [|z rest'].
    + exists ""%string, ""%string. simpl.
      induction x as [|ch x IHx]; simpl; [reflexivity | now rewrite <- IHx].
    + exists ""%string, (sep ++ String.concat sep (z :: rest'))%string. reflexivity.
  - destruct (IH Hin) as (pre & post & E).
    destruct rest as [|z rest']; [destruct Hin|].
    exists (y ++ sep ++ pre)%string, post.
    change (String.concat sep (y :: z :: rest'))
      with (y ++ sep ++ String.concat sep (z :: rest'))%string.
    rewrite E. now rewrite !append_assoc.
Qed.

Lemma dedup_In (x : string) (xs seen : list string) :
  In x xs -> existsb (String.eqb x) seen = false -> In x (dedup seen xs).
Proof.
  revert seen. induction xs as [|y rest IH]; intros seen Hin Hseen; [destruct Hin|].
  simpl. destruct (existsb (String.eqb y) seen) eqn:Ey.
  - destruct Hin as [-> | Hin]; [congruence|]. now apply IH.
  - destruct Hin as [-> | Hin]; [now left|].
    destruct (String.eqb x y) eqn:Exy.
    + apply String.eqb_eq in Exy. subst. now left.
    + right. apply IH; [assumption|]. simpl. now rewrite Exy.
Qed.

Lemma listAppIds_complete (registry : list (ws * AppConnection)) (w : ws)
      (info : AppConnection) :
  In (w, info) registry -> In (conn_appId info) (listAppIds registry).
Proof.
  intros Hin. unfold listAppIds. apply dedup_In; [|reflexivity].
  apply in_map_iff. exists (w, info). now split.
Qed.

(** C6 (as amended): a request that is not one of the relay's own commands,
    from a client without a target, while two or more applications are
    registered, is answered at once with [ok: false] and an error that
    names every registered application id; no correlation is recorded and
    no timer is armed. *)
Theorem C6_ambiguous_target (s : State) (w : ws) (msg : Frame) (id type : string) :
  is_register msg = false ->
  is_response msg = false ->
  f_id msg = Some id -> id <> ""%string ->
  f_type msg = Some type -> type <> ""%string ->
  serverHandlers type = None ->
  omitted (appId (ws_data s w)) ->
  1 < List.length (apps s) ->
  let s' := message w (Parsed msg) s in
  outbox s' = outbox s ++ [(w, SMsg (response_err id (ambiguous_error (apps s))))] /\
  pendingRequests s' = pendingRequests s /\
  timers s' = timers s /\
  (forall a info, In (a, info) (apps s) ->
     exists pre post,
       ambiguous_error (apps s) = (pre ++ conn_appId info ++ post)%string).
Proof.
  intros Hreg Hres Hid Hne Hty Hnt Hown Hom Hlen.
  rewrite (message_request w msg s Hreg Hres Hid Hne Hty Hnt).
  unfold route_request, handleServerCommand. rewrite Hown.
  unfold omitted in Hom.
  assert (Hfind : findAppSocket (apps s) (appId (ws_data s w)) = None).
  { unfold findAppSocket. rewrite Hom.
    destruct (apps s) as [|e1 [|e2 rest]]; simpl in *; try lia; reflexivity. }
  rewrite Hfind, Hom.
  apply Nat.ltb_lt in Hlen. rewrite Hlen. simpl.
  repeat split.
  intros a info Hin.
  destruct (concat_contains ", " _ _ (listAppIds_complete _ _ _ Hin))
    as (pre & post & E).
  exists ("Multiple apps connected. Specify --app. Available: " ++ pre)%string, post.
  unfold ambiguous_error, join. rewrite E. now rewrite append_assoc.
Qed.

Lemma C6_ambiguous_target_witness :
  let s := Scenario.two_apps in
  let s' := message 2 (Parsed (Scenario.request_frame "7" "echo" None)) s in
  outbox s' =
    outbox s ++ [(2, SMsg (response_err "7"
       "Multiple apps connected. Specify --app. Available: com.a, com.b"))] /\
  pendingRequests s' = pendingRequests s.
Proof.
  pose proof (C6_ambiguous_target Scenario.two_apps 2
                (Scenario.request_frame "7" "echo" None)
                (id := "7"%string) (type := "echo"%string)
                eq_refl eq_refl eq_refl ltac:(discriminate)
                eq_refl ltac:(discriminate) eq_refl eq_refl
                ltac:(simpl; lia)) as (Hout & Hpend & _).
  split; [exact Hout | exact Hpend].
Defined.

(** C6 as stated fails: with two applications registered, a [ping] request
    from a client without a target is answered [ok: true] by the relay
    itself. *)
Lemma C6_counterexample :
  let s := Scenario.two_apps in
  let msg := Scenario.request_frame "7" "ping" None in
  let s' := message 2 (Parsed msg) s in
  appId (ws_data s 2) = None /\
  List.length (apps s) = 2 /\
  f_id msg = Some "7"%string /\ f_type msg = Some "ping"%string /\
  outbox s' = outbox s ++ [(2, SMsg (response_ok "7" (JObj [])))].
Proof. vm_compute. repeat split. Qed.

(** C7: after an application registers with a list of handler schemas, the
    answer to [list-handlers] (unfiltered, or filtered to that application's
    id) holds, for that application's socket, an entry with its appId and
    exactly that list. *)
Theorem C7_handlers_round_trip (s : State) (app cli : ws) (reg req : Frame)
        (a id : string) (schemas : list json) :
  is_register reg = true ->
  f_appId reg = Some a ->
  f_handlers reg = Some (JArr schemas) ->
  is_register req = false ->
  is_response req = false ->
  f_id req = Some id -> id <> ""%string ->
  f_type req = Some "list-handlers"%string ->
  (truthy (field "appId" (f_payload req)) = false \/
   field "appId" (f_payload req) = Some (JStr a)) ->
  let s1 := message app (Parsed reg) s in
  let s2 := message cli (Parsed req) s1 in
  exists conn kept,
    map_get Nat.eqb app (apps s1) = Some conn /\
    conn_appId conn = a /\
    handlers conn = Some (JArr schemas) /\
    In (app, conn) kept /\
    handlers_entry conn =
      JObj [("appId"%string, JStr a); ("handlers"%string, JArr schemas)] /\
    outbox s2 =
      outbox s1
        ++ [(cli, SMsg (response_ok id
                          (JArr (map (fun e => handlers_entry (snd e)) kept))))].
Proof.
  intros Hreg Ha Hh Hnreg Hnres Hid Hne Hty Hfilter. cbv zeta.
  assert (Hs1 : message app (Parsed reg) s = register app reg a s).
  { unfold message. now rewrite Hreg, Ha. }
  rewrite Hs1.
  set (conn := mkAppConnection a (now s) (Some (JArr schemas))).
  assert (Happs : apps (register app reg a s) = map_set Nat.eqb app conn (apps s)).
  { unfold register. simpl. rewrite Hh. reflexivity. }
  rewrite (message_request cli req _ Hnreg Hnres Hid Hne Hty ltac:(discriminate)).
  unfold route_request, handleServerCommand. simpl serverHandlers. cbv iota beta.
  set (payload := match f_payload req with
                  | None | Some JNull => JObj []
                  | Some p => p
                  end).
  assert (Hpayload : field "appId" (Some payload) = field "appId" (f_payload req)).
  { unfold payload. destruct (f_payload req) as [[]|]; reflexivity. }
  exists conn.
  exists (filter (fun e => negb (skipped (field "appId" (Some payload)) (snd e)))
                 (apps (register app reg a s))).
  split; [rewrite Happs; apply (map_get_set_eq Nat.eqb_eq)|].
  split; [reflexivity|]. split; [reflexivity|]. split.
  - apply filter_In. split.
    + rewrite Happs. apply (map_get_In Nat.eqb_eq).
      apply (map_get_set_eq Nat.eqb_eq).
    + rewrite Hpayload. unfold skipped. simpl.
      destruct Hfilter as [Hf | Hf]; rewrite Hf; simpl.
      * reflexivity.
      * rewrite String.eqb_refl. simpl. now rewrite andb_false_r.
  - split; reflexivity.
Qed.

Lemma C7_handlers_round_trip_witness :
  let schemas := [JObj [("type"%string, JStr "get-state")]] in
  let s1 := message 1 (Parsed (Scenario.register_frame "com.a" (Some (JArr schemas))))
                    Scenario.boot in
  let s2 := message 2 (Parsed (Scenario.request_frame "5" "list-handlers" None)) s1 in
  exists conn kept,
    map_get Nat.eqb 1 (apps s1) = Some conn /\
    conn_appId conn = "com.a"%string /\
    handlers conn = Some (JArr schemas) /\
    In (1, conn) kept /\
    handlers_entry conn =
      JObj [("appId"%string, JStr "com.a"); ("handlers"%string, JArr schemas)] /\
    outbox s2 =
      outbox s1
        ++ [(2, SMsg (response_ok "5"
                        (JArr (map (fun e => handlers_entry (snd e)) kept))))].
Proof.
  apply (C7_handlers_round_trip Scenario.boot 1 2
           (Scenario.register_frame "com.a"
              (Some (JArr [JObj [("type"%string, JStr "get-state")]])))
           (Scenario.request_frame "5" "list-handlers" None)
           (a := "com.a"%string) (id := "5"%string));
    try reflexivity; try discriminate.
  left. reflexivity.
Defined.

(** *** The representation invariant holds in every reachable state *)

Lemma wf_same (s s' : State) :
  pendingRequests s' = pendingRequests s ->
  timers s' = timers s ->
  next_timer s' = next_timer s ->
  wf s -> wf s'.
Proof.
  intros Hp Ht Hn [H1 H2 H3 H4].
  constructor; rewrite ?Hp, ?Ht, ?Hn; assumption.
Qed.

Lemma wf_clearTimeout (h : nat) (s : State) : wf s -> wf (clearTimeout h s).
Proof.
  intros [H1 H2 H3 H4]. constructor; simpl; try assumption.
  - now apply NoDup_keys_delete.
  - intros h' t Hin. apply (In_map_delete Nat.eqb_eq) in Hin. apply (H3 h' t), Hin.
Qed.

Lemma wf_delete_pending (id : string) (s : State) :
  wf s -> wf (with_pending (map_delete String.eqb id (pendingRequests s)) s).
Proof.
  intros [H1 H2 H3 H4]. constructor; simpl; try assumption.
  - now apply NoDup_keys_delete.
  - intros id' p Hin. apply (In_map_delete String.eqb_eq) in Hin.
    apply (H4 id' p), Hin.
Qed.

Lemma wf_send (w : ws) (f : Frame) (s : State) : wf s -> wf (send w f s).
Proof. now apply wf_same. Qed.

Lemma wf_ws_send (w : ws) (m : Sent) (s : State) : wf s -> wf (ws_send w m s).
Proof. now apply wf_same. Qed.

Lemma wf_broadcast (d : Dir) (a : option string) (f : Frame) (s : State) :
  wf s -> wf (broadcast d a f s).
Proof. now apply wf_same. Qed.

Lemma wf_fail_pending (w : ws) (entries : list (string * PendingRequest)) (s : State) :
  wf s -> wf (fail_pending w entries s).
Proof.
  revert s. induction entries as [|[id p] rest IH]; intros s Hwf; simpl; [assumption|].
  destruct (appSocket p =? w); [|now apply IH].
  apply IH.
  apply (wf_delete_pending id
           (s := send (cliSocket p) (response_err id "App disconnected")
                      (clearTimeout (timer p) s))).
  now apply wf_send, wf_clearTimeout.
Qed.

Lemma wf_cleanupApp (w : ws) (s : State) : wf s -> wf (cleanupApp w s).
Proof.
  intros Hwf. unfold cleanupApp. destruct (map_get Nat.eqb w (apps s)); [|assumption].
  apply wf_fail_pending. apply wf_broadcast. now apply (wf_same (s := s)).
Qed.

Lemma keys_app {K V : Type} (l1 l2 : list (K * V)) : keys (l1 ++ l2) = keys l1 ++ keys l2.
Proof. apply map_app. Qed.

Lemma NoDup_snoc {A : Type} (l : list A) (x : A) :
  NoDup l -> ~ In x l -> NoDup (l ++ [x]).
Proof.
  intros Hnd Hnin. induction Hnd as [|y l Hy Hnd IH]; simpl.
  - constructor; [tauto | constructor].
  - constructor.
    + intro Hin. apply in_app_or in Hin. destruct Hin as [Hin | [-> | []]].
      * contradiction.
      * apply Hnin. now left.
    + apply IH. intro Hin. apply Hnin. now right.
Qed.

Lemma wf_forward (w a : ws) (id : string) (s : State) :
  wf s ->
  wf (with_pending
        (map_set String.eqb id (mkPending w a (next_timer s))
                 (pendingRequests (snd (setTimeout REQUEST_TIMEOUT id w s))))
        (snd (setTimeout REQUEST_TIMEOUT id w s))).
Proof.
  intros [H1 H2 H3 H4]. constructor; simpl.
  - now apply (NoDup_keys_set String.eqb_eq).
  - rewrite keys_app. simpl. apply NoDup_snoc; [assumption|].
    intro Hin. apply in_map_iff in Hin. destruct Hin as [[h t] [Hk Hin]].
    simpl in Hk. subst. apply H3 in Hin. lia.
  - intros h t Hin. apply in_app_or in Hin. destruct Hin as [Hin | [Hin | []]].
    + apply H3 in Hin. lia.
    + injection Hin as <- _. lia.
  - intros id' p Hin. apply In_map_set in Hin. destruct Hin as [Hin | Hin].
    + injection Hin as _ ->. simpl. lia.
    + apply H4 in Hin. lia.
Qed.

Lemma wf_route_request (w : ws) (msg : Frame) (id type : string) (s : State) :
  wf s -> wf (route_request w msg id type s).
Proof.
  intros Hwf. unfold route_request, handleServerCommand.
  destruct (serverHandlers type); [now apply wf_send|].
  destruct (findAppSocket (apps s) (appId (ws_data s w))) as [a|].
  - simpl. apply wf_ws_send, wf_broadcast. now apply (wf_forward w a id).
  - destruct (negb _ && _); now apply wf_send.
Qed.

Lemma wf_route_response (msg : Frame) (id : string) (s : State) :
  wf s -> wf (route_response msg id s).
Proof.
  intros Hwf. unfold route_response.
  destruct (map_get String.eqb id (pendingRequests s)) as [p|]; [|assumption].
  apply (wf_delete_pending id
           (s := ws_send (cliSocket p) (SMsg msg)
              (broadcast DirRes
                 (option_map conn_appId
                    (map_get Nat.eqb (appSocket p) (apps (clearTimeout (timer p) s))))
                 msg (clearTimeout (timer p) s)))).
  now apply wf_ws_send, wf_broadcast, wf_clearTimeout.
Qed.

Lemma wf_message (w : ws) (raw : Raw) (s : State) : wf s -> wf (message w raw s).
Proof.
  intros Hwf. destruct raw as [|msg]; [assumption|]. unfold message.
  destruct (is_register msg).
  - destruct (f_appId msg); [|assumption]. unfold register.
    apply wf_broadcast. now apply (wf_same (s := s)).
  - destruct (is_response msg).
    + destruct (f_id msg); [now apply wf_route_response | assumption].
    + destruct (truthy_str (f_id msg) && truthy_str (f_type msg)); [|assumption].
      destruct (f_id msg); [|assumption].
      destruct (f_type msg); [now apply wf_route_request | assumption].
Qed.

Lemma wf_fire (h : nat) (s : State) : wf s -> wf (fire h s).
Proof.
  intros Hwf. unfold fire. destruct (map_get Nat.eqb h (timers s)) as [t|]; [|assumption].
  apply wf_send.
  apply (wf_delete_pending (t_id t)
           (s := with_timers (map_delete Nat.eqb h (timers s)) (next_timer s) s)).
  now apply (wf_clearTimeout h).
Qed.

Lemma fold_fire_preserves (P : State -> Prop) (Q : nat -> Prop) :
  (forall h s, Q h -> P s -> P (fire h s)) ->
  forall (l : list (nat * Timer)) (s : State),
    Forall (fun e => Q (fst e)) l -> P s ->
    P (fold_left (fun acc e => fire (fst e) acc) l s).
Proof.
  intros Hstep l. induction l as [|e l IH]; intros s Hall Hs; simpl; [assumption|].
  inversion Hall; subst. apply IH; [assumption|]. now apply Hstep.
Qed.

Lemma wf_elapse (t : Z) (s : State) : wf s -> wf (elapse t s).
Proof.
  intros Hwf. unfold elapse.
  apply (wf_same (s := fold_left (fun acc e => fire (fst e) acc)
                         (filter (fun e => (due (snd e) <=? t)%Z) (timers s)) s));
    try reflexivity.
  apply (fold_fire_preserves wf (fun _ => True)).
  - intros h s0 _. apply wf_fire.
  - apply Forall_forall. trivial.
  - assumption.
Qed.

Lemma wf_step (s : State) (e : Event) : wf s -> wf (step s e).
Proof.
  intros Hwf. destruct e as [w r a | w raw | w | t]; simpl.
  - unfold open. destruct (role _); try now apply (wf_same (s := s)).
  - now apply wf_message.
  - unfold close. destruct (role _).
    + now apply wf_cleanupApp.
    + assumption.
    + now apply (wf_same (s := s)).
  - now apply wf_elapse.
Qed.

Lemma wf_run (es : list Event) (s : State) : wf s -> wf (run s es).
Proof.
  revert s. induction es as [|e es IH]; intros s Hwf; simpl; [assumption|].
  apply IH. now apply wf_step.
Qed.

Lemma wf_init (port pid start : Z) : wf (init port pid start).
Proof. constructor; simpl; try constructor; intros ? ? []. Qed.

Lemma wf_reachable (port pid start : Z) (hist : list Event) :
  wf (run (init port pid start) hist).
Proof. apply wf_run, wf_init. Qed.

(** *** An application goes away *)

Lemma filter_filter {A : Type} (p q : A -> bool) (l : list A) :
  filter p (filter q l) = filter (fun x => q x && p x) l.
Proof.
  induction l as [|x l IH]; simpl; [reflexivity|].
  destruct (q x); simpl; [destruct (p x)|]; now rewrite IH.
Qed.

Lemma same_key_same_entry {K V : Type} (l : list (K * V)) (e g : K * V) :
  NoDup (keys l) -> In e l -> In g l -> fst e = fst g -> e = g.
Proof.
  induction l as [|x l IH]; simpl; [tauto|].
  intros Hnd He Hg Hk. inversion Hnd as [|? ? Hnotin Hnd']; subst.
  destruct He as [-> | He], Hg as [-> | Hg]; try reflexivity.
  - exfalso. apply Hnotin. rewrite Hk. now apply in_map.
  - exfalso. apply Hnotin. rewrite <- Hk. now apply in_map.
  - now apply IH.
Qed.

(** What the loop of [cleanupApp] does, for any list of entries. *)
Lemma fail_pending_effect (w : ws) (entries : list (string * PendingRequest)) (s : State) :
  let gone := routed_to w entries in
  let s' := fail_pending w entries s in
  pendingRequests s' =
    filter (fun e => negb (existsb (fun g => String.eqb (fst e) (fst g)) gone))
           (pendingRequests s) /\
  timers s' =
    filter (fun t => negb (existsb (fun g => fst t =? timer (snd g)) gone))
           (timers s) /\
  outbox s' =
    outbox s ++ map (fun g => (cliSocket (snd g),
                               SMsg (response_err (fst g) "App disconnected"))) gone /\
  apps s' = apps s /\ watchers s' = watchers s /\ data s' = data s /\
  next_timer s' = next_timer s /\ now s' = now s.
Proof.
  revert s. induction entries as [|[id p] rest IH]; intros s; simpl.
  - repeat split.
    + symmetry. apply forallb_filter_id. apply forallb_forall. reflexivity.
    + symmetry. apply forallb_filter_id. apply forallb_forall. reflexivity.
    + now rewrite app_nil_r.
  - unfold routed_to. simpl. destruct (appSocket p =? w) eqn:E.
    + match goal with
      | |- context [fail_pending w rest ?s3] =>
          destruct (IH s3) as (Hp & Ht & Ho & Ha & Hw & Hd & Hn & Hnow)
      end.
      rewrite Hp, Ht, Ho, Ha, Hw, Hd, Hn, Hnow. simpl.
      unfold map_delete. rewrite !filter_filter.
      repeat split.
      * apply filter_ext. intros e. now rewrite negb_orb.
      * apply filter_ext. intros e. now rewrite negb_orb.
      * now rewrite <- app_assoc.
    + apply IH.
Qed.

(** C4: when a registered application's socket closes, the pending
    correlations routed to it are removed, their timers are cleared, and
    the client of each is sent [ok: false] with the error
    "App disconnected"; the correlations routed elsewhere and their timers
    stay as they were. *)
Theorem C4_app_disconnect (port pid start : Z) (hist : list Event) (w : ws)
        (info : AppConnection) :
  let s := run (init port pid start) hist in
  role (ws_data s w) = RoleApp ->
  map_get Nat.eqb w (apps s) = Some info ->
  let s' := close w s in
  let gone := routed_to w (pendingRequests s) in
  pendingRequests s' =
    filter (fun e => negb (appSocket (snd e) =? w)) (pendingRequests s) /\
  timers s' =
    filter (fun t => negb (existsb (fun g => fst t =? timer (snd g)) gone))
           (timers s) /\
  outbox s' =
    outbox s
      ++ map (fun o => (o, SBroadcast DirReq (Some (conn_appId info))
                             (disconnect_notice (conn_appId info)))) (watchers s)
      ++ map (fun g => (cliSocket (snd g),
                        SMsg (response_err (fst g) "App disconnected"))) gone.
Proof.
  intros s Hrole Hget s' gone.
  assert (Hwf : wf s) by apply wf_reachable.
  subst s'. unfold close. rewrite Hrole. unfold cleanupApp. rewrite Hget.
  match goal with
  | |- context [fail_pending w ?l ?s2] =>
      destruct (fail_pending_effect w l s2) as (Hp & Ht & Ho & _)
  end.
  rewrite Hp, Ht, Ho. simpl. fold gone. repeat split.
  - apply filter_ext_in. intros e He. f_equal.
    destruct (appSocket (snd e) =? w) eqn:E.
    + apply existsb_exists. exists e. split.
      * apply filter_In. now split.
      * apply String.eqb_refl.
    + destruct (existsb _ gone) eqn:Ex; [|reflexivity].
      apply existsb_exists in Ex. destruct Ex as (g & Hg & Hk).
      apply filter_In in Hg. destruct Hg as [Hg Hw].
      apply String.eqb_eq in Hk.
      rewrite (same_key_same_entry _ e g (wf_pending_keys Hwf) He Hg Hk) in E.
      congruence.
  - now rewrite <- app_assoc.
Qed.

Lemma C4_app_disconnect_witness :
  let s := Scenario.one_in_flight in
  let s' := close 1 s in
  pendingRequests s' = [] /\
  timers s' = [] /\
  outbox s' = outbox s ++ [(2, SMsg (response_err "1" "App disconnected"))].
Proof.
  pose proof (C4_app_disconnect 8675 4242 0
                [Connect 1 None None;
                 Message 1 (Parsed (Scenario.register_frame "com.a" None));
                 Connect 2 None None;
                 Message 2 (Parsed (Scenario.request_frame "1" "echo" None))]
                1 (info := mkAppConnection "com.a" 0 None) eq_refl eq_refl)
    as (Hp & Ht & Ho).
  split; [exact Hp | split; [exact Ht | exact Ho]].
Defined.

(** *** What each branch does to the state *)

Lemma route_request_forward (w a : ws) (msg : Frame) (id type : string) (s : State) :
  serverHandlers type = None ->
  findAppSocket (apps s) (appId (ws_data s w)) = Some a ->
  let s' := route_request w msg id type s in
  apps s' = apps s /\ watchers s' = watchers s /\ data s' = data s /\
  now s' = now s /\ next_timer s' = S (next_timer s) /\
  timers s' =
    timers s ++ [(next_timer s, mkTimer (now s + REQUEST_TIMEOUT) id w)] /\
  pendingRequests s' =
    map_set String.eqb id (mkPending w a (next_timer s)) (pendingRequests s) /\
  outbox s' =
    outbox s
      ++ map (fun o => (o, SBroadcast DirReq
                             (option_map conn_appId (map_get Nat.eqb a (apps s)))
                             (forwarded id type (f_payload msg)))) (watchers s)
      ++ [(a, SMsg (forwarded id type (f_payload msg)))].
Proof.
  intros Hown Hfind. unfold route_request, handleServerCommand.
  rewrite Hown, Hfind. simpl. repeat split. now rewrite <- app_assoc.
Qed.

Lemma fire_armed (h : nat) (t : Timer) (s : State) :
  map_get Nat.eqb h (timers s) = Some t ->
  let s' := fire h s in
  apps s' = apps s /\ watchers s' = watchers s /\ data s' = data s /\
  now s' = now s /\ next_timer s' = next_timer s /\
  timers s' = map_delete Nat.eqb h (timers s) /\
  pendingRequests s' = map_delete String.eqb (t_id t) (pendingRequests s) /\
  outbox s' = outbox s ++ [(t_ws t, SMsg (timeout_response (t_id t)))].
Proof. intros Hget. unfold fire. rewrite Hget. simpl. repeat split. Qed.

Lemma fire_unarmed (h : nat) (s : State) :
  map_get Nat.eqb h (timers s) = None -> fire h s = s.
Proof. intros Hget. unfold fire. now rewrite Hget. Qed.

Lemma map_get_notin {K V : Type} (eqb : K -> K -> bool)
      (eqb_eq : forall a b, eqb a b = true <-> a = b) (k : K) (m : list (K * V)) :
  ~ In k (keys m) -> map_get eqb k m = None.
Proof.
  induction m as [|[k0 v0] rest IH]; simpl; [reflexivity|].
  intros Hnin. destruct (eqb k0 k) eqn:E.
  - apply eqb_eq in E. subst. exfalso. apply Hnin. now left.
  - apply IH. intro Hin. apply Hnin. now right.
Qed.

Lemma map_get_snoc_fresh {K V : Type} (eqb : K -> K -> bool)
      (eqb_eq : forall a b, eqb a b = true <-> a = b) (k : K) (v : V) (m : list (K * V)) :
  map_get eqb k m = None -> map_get eqb k (m ++ [(k, v)]) = Some v.
Proof.
  induction m as [|[k0 v0] rest IH]; simpl.
  - intros _. now rewrite (proj2 (eqb_eq k k) eq_refl).
  - destruct (eqb k0 k); [discriminate | exact IH].
Qed.

Lemma map_get_snoc_other {K V : Type} (eqb : K -> K -> bool)
      (eqb_eq : forall a b, eqb a b = true <-> a = b) (k k' : K) (v : V)
      (m : list (K * V)) :
  k <> k' -> map_get eqb k' (m ++ [(k, v)]) = map_get eqb k' m.
Proof.
  intros Hne. induction m as [|[k0 v0] rest IH]; simpl.
  - now rewrite (eqb_neq eqb_eq Hne).
  - destruct (eqb k0 k'); [reflexivity | exact IH].
Qed.

Lemma map_get_filter {K V : Type} (eqb : K -> K -> bool)
      (eqb_eq : forall a b, eqb a b = true <-> a = b) (p : K * V -> bool) (k : K)
      (m : list (K * V)) :
  (forall v, In (k, v) m -> p (k, v) = true) ->
  map_get eqb k (filter p m) = map_get eqb k m.
Proof.
  induction m as [|[k0 v0] rest IH]; simpl; [reflexivity|].
  intros Hp. destruct (eqb k0 k) eqn:E.
  - apply eqb_eq in E. subst k0. rewrite (Hp v0) by now left.
    simpl. now rewrite (proj2 (eqb_eq k k) eq_refl).
  - destruct (p (k0, v0)); simpl; [rewrite E|]; apply IH; intros v Hin; apply Hp; now right.
Qed.

Lemma timer_handle_fresh (s : State) :
  wf s -> map_get Nat.eqb (next_timer s) (timers s) = None.
Proof.
  intros Hwf. apply (map_get_notin Nat.eqb Nat.eqb_eq).
  intro Hin. apply in_map_iff in Hin. destruct Hin as [[h t] [Hk Hin]].
  simpl in Hk. subst. apply (wf_timer_lt Hwf) in Hin. lia.
Qed.

(** *** The outbox since a mark *)

Lemma since_app (n : nat) (out extra : list (ws * Sent)) :
  n <= List.length out -> skipn n (out ++ extra) = skipn n out ++ extra.
Proof.
  intros Hle. rewrite skipn_app.
  replace (n - List.length out) with 0 by lia. reflexivity.
Qed.

Lemma since_all (out : list (ws * Sent)) : skipn (List.length out) out = [].
Proof. apply skipn_all. Qed.

Lemma filter_map_none {A B : Type} (p : B -> bool) (f : A -> B) (l : list A) :
  (forall x, In x l -> p (f x) = false) -> filter p (map f l) = [].
Proof.
  induction l as [|x l IH]; simpl; [reflexivity|].
  intros H. rewrite (H x) by now left. apply IH. intros y Hy. apply H. now right.
Qed.

(** *** A request in flight, and its timeout *)

Section InFlight.
Variables (rid : string) (c a : ws) (h : nat) (deadline : Z) (n : nat).

Lemma in_flight_change (s s' : State) :
  in_flight rid c a h deadline n s ->
  wf s' ->
  map_get String.eqb rid (pendingRequests s') =
    map_get String.eqb rid (pendingRequests s) ->
  map_get Nat.eqb h (timers s') = map_get Nat.eqb h (timers s) ->
  (forall h' t', In (h', t') (timers s') ->
                 In (h', t') (timers s) \/ t_id t' <> rid) ->
  (forall id p, In (id, p) (pendingRequests s') ->
                In (id, p) (pendingRequests s) \/ timer p <> h) ->
  (exists extra, outbox s' = outbox s ++ extra /\
                 filter (mentions rid) extra = []) ->
  in_flight rid c a h deadline n s'.
Proof.
  intros [Hwf Hp Ht Honly Hhandle Hsilent Hlen] Hwf' Hp' Ht' Htimers Hpending
         (extra & Hout & Hextra).
  constructor.
  - assumption.
  - now rewrite Hp'.
  - now rewrite Ht'.
  - intros h' t' Hin Hid. destruct (Htimers h' t' Hin) as [Hold | Hne].
    + now apply (Honly h' t').
    + contradiction.
  - intros id p Hin Htm. destruct (Hpending id p Hin) as [Hold | Hne].
    + now apply (Hhandle id p).
    + contradiction.
  - unfold since. rewrite Hout, since_app by assumption.
    rewrite filter_app. unfold since in Hsilent. now rewrite Hsilent, Hextra.
  - rewrite Hout, length_app. lia.
Qed.

(** A step that touches neither table nor the outbox. *)
Lemma in_flight_untouched (s s' : State) :
  in_flight rid c a h deadline n s ->
  pendingRequests s' = pendingRequests s ->
  timers s' = timers s ->
  next_timer s' = next_timer s ->
  outbox s' = outbox s ->
  in_flight rid c a h deadline n s'.
Proof.
  intros Hfl Hp Ht Hn Ho.
  apply (in_flight_change Hfl).
  - apply (@wf_same s s' Hp Ht Hn), Hfl.
  - now rewrite Hp.
  - now rewrite Ht.
  - intros h' t' Hin. left. now rewrite <- Ht.
  - intros id p Hin. left. now rewrite <- Hp.
  - exists []. split; [now rewrite app_nil_r | reflexivity].
Qed.

Lemma in_flight_handle_lt (s : State) :
  in_flight rid c a h deadline n s -> h < next_timer s.
Proof.
  intros Hfl. apply (wf_timer_lt (fl_wf Hfl) h (mkTimer deadline rid c)).
  apply (map_get_In Nat.eqb_eq), Hfl.
Qed.

Lemma mentions_other_msg (w : ws) (f : Frame) (id : string) :
  f_id f = Some id -> id <> rid -> mentions rid (w, SMsg f) = false.
Proof.
  intros Hid Hne. unfold mentions. simpl. rewrite Hid. simpl.
  now apply String.eqb_neq.
Qed.

Lemma mentions_other_broadcast (w : ws) (d : Dir) (ap : option string) (f : Frame)
      (id : string) :
  f_id f = Some id -> id <> rid -> mentions rid (w, SBroadcast d ap f) = false.
Proof.
  intros Hid Hne. unfold mentions. simpl. rewrite Hid. simpl.
  now apply String.eqb_neq.
Qed.

Lemma in_flight_register (w : ws) (msg : Frame) (a0 : string) (s : State) :
  in_flight rid c a h deadline n s ->
  in_flight rid c a h deadline n (register w msg a0 s).
Proof.
  intros Hfl. apply (in_flight_change Hfl).
  - unfold register. apply wf_broadcast.
    apply (wf_same (s := s)); try reflexivity. apply Hfl.
  - reflexivity.
  - reflexivity.
  - intros h' t' Hin. now left.
  - intros id p Hin. now left.
  - eexists. split; [reflexivity|].
    apply filter_map_none. reflexivity.
Qed.

Lemma in_flight_route_response (msg : Frame) (id : string) (s : State) :
  f_id msg = Some id -> id <> rid ->
  in_flight rid c a h deadline n s ->
  in_flight rid c a h deadline n (route_response msg id s).
Proof.
  intros Hid Hne Hfl. unfold route_response.
  destruct (map_get String.eqb id (pendingRequests s)) as [p|] eqn:Hget; [|assumption].
  assert (Htimer : timer p <> h).
  { intro Heq. apply Hne. apply (fl_handle Hfl id p); [|assumption].
    now apply (map_get_In String.eqb_eq). }
  eapply (in_flight_change Hfl).
  - pose proof (wf_route_response msg id (fl_wf Hfl)) as Hwf.
    unfold route_response in Hwf. rewrite Hget in Hwf. exact Hwf.
  - simpl. now apply (map_get_delete_neq String.eqb_eq).
  - simpl. now apply (map_get_delete_neq Nat.eqb_eq).
  - simpl. intros h' t' Hin. left. now apply (In_map_delete Nat.eqb_eq) in Hin.
  - simpl. intros id' p' Hin. left. now apply (In_map_delete String.eqb_eq) in Hin.
  - simpl. eexists. split; [now rewrite <- app_assoc|].
    rewrite filter_app. simpl.
    rewrite (mentions_other_msg _ msg Hid Hne).
    rewrite filter_map_none; [reflexivity|].
    intros o _. now apply (mentions_other_broadcast _ _ _ msg Hid).
Qed.

Lemma in_flight_route_request (w : ws) (msg : Frame) (id type : string) (s : State) :
  id <> rid ->
  in_flight rid c a h deadline n s ->
  in_flight rid c a h deadline n (route_request w msg id type s).
Proof.
  intros Hne Hfl.
  pose proof (wf_route_request w msg id type (fl_wf Hfl)) as Hwf.
  destruct (serverHandlers type) as [handler|] eqn:Hown.
  - revert Hwf. unfold route_request, handleServerCommand. rewrite Hown. intros Hwf.
    apply (in_flight_change Hfl Hwf); try reflexivity.
    + intros h' t' Hin. now left.
    + intros id' p Hin. now left.
    + eexists. split; [reflexivity|]. simpl.
      now rewrite (mentions_other_msg w (response_ok id _) eq_refl Hne).
  - destruct (findAppSocket (apps s) (appId (ws_data s w))) as [a'|] eqn:Hfind.
    + destruct (route_request_forward w msg id type s Hown Hfind)
        as (_ & _ & _ & _ & _ & Ht & Hp & Ho).
      pose proof (in_flight_handle_lt Hfl) as Hlt.
      apply (in_flight_change Hfl Hwf).
      * rewrite Hp. now apply (map_get_set_neq String.eqb_eq).
      * rewrite Ht. apply (map_get_snoc_other Nat.eqb Nat.eqb_eq). lia.
      * rewrite Ht. intros h' t' Hin. apply in_app_or in Hin.
        destruct Hin as [Hin | [Hin | []]]; [now left|].
        right. injection Hin as _ <-. exact Hne.
      * rewrite Hp. intros id' p Hin. apply In_map_set in Hin.
        destruct Hin as [Hin | Hin]; [|now left].
        right. injection Hin as _ ->. simpl. lia.
      * eexists. split; [exact Ho|].
        rewrite filter_app. simpl.
        rewrite (mentions_other_msg a' (forwarded id type _) eq_refl Hne).
        rewrite filter_map_none; [reflexivity|].
        intros o _.
        now apply (mentions_other_broadcast _ _ _ (forwarded id type _) eq_refl).
    + revert Hwf. unfold route_request, handleServerCommand. rewrite Hown, Hfind.
      destruct (negb _ && _); intros Hwf.
      * apply (in_flight_change Hfl Hwf); try reflexivity.
        -- intros h' t' Hin. now left.
        -- intros id' p Hin. now left.
        -- eexists. split; [reflexivity|]. simpl.
           now rewrite (mentions_other_msg w (response_err id _) eq_refl Hne).
      * apply (in_flight_change Hfl Hwf); try reflexivity.
        -- intros h' t' Hin. now left.
        -- intros id' p Hin. now left.
        -- eexists. split; [reflexivity|]. simpl.
           now rewrite (mentions_other_msg w (response_err id _) eq_refl Hne).
Qed.

Lemma in_flight_message (w : ws) (raw : Raw) (s : State) :
  quiet rid a deadline (Message w raw) ->
  in_flight rid c a h deadline n s ->
  in_flight rid c a h deadline n (message w raw s).
Proof.
  intros Hq Hfl. destruct raw as [|msg]; [assumption|]. simpl in Hq.
  unfold message. destruct (is_register msg).
  - destruct (f_appId msg); [now apply in_flight_register | assumption].
  - destruct (is_response msg).
    + destruct (f_id msg) as [id|] eqn:Hid; [|assumption].
      apply in_flight_route_response; try assumption. congruence.
    + destruct (truthy_str (f_id msg) && truthy_str (f_type msg)); [|assumption].
      destruct (f_id msg) as [id|] eqn:Hid; [|assumption].
      destruct (f_type msg); [|assumption].
      apply in_flight_route_request; [congruence | assumption].
Qed.


Lemma routed_elsewhere (w : ws) (s : State) (g : string * PendingRequest) :
  w <> a ->
  in_flight rid c a h deadline n s ->
  In g (routed_to w (pendingRequests s)) ->
  fst g <> rid.
Proof.
  intros Hne Hfl Hin Heq. apply filter_In in Hin. destruct Hin as [Hin Hw].
  assert (Hours : In (rid, mkPending c a h) (pendingRequests s)).
  { apply (map_get_In String.eqb_eq), Hfl. }
  rewrite (same_key_same_entry _ g (rid, mkPending c a h)
             (wf_pending_keys (fl_wf Hfl)) Hin Hours Heq) in Hw.
  simpl in Hw. apply Nat.eqb_eq in Hw. congruence.
Qed.

Lemma in_flight_cleanupApp (w : ws) (s : State) :
  w <> a ->
  in_flight rid c a h deadline n s ->
  in_flight rid c a h deadline n (cleanupApp w s).
Proof.
  intros Hne Hfl.
  pose proof (wf_cleanupApp w (fl_wf Hfl)) as Hwf. revert Hwf.
  unfold cleanupApp.
  destruct (map_get Nat.eqb w (apps s)) as [info|]; [|intros _; assumption].
  match goal with
  | |- context [fail_pending w ?l ?s2] =>
      destruct (fail_pending_effect w l s2) as (Hp & Ht & Ho & _)
  end.
  simpl in Hp, Ht, Ho |- *. intros Hwf.
  apply (in_flight_change Hfl Hwf).
  - rewrite Hp. apply (map_get_filter String.eqb String.eqb_eq).
    intros v Hin. apply negb_true_iff.
    destruct (existsb _ _) eqn:Ex; [|reflexivity].
    apply existsb_exists in Ex. destruct Ex as (g & Hg & Hk).
    simpl in Hk. apply String.eqb_eq in Hk.
    exfalso. eapply routed_elsewhere; [exact Hne | exact Hfl | exact Hg | now symmetry].
  - rewrite Ht. apply (map_get_filter Nat.eqb Nat.eqb_eq).
    intros v Hin. apply negb_true_iff.
    destruct (existsb _ _) eqn:Ex; [|reflexivity].
    apply existsb_exists in Ex. destruct Ex as ([id p] & Hg & Hk).
    simpl in Hk. apply Nat.eqb_eq in Hk.
    exfalso. eapply routed_elsewhere; [exact Hne | exact Hfl | exact Hg |]. simpl.
    apply (fl_handle Hfl id p); [|now symmetry].
    apply filter_In in Hg. apply Hg.
  - rewrite Ht. intros h' t' Hin. left. apply filter_In in Hin. apply Hin.
  - rewrite Hp. intros id p Hin. left. apply filter_In in Hin. apply Hin.
  - eexists. split; [rewrite Ho; rewrite <- app_assoc; reflexivity|].
    rewrite filter_app.
    rewrite filter_map_none by reflexivity.
    rewrite filter_map_none; [reflexivity|].
    intros g Hg. apply (mentions_other_msg _ (response_err (fst g) _) eq_refl).
    eapply routed_elsewhere; [exact Hne | exact Hfl | exact Hg].
Qed.

Lemma in_flight_fire (h' : nat) (s : State) :
  h' <> h ->
  in_flight rid c a h deadline n s ->
  in_flight rid c a h deadline n (fire h' s).
Proof.
  intros Hne Hfl.
  destruct (map_get Nat.eqb h' (timers s)) as [t'|] eqn:Hget.
  - destruct (fire_armed h' s Hget) as (_ & _ & _ & _ & _ & Ht & Hp & Ho).
    assert (Hid : t_id t' <> rid).
    { intro Heq. apply Hne. apply (fl_only Hfl h' t'); [|assumption].
      now apply (map_get_In Nat.eqb_eq). }
    apply (in_flight_change Hfl (wf_fire h' (fl_wf Hfl))).
    + rewrite Hp. now apply (map_get_delete_neq String.eqb_eq).
    + rewrite Ht. now apply (map_get_delete_neq Nat.eqb_eq).
    + rewrite Ht. intros h0 t0 Hin. left.
      now apply (In_map_delete Nat.eqb_eq) in Hin.
    + rewrite Hp. intros id p Hin. left.
      now apply (In_map_delete String.eqb_eq) in Hin.
    + eexists. split; [exact Ho|]. simpl.
      now rewrite (mentions_other_msg _ (timeout_response (t_id t')) eq_refl Hid).
  - now rewrite fire_unarmed.
Qed.

Lemma ready_before_deadline (t : Z) (s : State) :
  (t < deadline)%Z ->
  in_flight rid c a h deadline n s ->
  Forall (fun e => fst e <> h)
         (filter (fun e => (due (snd e) <=? t)%Z) (timers s)).
Proof.
  intros Hlt Hfl. apply Forall_forall. intros e Hin Heq.
  apply filter_In in Hin. destruct Hin as [Hin Hdue].
  assert (Hours : In (h, mkTimer deadline rid c) (timers s)).
  { apply (map_get_In Nat.eqb_eq), Hfl. }
  rewrite (same_key_same_entry _ e (h, mkTimer deadline rid c)
             (wf_timer_keys (fl_wf Hfl)) Hin Hours Heq) in Hdue.
  simpl in Hdue. apply Z.leb_le in Hdue. lia.
Qed.

Lemma in_flight_elapse (t : Z) (s : State) :
  (t < deadline)%Z ->
  in_flight rid c a h deadline n s ->
  in_flight rid c a h deadline n (elapse t s).
Proof.
  intros Hlt Hfl. unfold elapse.
  match goal with
  | |- in_flight _ _ _ _ _ _ (with_now _ ?s1) =>
      apply (@in_flight_untouched s1); try reflexivity
  end.
  apply (fold_fire_preserves (in_flight rid c a h deadline n) (fun h' => h' <> h)).
  - intros h' s0. apply in_flight_fire.
  - now apply ready_before_deadline.
  - assumption.
Qed.

Lemma in_flight_step (e : Event) (s : State) :
  quiet rid a deadline e ->
  in_flight rid c a h deadline n s ->
  in_flight rid c a h deadline n (step s e).
Proof.
  intros Hq Hfl. destruct e as [w r ap | w raw | w | t]; simpl.
  - unfold open. destruct (role _);
      apply (@in_flight_untouched s); try assumption; reflexivity.
  - now apply in_flight_message.
  - unfold close. destruct (role _).
    + now apply in_flight_cleanupApp.
    + assumption.
    + apply (@in_flight_untouched s); try assumption; reflexivity.
  - now apply in_flight_elapse.
Qed.

Lemma in_flight_run (es : list Event) (s : State) :
  Forall (quiet rid a deadline) es ->
  in_flight rid c a h deadline n s ->
  in_flight rid c a h deadline n (run s es).
Proof.
  revert s. induction es as [|e es IH]; intros s Hq Hfl; simpl; [assumption|].
  inversion Hq; subst. apply IH; [assumption|]. now apply in_flight_step.
Qed.

Lemma mentions_timeout (w : ws) : mentions rid (w, SMsg (timeout_response rid)) = true.
Proof. unfold mentions. simpl. apply String.eqb_refl. Qed.

Lemma in_flight_fire_self (s : State) :
  in_flight rid c a h deadline n s -> timed_out rid c n (fire h s).
Proof.
  intros Hfl.
  destruct (fire_armed h s (fl_timer Hfl)) as (_ & _ & _ & _ & _ & Ht & Hp & Ho).
  simpl in Hp, Ho. constructor.
  - apply wf_fire, Hfl.
  - rewrite Hp. apply map_get_delete_eq.
  - rewrite Ht. intros h' t' Hin Hid.
    apply (In_map_delete Nat.eqb_eq) in Hin. destruct Hin as [Hin Hne].
    apply Hne. simpl. now apply (fl_only Hfl h' t').
  - unfold since. rewrite Ho, since_app by apply Hfl.
    rewrite filter_app. pose proof (fl_silent Hfl) as Hs. unfold since in Hs.
    rewrite Hs. simpl. now rewrite mentions_timeout.
  - rewrite Ho, length_app. pose proof (fl_len Hfl). lia.
Qed.

Lemma timed_out_fire (h' : nat) (s : State) :
  timed_out rid c n s -> timed_out rid c n (fire h' s).
Proof.
  intros Hto.
  destruct (map_get Nat.eqb h' (timers s)) as [t'|] eqn:Hget.
  - destruct (fire_armed h' s Hget) as (_ & _ & _ & _ & _ & Ht & Hp & Ho).
    assert (Hid : t_id t' <> rid).
    { apply (to_timers Hto h' t'). now apply (map_get_In Nat.eqb_eq). }
    constructor.
    + apply wf_fire, Hto.
    + rewrite Hp. rewrite (map_get_delete_neq String.eqb_eq) by assumption.
      apply Hto.
    + rewrite Ht. intros h0 t0 Hin.
      apply (In_map_delete Nat.eqb_eq) in Hin. now apply (to_timers Hto h0 t0).
    + unfold since. rewrite Ho, since_app by apply Hto.
      rewrite filter_app. pose proof (to_sent Hto) as Hs. unfold since in Hs.
      rewrite Hs. simpl.
      now rewrite (mentions_other_msg _ (timeout_response (t_id t')) eq_refl Hid).
    + rewrite Ho, length_app. pose proof (to_len Hto). lia.
  - now rewrite fire_unarmed.
Qed.

Lemma in_flight_deadline (s : State) :
  in_flight rid c a h deadline n s -> timed_out rid c n (elapse deadline s).
Proof.
  intros Hfl. unfold elapse.
  set (ready := filter (fun e => (due (snd e) <=? deadline)%Z) (timers s)).
  assert (Hin : In (h, mkTimer deadline rid c) ready).
  { apply filter_In. split.
    - apply (map_get_In Nat.eqb_eq), Hfl.
    - simpl. apply Z.leb_refl. }
  assert (Hnd : NoDup (keys ready)).
  { apply NoDup_keys_filter, (wf_timer_keys (fl_wf Hfl)). }
  destruct (in_split _ _ Hin) as (pre & post & Hsplit).
  rewrite Hsplit in Hnd |- *. rewrite keys_app in Hnd. simpl in Hnd.
  apply NoDup_remove_2 in Hnd.
  rewrite fold_left_app. simpl.
  assert (Hto : timed_out rid c n
                  (fold_left (fun acc e => fire (fst e) acc) post
                     (fire h (fold_left (fun acc e => fire (fst e) acc) pre s)))).
  { apply (fold_fire_preserves (timed_out rid c n) (fun _ => True)).
    - intros h' s0 _. apply timed_out_fire.
    - apply Forall_forall. trivial.
    - apply in_flight_fire_self.
      apply (fold_fire_preserves (in_flight rid c a h deadline n) (fun h' => h' <> h)).
      + intros h' s0. apply in_flight_fire.
      + apply Forall_forall. intros e He Heq. apply Hnd.
        apply in_or_app. left. rewrite <- Heq. now apply in_map.
      + assumption. }
  destruct Hto as [H1 H2 H3 H4 H5]. constructor; try assumption.
  apply (wf_same (s := fold_left (fun acc e => fire (fst e) acc) post
                         (fire h (fold_left (fun acc e => fire (fst e) acc) pre s))));
    try reflexivity; assumption.
Qed.

End InFlight.

(** C3 (as amended): a request whose id is on no armed timer is forwarded
    to an application; until the deadline (the forward time plus the 30 s of
    the server-side timer) the application stays connected and no frame
    carrying the id reaches the relay.  Then the timer armed at forward time
    is due at the deadline; before it nothing carrying the id is sent; once
    the clock reaches the deadline the one thing sent that carries the id is
    the [ok: false] timeout response to the requesting client, so the
    application is sent nothing; the correlation is gone; and a reply
    carrying the id that arrives afterwards changes nothing and is sent to
    no one. *)
Theorem C3_timeout (port pid start : Z) (hist es : list Event) (c a : ws)
        (msg : Frame) (rid type : string) :
  let s0 := run (init port pid start) hist in
  is_register msg = false ->
  is_response msg = false ->
  f_id msg = Some rid -> rid <> ""%string ->
  f_type msg = Some type -> type <> ""%string ->
  serverHandlers type = None ->
  findAppSocket (apps s0) (appId (ws_data s0 c)) = Some a ->
  (forall h t, In (h, t) (timers s0) -> t_id t <> rid) ->
  let s1 := message c (Parsed msg) s0 in
  let deadline := (now s0 + REQUEST_TIMEOUT)%Z in
  Forall (quiet rid a deadline) es ->
  let s2 := run s1 es in
  let s3 := elapse deadline s2 in
  map_get Nat.eqb (next_timer s0) (timers s1) = Some (mkTimer deadline rid c) /\
  filter (mentions rid) (since (List.length (outbox s1)) s2) = [] /\
  filter (mentions rid) (since (List.length (outbox s1)) s3) =
    [(c, SMsg (timeout_response rid))] /\
  map_get String.eqb rid (pendingRequests s3) = None /\
  (forall w reply,
      is_register reply = false -> is_response reply = true ->
      f_id reply = Some rid ->
      message w (Parsed reply) s3 = s3).
Proof.
  intros s0 Hreg Hres Hid Hne Hty Hnt Hown Hfind Hfresh s1 deadline Hquiet s2 s3.
  assert (Hwf0 : wf s0) by apply wf_reachable.
  assert (Hwf1 : wf s1) by now apply wf_message.
  assert (Hs1 : s1 = route_request c msg rid type s0)
    by now apply message_request.
  destruct (route_request_forward c msg rid type s0 Hown Hfind)
    as (_ & _ & _ & _ & _ & Ht & Hp & _).
  rewrite <- Hs1 in Ht, Hp.
  assert (Hfl1 : in_flight rid c a (next_timer s0) deadline
                           (List.length (outbox s1)) s1).
  { constructor.
    - assumption.
    - rewrite Hp. apply (map_get_set_eq String.eqb_eq).
    - rewrite Ht. apply (map_get_snoc_fresh Nat.eqb Nat.eqb_eq).
      now apply timer_handle_fresh.
    - rewrite Ht. intros h' t' Hin Hrid. apply in_app_or in Hin.
      destruct Hin as [Hin | [Hin | []]].
      + exfalso. now apply (Hfresh h' t').
      + now injection Hin as <- _.
    - rewrite Hp. intros id p Hin Htm. apply In_map_set in Hin.
      destruct Hin as [Hin | Hin].
      + now injection Hin as -> _.
      + apply (wf_pending_lt Hwf0) in Hin. lia.
    - unfold since. now rewrite since_all.
    - lia. }
  pose proof (in_flight_run Hquiet Hfl1) as Hfl2.
  pose proof (in_flight_deadline Hfl2) as Hto.
  fold s2 in Hfl2. fold s3 in Hto.
  split; [apply Hfl1|]. split; [apply Hfl2|]. split; [apply Hto|].
  split; [apply Hto|].
  intros w reply Hnreg Hresp Hrid.
  rewrite (message_response w reply s3 Hnreg Hresp Hrid).
  unfold route_response.
  now rewrite (to_pending Hto : map_get String.eqb rid (pendingRequests s3) = None).
Qed.

Lemma C3_timeout_witness :
  let s0 := run (init 8675 4242 0)
                [Connect 1 None None;
                 Message 1 (Parsed (Scenario.register_frame "com.a" None));
                 Connect 2 None None] in
  let msg := Scenario.request_frame "1" "echo" None in
  let s1 := message 2 (Parsed msg) s0 in
  let deadline := (now s0 + REQUEST_TIMEOUT)%Z in
  let s2 := run s1 [Elapse 10; Connect 5 (Some "watch"%string) None; Elapse 20000] in
  let s3 := elapse deadline s2 in
  filter (mentions "1") (since (List.length (outbox s1)) s3) =
    [(2, SMsg (timeout_response "1"))] /\
  map_get String.eqb "1"%string (pendingRequests s3) = None.
Proof.
  intros s0 msg s1 deadline s2 s3.
  assert (Hquiet : Forall (quiet "1" 1 deadline)
                          [Elapse 10; Connect 5 (Some "watch"%string) None;
                           Elapse 20000]).
  { repeat constructor. }
  assert (Hfresh : forall h t, In (h, t) (timers s0) -> t_id t <> "1"%string).
  { intros h t []. }
  destruct (@C3_timeout 8675 4242 0
              [Connect 1 None None;
               Message 1 (Parsed (Scenario.register_frame "com.a" None));
               Connect 2 None None]
              [Elapse 10; Connect 5 (Some "watch"%string) None; Elapse 20000]
              2 1 msg "1"%string "echo"%string
              eq_refl eq_refl eq_refl ltac:(discriminate)
              eq_refl ltac:(discriminate) eq_refl eq_refl Hfresh Hquiet)
    as (_ & _ & Hsent & Hgone & _).
  split; [exact Hsent | exact Hgone].
Defined.

(** C3 as stated fails: the application of request ["1"] never replies, and
    goes away ten milliseconds after the forward.  By the deadline the one
    response the client was sent for the id is "App disconnected"; no
    timeout response is ever sent, the timer being cleared.  And when a
    client sends a second request under an id whose timer is still armed,
    to an application that never replies, it is sent two timeout responses
    for the id by the second request's deadline. *)
Lemma C3_counterexample :
  (let s1 := Scenario.one_in_flight in
   let s3 := Scenario.app_leaves in
   map_get String.eqb "1"%string (pendingRequests s1) = Some (mkPending 2 1 0) /\
   map_get Nat.eqb 0 (timers s1) = Some (mkTimer 30000 "1" 2) /\
   now s3 = 30000%Z /\
   filter (mentions "1") (since (List.length (outbox s1)) s3) =
     [(2, SMsg (response_err "1" "App disconnected"))] /\
   timers s3 = []) /\
  (let s1 := Scenario.reused_forwarded in
   let s3 := Scenario.reused_deadline in
   map_get Nat.eqb 1 (timers s1) = Some (mkTimer 30010 "dup" 2) /\
   now s3 = 30010%Z /\
   filter (mentions "dup") (since (List.length (outbox s1)) s3) =
     [(2, SMsg (timeout_response "dup")); (2, SMsg (timeout_response "dup"))]).
Proof. vm_compute. repeat split. Qed.

(** C10 (as amended): a second request with an id that has a pending
    correlation overwrites the entry and leaves the first request's timer
    armed; when that timer runs it deletes the entry then stored under the
    id, the second request's, and sends the timeout error to the first
    request's client; the second request's timer stays armed.  In whatever
    later state the first timer runs, it deletes the entry under the id and
    sends the timeout error to the first request's client. *)
Theorem C10_overwritten_timer (port pid start : Z) (hist : list Event)
        (c1 c2 a1 a2 : ws) (m1 m2 : Frame) (rid ty1 ty2 : string) :
  let s0 := run (init port pid start) hist in
  is_register m1 = false -> is_response m1 = false ->
  f_id m1 = Some rid -> f_type m1 = Some ty1 -> ty1 <> ""%string ->
  serverHandlers ty1 = None ->
  is_register m2 = false -> is_response m2 = false ->
  f_id m2 = Some rid -> f_type m2 = Some ty2 -> ty2 <> ""%string ->
  serverHandlers ty2 = None ->
  rid <> ""%string ->
  findAppSocket (apps s0) (appId (ws_data s0 c1)) = Some a1 ->
  findAppSocket (apps s0) (appId (ws_data s0 c2)) = Some a2 ->
  let s1 := message c1 (Parsed m1) s0 in
  let s2 := message c2 (Parsed m2) s1 in
  let h1 := next_timer s0 in
  let h2 := S h1 in
  let deadline := (now s0 + REQUEST_TIMEOUT)%Z in
  map_get String.eqb rid (pendingRequests s1) = Some (mkPending c1 a1 h1) /\
  map_get String.eqb rid (pendingRequests s2) = Some (mkPending c2 a2 h2) /\
  map_get Nat.eqb h1 (timers s2) = Some (mkTimer deadline rid c1) /\
  map_get Nat.eqb h2 (timers s2) = Some (mkTimer deadline rid c2) /\
  (let s3 := fire h1 s2 in
   map_get String.eqb rid (pendingRequests s3) = None /\
   outbox s3 = outbox s2 ++ [(c1, SMsg (timeout_response rid))] /\
   map_get Nat.eqb h2 (timers s3) = Some (mkTimer deadline rid c2)) /\
  (forall later,
      map_get Nat.eqb h1 (timers later) = Some (mkTimer deadline rid c1) ->
      map_get String.eqb rid (pendingRequests (fire h1 later)) = None /\
      outbox (fire h1 later) = outbox later ++ [(c1, SMsg (timeout_response rid))]).
Proof.
  intros s0 Hreg1 Hres1 Hid1 Hty1 Hnt1 Hown1 Hreg2 Hres2 Hid2 Hty2 Hnt2 Hown2
         Hne Hfind1 Hfind2 s1 s2 h1 h2 deadline.
  assert (Hwf0 : wf s0) by apply wf_reachable.
  assert (Hs1 : s1 = route_request c1 m1 rid ty1 s0) by now apply message_request.
  destruct (route_request_forward c1 m1 rid ty1 s0 Hown1 Hfind1)
    as (Ha1 & _ & Hd1 & Hnow1 & Hnext1 & Ht1 & Hp1 & _).
  rewrite <- Hs1 in Ha1, Hd1, Hnow1, Hnext1, Ht1, Hp1.
  assert (Hfind2' : findAppSocket (apps s1) (appId (ws_data s1 c2)) = Some a2).
  { unfold ws_data. rewrite Ha1, Hd1. exact Hfind2. }
  assert (Hs2 : s2 = route_request c2 m2 rid ty2 s1) by now apply message_request.
  destruct (route_request_forward c2 m2 rid ty2 s1 Hown2 Hfind2')
    as (_ & _ & _ & _ & _ & Ht2 & Hp2 & _).
  rewrite <- Hs2 in Ht2, Hp2. rewrite Hnext1, Hnow1 in Ht2. rewrite Hnext1 in Hp2.
  fold h1 h2 deadline in Ht1, Ht2, Hp1, Hp2.
  assert (Hfresh : map_get Nat.eqb h1 (timers s0) = None)
    by now apply timer_handle_fresh.
  assert (Hh1 : map_get Nat.eqb h1 (timers s2) = Some (mkTimer deadline rid c1)).
  { rewrite Ht2, Ht1.
    rewrite (map_get_snoc_other Nat.eqb Nat.eqb_eq) by (unfold h2; lia).
    now apply (map_get_snoc_fresh Nat.eqb Nat.eqb_eq). }
  assert (Hh2 : map_get Nat.eqb h2 (timers s2) = Some (mkTimer deadline rid c2)).
  { rewrite Ht2. apply (map_get_snoc_fresh Nat.eqb Nat.eqb_eq).
    rewrite Ht1. rewrite (map_get_snoc_other Nat.eqb Nat.eqb_eq) by (unfold h2; lia).
    apply (map_get_notin Nat.eqb Nat.eqb_eq).
    intro Hin. apply in_map_iff in Hin. destruct Hin as [[h t] [Hk Hin]].
    simpl in Hk. subst h. apply (wf_timer_lt Hwf0) in Hin. unfold h2, h1 in Hin. lia. }
  split; [rewrite Hp1; apply (map_get_set_eq String.eqb_eq)|].
  split; [rewrite Hp2; apply (map_get_set_eq String.eqb_eq)|].
  split; [exact Hh1|]. split; [exact Hh2|]. split.
  - intros s3.
    destruct (fire_armed h1 s2 Hh1) as (_ & _ & _ & _ & _ & Ht3 & Hp3 & Ho3).
    fold s3 in Ht3, Hp3, Ho3. simpl in Hp3, Ho3.
    split; [rewrite Hp3; apply map_get_delete_eq|].
    split; [exact Ho3|].
    rewrite Ht3. rewrite (map_get_delete_neq Nat.eqb_eq) by (unfold h2; lia).
    exact Hh2.
  - intros later Harmed.
    destruct (fire_armed h1 later Harmed) as (_ & _ & _ & _ & _ & _ & Hp3 & Ho3).
    simpl in Hp3, Ho3. split; [rewrite Hp3; apply map_get_delete_eq | exact Ho3].
Qed.

Lemma C10_overwritten_timer_witness :
  let s0 := run (init 8675 4242 0)
                [Connect 1 None None;
                 Message 1 (Parsed (Scenario.register_frame "com.a" None));
                 Connect 2 None None;
                 Connect 3 None None] in
  let m := Scenario.request_frame "dup" "echo" None in
  let s2 := message 3 (Parsed m) (message 2 (Parsed m) s0) in
  let s3 := fire (next_timer s0) s2 in
  map_get String.eqb "dup"%string (pendingRequests s2)
    = Some (mkPending 3 1 (S (next_timer s0))) /\
  map_get String.eqb "dup"%string (pendingRequests s3) = None /\
  outbox s3 = outbox s2 ++ [(2, SMsg (timeout_response "dup"))].
Proof.
  intros s0 m s2 s3.
  destruct (@C10_overwritten_timer 8675 4242 0
              [Connect 1 None None;
               Message 1 (Parsed (Scenario.register_frame "com.a" None));
               Connect 2 None None;
               Connect 3 None None]
              2 3 1 1 m m "dup"%string "echo"%string "echo"%string
              eq_refl eq_refl eq_refl eq_refl ltac:(discriminate) eq_refl
              eq_refl eq_refl eq_refl eq_refl ltac:(discriminate) eq_refl
              ltac:(discriminate) eq_refl eq_refl)
    as (_ & Hover & _ & _ & (Hgone & Hout & _) & _).
  split; [exact Hover | split; [exact Hgone | exact Hout]].
Defined.

(** C10 as stated fails: clients 2 and 3 send a request with the same id,
    ten milliseconds apart.  When the first request's timer runs, the
    timeout error goes to client 2, the first request's client, and client
    3 is sent nothing; the correlation deleted is the one of client 3. *)
Lemma C10_counterexample :
  let s := Scenario.twice_same_id in
  let s' := step s (Elapse 30000) in
  map_get String.eqb "dup"%string (pendingRequests s) = Some (mkPending 3 1 1) /\
  map_get Nat.eqb 0 (timers s) = Some (mkTimer 30000 "dup" 2) /\
  map_get Nat.eqb 1 (timers s) = Some (mkTimer 30010 "dup" 3) /\
  since (List.length (outbox s)) s' = [(2, SMsg (timeout_response "dup"))] /\
  map_get String.eqb "dup"%string (pendingRequests s') = None /\
  timers s' = [(1, mkTimer 30010 "dup" 3)].
Proof. vm_compute. repeat split. Qed.
End RelayFacts.

(** ** The application-side client *)

Module ClientFacts.
Import Client.

Lemma handlers_registerHandler (type : string) (config : HandlerConfig) (s : State) :
  handlers (registerHandler type config s) =
  map_set String.eqb type (handler config) (handlers s).
Proof. unfold registerHandler. now destruct (findIndex _ _). Qed.

Lemma timers_registerHandler (type : string) (config : HandlerConfig) (s : State) :
  timers (registerHandler type config s) = timers s /\
  reconnectTimer (registerHandler type config s) = reconnectTimer s /\
  reconnectDelay (registerHandler type config s) = reconnectDelay s /\
  intentionalClose (registerHandler type config s) = intentionalClose s.
Proof. unfold registerHandler. now destruct (findIndex _ _). Qed.

Lemma construction_timers (entries : list (string * HandlerConfig)) (s : State) :
  let s' := fold_left (fun acc e => registerHandler (fst e) (snd e) acc) entries s in
  timers s' = timers s /\ reconnectTimer s' = reconnectTimer s /\
  reconnectDelay s' = reconnectDelay s /\ intentionalClose s' = intentionalClose s.
Proof.
  revert s. induction entries as [|e entries IH]; intros s; simpl; [repeat split|].
  destruct (IH (registerHandler (fst e) (snd e) s)) as (H1 & H2 & H3 & H4).
  destruct (timers_registerHandler (fst e) (snd e) s) as (G1 & G2 & G3 & G4).
  simpl in H1, H2, H3, H4. rewrite H1, H2, H3, H4. now rewrite G1, G2, G3, G4.
Qed.

Lemma createHotline_fresh (options : HotlineOptions) : fresh (createHotline options).
Proof.
  unfold fresh, createHotline. simpl.
  destruct (opt_handlers options) as [entries|]; [|repeat split].
  match goal with
  | |- context [fold_left ?f entries ?s0] =>
      destruct (construction_timers entries s0) as (H1 & H2 & H3 & H4)
  end.
  simpl in H1, H2, H3, H4. now rewrite H1, H2, H3, H4.
Qed.

Lemma createHotline_ping (options : HotlineOptions) :
  map_get String.eqb "ping"%string (handlers (createHotline options))
  = Some ping_handler.
Proof. unfold createHotline. simpl. apply (map_get_set_eq String.eqb_eq). Qed.

Section Runs.
Variable DEV : option bool.

Lemma handlers_connect (s : State) : handlers (connect DEV s) = handlers s.
Proof. unfold connect. now destruct DEV as [[|]|]. Qed.

Lemma handlers_step (s : State) (e : Event) :
  handlers (step DEV s e) =
  match e with
  | CallHandle type config => map_set String.eqb type (handler config) (handlers s)
  | _ => handlers s
  end.
Proof.
  destruct e as [ | | type config | | raw | | h]; simpl.
  - apply handlers_connect.
  - unfold disconnect. simpl. destruct (reconnectTimer s); simpl;
      now destruct (ws s).
  - apply handlers_registerHandler.
  - unfold onopen, ws_send. simpl. now destruct (ws s).
  - unfold onmessage, ws_send. destruct raw as [|msg]; [reflexivity|].
    destruct (req_id msg); [|reflexivity]. destruct (req_type msg); [|reflexivity].
    destruct (_ || _); [reflexivity|].
    destruct (map_get _ _ _) as [f|]; [destruct (f _)|]; now destruct (ws s).
  - unfold onclose, scheduleReconnect. simpl.
    destruct (intentionalClose s); simpl; [reflexivity|].
    now destruct (reconnectTimer s).
  - unfold timer_fires. destruct (map_get _ _ _); [|reflexivity].
    unfold reconnect_callback. now rewrite handlers_connect.
Qed.

Lemma ping_present_step (s : State) (e : Event) :
  (exists f, map_get String.eqb "ping"%string (handlers s) = Some f) ->
  exists f, map_get String.eqb "ping"%string (handlers (step DEV s e)) = Some f.
Proof.
  intros [f Hf]. rewrite handlers_step.
  destruct e as [ | | type config | | raw | | h]; try (now exists f).
  destruct (String.eqb type "ping") eqn:E.
  - apply String.eqb_eq in E. subst. eexists. apply (map_get_set_eq String.eqb_eq).
  - apply String.eqb_neq in E. exists f.
    now rewrite (map_get_set_neq String.eqb_eq).
Qed.

Lemma ping_kept_step (s : State) (e : Event) :
  ~ names_ping e ->
  map_get String.eqb "ping"%string (handlers s) = Some ping_handler ->
  map_get String.eqb "ping"%string (handlers (step DEV s e)) = Some ping_handler.
Proof.
  intros Hno Hf. rewrite handlers_step.
  destruct e as [ | | type config | | raw | | h]; try assumption.
  simpl in Hno. now rewrite (map_get_set_neq String.eqb_eq).
Qed.

Lemma ping_present_run (es : list Event) (s : State) :
  (exists f, map_get String.eqb "ping"%string (handlers s) = Some f) ->
  exists f, map_get String.eqb "ping"%string (handlers (run DEV s es)) = Some f.
Proof.
  revert s. induction es as [|e es IH]; intros s H; simpl; [assumption|].
  apply IH. now apply ping_present_step.
Qed.

Lemma ping_kept_run (es : list Event) (s : State) :
  Forall (fun e => ~ names_ping e) es ->
  map_get String.eqb "ping"%string (handlers s) = Some ping_handler ->
  map_get String.eqb "ping"%string (handlers (run DEV s es)) = Some ping_handler.
Proof.
  revert s. induction es as [|e es IH]; intros s Hall H; simpl; [assumption|].
  inversion Hall; subst. apply IH; [assumption|]. now apply ping_kept_step.
Qed.

(** C8 (as amended): the built-in ping handler is installed by
    [createHotline] after the handlers of the options, so it is there
    whatever they name; some handler for ["ping"] is there in every later
    state; and as long as [handle] is not called for ["ping"], it is the
    built-in one, which answers a ping request with [ok: true] and the
    empty object. *)
Theorem C8_ping_builtin (options : HotlineOptions) (es : list Event) :
  let s := run DEV (createHotline options) es in
  map_get String.eqb "ping"%string (handlers (createHotline options))
    = Some ping_handler /\
  (exists f, map_get String.eqb "ping"%string (handlers s) = Some f) /\
  (Forall (fun e => ~ names_ping e) es ->
   map_get String.eqb "ping"%string (handlers s) = Some ping_handler /\
   forall id k, id <> ""%string -> ws s = Some k ->
     sent (onmessage (ping_request id) s)
     = sent s ++ [(k, Response id true (Some (JObj [])) None)]).
Proof.
  intros s. split; [apply createHotline_ping|]. split.
  - apply ping_present_run. eexists. apply createHotline_ping.
  - intros Hall.
    assert (Hping : map_get String.eqb "ping"%string (handlers s) = Some ping_handler).
    { apply ping_kept_run; [assumption | apply createHotline_ping]. }
    split; [assumption|].
    intros id k Hne Hws. unfold onmessage, ping_request. simpl.
    apply String.eqb_neq in Hne. rewrite Hne. simpl.
    rewrite Hping. unfold ping_handler, ws_send. rewrite Hws. reflexivity.
Qed.

End Runs.

Lemma C8_ping_builtin_witness :
  let options := mkOptions None "com.a" (Some [("ping"%string, throwing)]) in
  let es := [CallHandle "get-state" get_state; CallConnect; OnOpen] in
  let s := run None (createHotline options) es in
  sent (onmessage (ping_request "1") s)
  = sent s ++ [(0, Response "1" true (Some (JObj [])) None)].
Proof.
  intros options es s.
  destruct (C8_ping_builtin None options es) as (_ & _ & H).
  assert (Hall : Forall (fun e => ~ names_ping e) es).
  { repeat constructor; simpl; try tauto. discriminate. }
  destruct (H Hall) as (_ & Hsend).
  apply Hsend; [discriminate | reflexivity].
Defined.

(** C8 as stated fails: the built-in handler is set after the handlers of
    the options, not before them; and [handle] called for ["ping"] replaces
    it, after which a ping request is answered by the application's
    handler, here with [ok: false]. *)
Lemma C8_counterexample :
  keys (handlers (createHotline
                    (mkOptions None "com.a" (Some [("get-state"%string, get_state)]))))
    = ["get-state"%string; "ping"%string] /\
  let s := run None (createHotline (mkOptions None "com.a" None))
               [CallHandle "ping" throwing; CallConnect; OnOpen] in
  sent (onmessage (ping_request "1") s)
  = sent s ++ [(0, Response "1" false None (Some "overridden"%string))].
Proof. vm_compute. repeat split. Qed.

(** *** Reconnection *)

Section Reconnect.
Variable DEV : option bool.

Lemma connect_timers (s : State) :
  timers (connect DEV s) = timers s /\
  reconnectTimer (connect DEV s) = reconnectTimer s /\
  reconnectDelay (connect DEV s) = reconnectDelay s /\
  next_timer (connect DEV s) = next_timer s.
Proof. unfold connect. now destruct DEV as [[|]|]. Qed.

Lemma connect_intentionalClose (s : State) :
  intentionalClose s = false -> intentionalClose (connect DEV s) = false.
Proof. unfold connect. now destruct DEV as [[|]|]. Qed.

Lemma one_timer_same (s s' : State) :
  timers s' = timers s -> reconnectTimer s' = reconnectTimer s ->
  one_timer s -> one_timer s'.
Proof. unfold one_timer. intros -> ->. trivial. Qed.

Lemma one_timer_disconnect (s : State) :
  one_timer s ->
  timers (disconnect s) = [] /\ reconnectTimer (disconnect s) = None /\
  intentionalClose (disconnect s) = true.
Proof.
  intros [[Hr Ht] | (h & d & Hr & Ht)]; unfold disconnect; simpl; rewrite Hr; simpl.
  - destruct (ws s); simpl; now rewrite ?Ht.
  - destruct (ws s); simpl; rewrite Ht; simpl; now rewrite Nat.eqb_refl.
Qed.

Lemma one_timer_step (s : State) (e : Event) :
  one_timer s -> one_timer (step DEV s e).
Proof.
  intros Hone. destruct e as [ | | type config | | raw | | h]; simpl.
  - destruct (connect_timers s) as (Ht & Hr & _). eapply one_timer_same; [exact Ht | exact Hr | assumption].
  - destruct (one_timer_disconnect Hone) as (Ht & Hr & _). left. now split.
  - destruct (timers_registerHandler type config s) as (Ht & Hr & _).
    eapply one_timer_same; [exact Ht | exact Hr | assumption].
  - eapply one_timer_same; [| |exact Hone];
      unfold onopen, ws_send; simpl; now destruct (ws s).
  - eapply one_timer_same; [| |exact Hone];
      unfold onmessage, ws_send; destruct raw as [|msg]; try reflexivity;
      (destruct (req_id msg); [|reflexivity]); (destruct (req_type msg); [|reflexivity]);
      (destruct (_ || _); [reflexivity|]);
      (destruct (map_get _ _ _) as [f|]; [destruct (f _)|]); now destruct (ws s).
  - unfold onclose. simpl. destruct (intentionalClose s); simpl.
    + eapply one_timer_same; [| |exact Hone]; reflexivity.
    + unfold scheduleReconnect. simpl.
      destruct Hone as [[Hr Ht] | (h & d & Hr & Ht)]; rewrite Hr.
      * right. exists (next_timer s), (reconnectDelay s). simpl. now rewrite Ht.
      * right. exists h, d. now split.
  - unfold timer_fires.
    destruct (map_get Nat.eqb h (timers s)) as [d'|] eqn:Hget; [|assumption].
    left. unfold reconnect_callback.
    match goal with
    | |- context [connect DEV ?s2] =>
        destruct (connect_timers s2) as (Ht & Hr & _); rewrite Ht, Hr
    end.
    simpl. split; [reflexivity|].
    destruct Hone as [[Hr' Ht'] | (h0 & d & Hr' & Ht')]; rewrite Ht' in Hget |- *.
    + discriminate.
    + simpl in Hget |- *. destruct (h0 =? h); [reflexivity | discriminate].
Qed.

Lemma one_timer_run (es : list Event) (s : State) :
  one_timer s -> one_timer (run DEV s es).
Proof.
  revert s. induction es as [|e es IH]; intros s H; simpl; [assumption|].
  apply IH. now apply one_timer_step.
Qed.

Lemma one_timer_created (options : HotlineOptions) : one_timer (createHotline options).
Proof.
  destruct (createHotline_fresh options) as (_ & Hr & Ht & _). left. now split.
Qed.

Lemma failed_attempt_effect (s : State) :
  reconnectTimer s = None -> timers s = [] -> intentionalClose s = false ->
  let s' := failed_attempt DEV s in
  reconnectDelay s' = Z.min (reconnectDelay s * 2) RECONNECT_CAP_MS /\
  reconnectTimer s' = None /\ timers s' = [] /\ intentionalClose s' = false.
Proof.
  intros Hr Ht Hi. unfold failed_attempt, onclose. simpl. rewrite Hi. simpl.
  unfold scheduleReconnect. simpl. rewrite Hr. simpl.
  unfold timer_fires. simpl. rewrite Ht. simpl. rewrite Nat.eqb_refl.
  unfold reconnect_callback, connect.
  destruct DEV as [[|]|]; simpl; rewrite ?Nat.eqb_refl; repeat split; assumption.
Qed.

(** After [k] failed attempts in a row the client is again without a timer,
    with the delay doubled [k] times up to the cap. *)
Lemma failed_attempts_delay (k : nat) (s : State) :
  fresh s ->
  let s' := Nat.iter k (failed_attempt DEV) s in
  reconnectDelay s' = Z.min (1000 * 2 ^ Z.of_nat k) RECONNECT_CAP_MS /\
  reconnectTimer s' = None /\ timers s' = [] /\ intentionalClose s' = false.
Proof.
  intros (Hd & Hr & Ht & Hi). induction k as [|k IH].
  - simpl. unfold RECONNECT_CAP_MS. repeat split; try assumption; try lia.
  - rewrite Nat.iter_succ. cbv zeta in IH |- *.
    destruct IH as (Hd' & Hr' & Ht' & Hi').
    destruct (failed_attempt_effect _ Hr' Ht' Hi') as (Hd2 & Hr2 & Ht2 & Hi2).
    repeat split; try assumption.
    rewrite Hd2, Hd'. unfold RECONNECT_CAP_MS.
    rewrite Nat2Z.inj_succ, Z.pow_succ_r by lia. lia.
Qed.

(** C9: the delay starts at one second; after [k] failed attempts in a row
    the next reconnection is armed with one second doubled [k] times, at
    most 30 seconds; [onopen] puts the delay back to one second; in every
    state at most one reconnection timer is armed; and [disconnect] leaves
    no timer armed, a close that follows it arming none. *)
Theorem C9_reconnect_backoff (options : HotlineOptions) :
  reconnectDelay (createHotline options) = 1000%Z /\
  (forall s k, fresh s ->
     armed_delays (onclose (Nat.iter k (failed_attempt DEV) s))
     = [Z.min (1000 * 2 ^ Z.of_nat k) 30000]) /\
  (forall s, reconnectDelay (onopen s) = 1000%Z) /\
  (forall es, List.length (timers (run DEV (createHotline options) es)) <= 1) /\
  (forall es,
     let s := disconnect (run DEV (createHotline options) es) in
     timers s = [] /\ reconnectTimer s = None /\ timers (onclose s) = []).
Proof.
  split; [apply createHotline_fresh|]. split; [|split; [|split]].
  - intros s k Hfresh.
    destruct (failed_attempts_delay k Hfresh) as (Hd & Hr & Ht & Hi).
    cbv zeta in Hd, Hr, Ht, Hi.
    set (s' := Nat.iter k (failed_attempt DEV) s) in *.
    unfold armed_delays, onclose. simpl. rewrite Hi. simpl.
    unfold scheduleReconnect. simpl. rewrite Hr. simpl. rewrite Ht. simpl.
    now rewrite Hd.
  - intros s. unfold onopen, ws_send. simpl. now destruct (ws s).
  - intros es.
    destruct (one_timer_run es (one_timer_created options))
      as [[_ Ht] | (h & d & _ & Ht)]; rewrite Ht; simpl; lia.
  - intros es. cbv zeta.
    destruct (one_timer_disconnect (one_timer_run es (one_timer_created options)))
      as (Ht & Hr & Hi).
    split; [assumption|]. split; [assumption|].
    unfold onclose. cbn [intentionalClose with_ws]. rewrite Hi. simpl.
    exact Ht.
Qed.

End Reconnect.

Lemma C9_reconnect_backoff_witness :
  let s := run None (createHotline (mkOptions None "com.a" None)) [CallConnect; OnOpen] in
  armed_delays (onclose (Nat.iter 3 (failed_attempt None) s)) = [8000%Z] /\
  armed_delays (onclose (Nat.iter 7 (failed_attempt None) s)) = [30000%Z].
Proof.
  intros s.
  destruct (C9_reconnect_backoff None (mkOptions None "com.a" None)) as (_ & H & _).
  assert (Hfresh : fresh s) by (repeat split).
  split.
  - exact (H s 3 Hfresh).
  - exact (H s 7 Hfresh).
Defined.
End ClientFacts.

(** ** Event fan-out *)

Module EventsFacts.
Import Events.

#[local] Unset Implicit Arguments.

Lemma onEvent_registry (sender : nat) (name : string) (data : option json) (s : State) :
  applications (onEvent sender name data s) = applications s /\
  observers (onEvent sender name data s) = observers s.
Proof.
  unfold onEvent. now destruct (map_get Nat.eqb sender (applications s)).
Qed.

Lemma delivered_to_app (x : nat) (l1 l2 : list (nat * Notice)) :
  delivered_to x (l1 ++ l2) = delivered_to x l1 ++ delivered_to x l2.
Proof. unfold delivered_to. now rewrite filter_app, map_app. Qed.

Lemma delivered_to_observers (x : nat) (nt : Notice) (obs : list nat) :
  ~ In x obs -> delivered_to x (map (fun o => (o, nt)) obs) = [].
Proof.
  intros Hnin. induction obs as [|o obs IH]; [reflexivity|].
  unfold delivered_to in *. simpl.
  destruct (o =? x) eqn:E.
  - apply Nat.eqb_eq in E. subst. exfalso. apply Hnin. now left.
  - apply IH. intro Hin. apply Hnin. now right.
Qed.

Lemma delivered_to_waiters (x : nat) (nt : Notice) (ws : list Waiter) :
  delivered_to x (map (fun w => (session w, nt)) ws)
  = map (fun _ => nt) (filter (fun w => session w =? x) ws).
Proof.
  induction ws as [|w ws IH]; [reflexivity|].
  unfold delivered_to in *. simpl. destruct (session w =? x); simpl; now rewrite IH.
Qed.

Lemma no_session_no_waiter (x : nat) (ws : list Waiter) :
  ~ In x (map session ws) -> filter (fun w => session w =? x) ws = [].
Proof.
  intros Hnin. induction ws as [|w ws IH]; [reflexivity|]. simpl.
  destruct (session w =? x) eqn:E.
  - apply Nat.eqb_eq in E. exfalso. apply Hnin. left. exact E.
  - apply IH. intro Hin. apply Hnin. now right.
Qed.

Lemma only_waiter_of_session (w : Waiter) (ws : list Waiter) :
  NoDup (map session ws) -> In w ws ->
  filter (fun w' => session w' =? session w) ws = [w].
Proof.
  induction ws as [|w0 ws IH]; [intros _ []|].
  intros Hnd Hin. inversion Hnd as [|? ? Hnotin Hnd']; subst. simpl.
  destruct Hin as [-> | Hin].
  - rewrite Nat.eqb_refl. f_equal. now apply no_session_no_waiter.
  - destruct (session w0 =? session w) eqn:E.
    + apply Nat.eqb_eq in E. exfalso. apply Hnotin. rewrite E. now apply in_map.
    + now apply IH.
Qed.

Lemma sessions_filter (p : Waiter -> bool) (ws : list Waiter) (x : nat) :
  In x (map session (filter p ws)) -> In x (map session ws).
Proof.
  intros Hin. apply in_map_iff in Hin. destruct Hin as (w & Hs & Hin).
  apply filter_In in Hin. apply in_map_iff. exists w. split; [assumption | apply Hin].
Qed.

Lemma NoDup_sessions_filter (p : Waiter -> bool) (ws : list Waiter) :
  NoDup (map session ws) -> NoDup (map session (filter p ws)).
Proof.
  induction ws as [|w ws IH]; simpl; intros Hnd; [constructor|].
  inversion Hnd as [|? ? Hnotin Hnd']; subst.
  destruct (p w); simpl; [|now apply IH].
  constructor; [|now apply IH].
  intro Hin. apply Hnotin. now apply (sessions_filter p).
Qed.

(** A session that neither observes nor waits is delivered nothing. *)
Lemma stranger_gets_nothing (x : nat) (evs : list Inbound) (s : State) :
  ~ In x (observers s) -> ~ In x (map session (waiters s)) ->
  delivered_to x (delivered (onEvents s evs)) = delivered_to x (delivered s).
Proof.
  revert s. induction evs as [|e evs IH]; intros s Hobs Hwait; [reflexivity|].
  simpl. rewrite IH.
  - unfold onEvent. destruct (map_get Nat.eqb (in_sender e) (applications s)) as [ap|];
      [|reflexivity].
    simpl. rewrite !delivered_to_app.
    rewrite (delivered_to_observers _ _ _ Hobs), delivered_to_waiters.
    rewrite no_session_no_waiter; [now rewrite app_nil_r|].
    intro Hin. apply Hwait. now apply (sessions_filter (matches ap (in_event e))).
  - now rewrite (proj2 (onEvent_registry _ _ _ s)).
  - unfold onEvent. destruct (map_get Nat.eqb (in_sender e) (applications s));
      [|assumption].
    simpl. intro Hin. apply Hwait. now apply sessions_filter in Hin.
Qed.

Lemma closed_grows (x : nat) (evs : list Inbound) (s : State) :
  In x (closed s) -> In x (closed (onEvents s evs)).
Proof.
  revert s. induction evs as [|e evs IH]; intros s Hin; [assumption|].
  simpl. apply IH. unfold onEvent.
  destruct (map_get Nat.eqb (in_sender e) (applications s)); [|assumption].
  simpl. apply in_or_app. now left.
Qed.

Lemma waiters_shrink (w : Waiter) (evs : list Inbound) (s : State) :
  In w (waiters (onEvents s evs)) -> In w (waiters s).
Proof.
  revert s. induction evs as [|e evs IH]; intros s Hin; [assumption|].
  simpl in Hin. apply IH in Hin. unfold onEvent in Hin.
  destruct (map_get Nat.eqb (in_sender e) (applications s)); [|assumption].
  simpl in Hin. apply filter_In in Hin. apply Hin.
Qed.

(** What a waiter is delivered over a run of inbound events. *)
Lemma waiter_served_once (w : Waiter) (evs : list Inbound) (s : State) :
  In w (waiters s) ->
  NoDup (map session (waiters s)) ->
  ~ In (session w) (observers s) ->
  let s' := onEvents s evs in
  match first_match (applications s) w evs with
  | Some nt =>
      delivered_to (session w) (delivered s')
      = delivered_to (session w) (delivered s) ++ [nt] /\
      In (session w) (closed s') /\ ~ In w (waiters s')
  | None =>
      delivered_to (session w) (delivered s') = delivered_to (session w) (delivered s) /\
      In w (waiters s')
  end.
Proof.
  revert s. induction evs as [|e evs IH]; intros s Hin Hnd Hobs; simpl.
  - now split.
  - destruct (onEvent_registry (in_sender e) (in_event e) (in_data e) s) as (Happs & Hobs').
    unfold onEvent in *.
    destruct (map_get Nat.eqb (in_sender e) (applications s)) as [ap|] eqn:Hsender.
    + destruct (matches ap (in_event e) w) eqn:Hm.
      * match goal with
        | |- context [onEvents ?st evs] => set (s1 := st) in *
        end.
        assert (Hgone : ~ In (session w) (map session (waiters s1))).
        { simpl. intro Hin'. apply in_map_iff in Hin'.
          destruct Hin' as (w' & Hs & Hin').
          apply filter_In in Hin'. destruct Hin' as [Hin' Hm'].
          assert (Heq : filter (fun w0 => session w0 =? session w) (waiters s) = [w])
            by now apply only_waiter_of_session.
          assert (Hin2 : In w' (filter (fun w0 => session w0 =? session w) (waiters s))).
          { apply filter_In. split; [assumption|]. now apply Nat.eqb_eq. }
          rewrite Heq in Hin2. destruct Hin2 as [<- | []].
          rewrite Hm in Hm'. discriminate. }
        split; [|split].
        -- rewrite stranger_gets_nothing; [|exact Hobs | exact Hgone].
           simpl. rewrite !delivered_to_app.
           rewrite (delivered_to_observers _ _ _ Hobs), delivered_to_waiters. simpl.
           rewrite only_waiter_of_session.
           ++ reflexivity.
           ++ now apply NoDup_sessions_filter.
           ++ apply filter_In. now split.
        -- apply closed_grows. simpl. apply in_or_app. right.
           apply in_map. apply filter_In. now split.
        -- intro Hin'. apply waiters_shrink in Hin'. apply Hgone. now apply in_map.
      * match goal with
        | |- context [onEvents ?st evs] => set (s1 := st) in *
        end.
        assert (Hin1 : In w (waiters s1)).
        { simpl. apply filter_In. split; [assumption|]. now rewrite Hm. }
        assert (Hnd1 : NoDup (map session (waiters s1))).
        { simpl. now apply NoDup_sessions_filter. }
        assert (Hstep : delivered_to (session w) (delivered s1)
                        = delivered_to (session w) (delivered s)).
        { simpl. rewrite !delivered_to_app.
          rewrite (delivered_to_observers _ _ _ Hobs), delivered_to_waiters.
          rewrite no_session_no_waiter; [now rewrite app_nil_r|].
          intro Hin'. apply in_map_iff in Hin'. destruct Hin' as (w' & Hs & Hin').
          apply filter_In in Hin'. destruct Hin' as [Hin' Hm'].
          assert (Heq : filter (fun w0 => session w0 =? session w) (waiters s) = [w])
            by now apply only_waiter_of_session.
          assert (Hin2 : In w' (filter (fun w0 => session w0 =? session w) (waiters s))).
          { apply filter_In. split; [assumption|]. now apply Nat.eqb_eq. }
          rewrite Heq in Hin2. destruct Hin2 as [<- | []].
          rewrite Hm in Hm'. discriminate. }
        specialize (IH s1 Hin1 Hnd1 Hobs). cbv zeta in IH.
        change (applications s1) with (applications s) in IH.
        destruct (first_match (applications s) w evs) as [nt|].
        -- destruct IH as (Hd & Hc & Hw). rewrite Hd, Hstep. now repeat split.
        -- destruct IH as (Hd & Hw). rewrite Hd, Hstep. now split.
    + apply (IH s Hin Hnd Hobs).
Qed.

(** C5: an event frame from a registered application is delivered to every
    observer, tagged with the application's id, and to the waiters it
    matches, which are closed and dropped; over any run of inbound frames a
    waiter is delivered the first event that matches its name (and its
    application id if it named one) and nothing else, at most one event. *)
Theorem C5_event_fan_out (s : State) :
  (forall sender name data appId,
      map_get Nat.eqb sender (applications s) = Some appId ->
      let s' := onEvent sender name data s in
      let served := filter (matches appId name) (waiters s) in
      delivered s' =
        delivered s
          ++ map (fun o => (o, mkNotice appId name data)) (observers s)
          ++ map (fun w => (session w, mkNotice appId name data)) served /\
      closed s' = closed s ++ map session served /\
      (forall w, In w (waiters s') <-> In w (waiters s) /\ matches appId name w = false)) /\
  (forall w evs,
      In w (waiters s) ->
      NoDup (map session (waiters s)) ->
      ~ In (session w) (observers s) ->
      let s' := onEvents s evs in
      match first_match (applications s) w evs with
      | Some nt =>
          delivered_to (session w) (delivered s')
          = delivered_to (session w) (delivered s) ++ [nt] /\
          In (session w) (closed s') /\ ~ In w (waiters s')
      | None =>
          delivered_to (session w) (delivered s')
          = delivered_to (session w) (delivered s) /\
          In w (waiters s')
      end).
Proof.
  split.
  - intros sender name data ap Hget. unfold onEvent. rewrite Hget. simpl.
    split; [reflexivity|]. split; [reflexivity|].
    intros w. rewrite filter_In, negb_true_iff. tauto.
  - intros w evs. apply waiter_served_once.
Qed.

Lemma C5_event_fan_out_witness :
  let s' := onEvents demo demo_events in
  delivered_to 8 (delivered s')
  = delivered_to 8 (delivered demo)
      ++ [mkNotice "com.a" "navigation" (Some (JStr "Home"))] /\
  In 8 (closed s') /\ ~ In nav_waiter (waiters s').
Proof.
  assert (Hin : In nav_waiter (waiters demo)) by (left; reflexivity).
  assert (Hnd : NoDup (map session (waiters demo))).
  { simpl. repeat constructor; simpl; intuition discriminate. }
  assert (Hobs : ~ In (session nav_waiter) (observers demo)).
  { simpl. intuition discriminate. }
  exact (proj2 (C5_event_fan_out demo) nav_waiter demo_events Hin Hnd Hobs).
Defined.
End EventsFacts.

(** ** More of the relay *)

Module RelayMoreFacts.
Import Relay RelayMore RelayFacts.

#[local] Unset Implicit Arguments.

Section MapMore.
Context {K V : Type} (eqb : K -> K -> bool).
Hypothesis eqb_eq : forall a b, eqb a b = true <-> a = b.

Lemma map_delete_absent (k : K) (m : list (K * V)) :
  map_get eqb k m = None -> map_delete eqb k m = m.
Proof.
  unfold map_delete. induction m as [|[k0 v0] rest IH]; simpl; [reflexivity|].
  destruct (eqb k0 k) eqn:E; [discriminate|]. intros H. simpl. f_equal. now apply IH.
Qed.

Lemma map_set_absent (k : K) (v : V) (m : list (K * V)) :
  map_get eqb k m = None -> map_set eqb k v m = m ++ [(k, v)].
Proof.
  induction m as [|[k0 v0] rest IH]; simpl; [reflexivity|].
  destruct (eqb k0 k) eqn:E; [discriminate|]. intros H. f_equal. now apply IH.
Qed.

Lemma map_delete_snoc (k : K) (v : V) (m : list (K * V)) :
  map_get eqb k m = None -> map_delete eqb k (m ++ [(k, v)]) = m.
Proof.
  intros H. unfold map_delete. rewrite filter_app. simpl.
  rewrite (proj2 (eqb_eq k k) eq_refl). simpl. rewrite app_nil_r.
  now apply map_delete_absent.
Qed.

Lemma map_get_app_found (k : K) (v : V) (m extra : list (K * V)) :
  map_get eqb k m = Some v -> map_get eqb k (m ++ extra) = Some v.
Proof.
  induction m as [|[k0 v0] rest IH]; simpl; [discriminate|].
  destruct (eqb k0 k); [trivial | exact IH].
Qed.

Lemma map_get_found_key (k : K) (v : V) (m : list (K * V)) :
  map_get eqb k m = Some v -> In k (keys m).
Proof.
  intros H. apply (map_get_In eqb_eq) in H.
  change k with (fst (k, v)). now apply in_map.
Qed.
End MapMore.

(** *** Requests that cannot be routed *)

(** X1.  A request that is not the relay's own, when no application can take
    it, is answered at once with an error: "No app connected" when no target
    was named and the registry is empty, the error naming the target when
    one was named and no application has that id.  No correlation is
    recorded and no timer armed. *)
Theorem no_target_error (s : State) (w : ws) (msg : Frame) (id type : string) :
  is_register msg = false ->
  is_response msg = false ->
  f_id msg = Some id -> id <> ""%string ->
  f_type msg = Some type -> type <> ""%string ->
  serverHandlers type = None ->
  let target := appId (ws_data s w) in
  let s' := message w (Parsed msg) s in
  (omitted target -> apps s = [] ->
   outbox s' = outbox s ++ [(w, SMsg (response_err id "No app connected"))] /\
   pendingRequests s' = pendingRequests s /\ timers s' = timers s) /\
  (forall t, given target t ->
     Forall (fun e => conn_appId (snd e) <> t) (apps s) ->
     outbox s' =
       outbox s ++ [(w, SMsg (response_err id ("No app connected with id: " ++ t)))] /\
     pendingRequests s' = pendingRequests s /\ timers s' = timers s).
Proof.
  intros Hreg Hres Hid Hne Hty Hnt Hown target s'.
  subst s'. rewrite (message_request w msg s Hreg Hres Hid Hne Hty Hnt).
  unfold route_request, handleServerCommand. rewrite Hown. fold target. split.
  - intros Hom Hempty. unfold omitted in Hom. rewrite Hempty. simpl.
    rewrite andb_false_r. unfold no_app_error. rewrite Hom.
    destruct target; simpl; repeat split.
  - intros t [Ht Htne] Hnone. rewrite Ht.
    assert (Htruthy : truthy_str (Some t) = true).
    { simpl. apply negb_true_iff. now apply String.eqb_neq. }
    assert (Hfind : findAppSocket (apps s) (Some t) = None).
    { unfold findAppSocket. rewrite Htruthy. simpl negb. cbv iota.
      rewrite filter_none.
      - now destruct (List.length (apps s) =? 0).
      - eapply Forall_impl; [|exact Hnone]. intros e He. simpl.
        apply String.eqb_neq. congruence. }
    rewrite Hfind, Htruthy. unfold no_app_error. rewrite Htruthy. simpl.
    repeat split.
Qed.

Lemma no_target_error_witness :
  let s := run Scenario.boot
               [Connect 2 None None; Connect 3 None (Some "com.ghost"%string)] in
  outbox (message 2 (Parsed (Scenario.request_frame "1" "echo" None)) s)
  = outbox s ++ [(2, SMsg (response_err "1" "No app connected"))] /\
  outbox (message 3 (Parsed (Scenario.request_frame "2" "echo" None)) s)
  = outbox s ++ [(3, SMsg (response_err "2" "No app connected with id: com.ghost"))].
Proof.
  intros s. split.
  - destruct (no_target_error s 2 (Scenario.request_frame "1" "echo" None)
                "1"%string "echo"%string eq_refl eq_refl eq_refl
                ltac:(discriminate) eq_refl ltac:(discriminate) eq_refl)
      as (H & _).
    exact (proj1 (H eq_refl eq_refl)).
  - destruct (no_target_error s 3 (Scenario.request_frame "2" "echo" None)
                "2"%string "echo"%string eq_refl eq_refl eq_refl
                ltac:(discriminate) eq_refl ltac:(discriminate) eq_refl)
      as (_ & H).
    assert (Hg : given (appId (ws_data s 3)) "com.ghost"%string).
    { split; [reflexivity | discriminate]. }
    assert (Hnone : Forall (fun e => conn_appId (snd e) <> "com.ghost"%string) (apps s)).
    { apply Forall_nil. }
    exact (proj1 (H "com.ghost"%string Hg Hnone)).
Defined.

(** *** Request and reply *)

(** X2.  A request under an id that is not in the table is forwarded to the
    application; when a reply with that id arrives, the client is sent the
    reply as it is, the watchers their copies, and the table and the armed
    timers are again what they were before the request. *)
Theorem request_reply_round_trip (port pid start : Z) (hist : list Event)
        (c w a : ws) (msg reply : Frame) (rid type : string) :
  let s0 := run (init port pid start) hist in
  is_register msg = false ->
  is_response msg = false ->
  f_id msg = Some rid -> rid <> ""%string ->
  f_type msg = Some type -> type <> ""%string ->
  serverHandlers type = None ->
  findAppSocket (apps s0) (appId (ws_data s0 c)) = Some a ->
  map_get String.eqb rid (pendingRequests s0) = None ->
  is_register reply = false ->
  is_response reply = true ->
  f_id reply = Some rid ->
  let s1 := message c (Parsed msg) s0 in
  let s2 := message w (Parsed reply) s1 in
  let tag := option_map conn_appId (map_get Nat.eqb a (apps s0)) in
  outbox s1 =
    outbox s0
      ++ map (fun o => (o, SBroadcast DirReq tag (forwarded rid type (f_payload msg))))
             (watchers s0)
      ++ [(a, SMsg (forwarded rid type (f_payload msg)))] /\
  outbox s2 =
    outbox s1
      ++ map (fun o => (o, SBroadcast DirRes tag reply)) (watchers s0)
      ++ [(c, SMsg reply)] /\
  pendingRequests s2 = pendingRequests s0 /\
  timers s2 = timers s0 /\
  apps s2 = apps s0.
Proof.
  intros s0 Hreg Hres Hid Hne Hty Hnt Hown Hfind Hfresh Hrreg Hrres Hrid s1 s2 tag.
  assert (Hwf0 : wf s0) by apply wf_reachable.
  assert (Hs1 : s1 = route_request c msg rid type s0)
    by (apply message_request; assumption).
  destruct (route_request_forward c msg rid type s0 Hown Hfind)
    as (Ha & Hw & _ & _ & _ & Ht & Hp & Ho).
  rewrite <- Hs1 in Ha, Hw, Ht, Hp, Ho.
  assert (Hs2 : s2 = route_response reply rid s1)
    by (apply message_response; assumption).
  assert (Hget : map_get String.eqb rid (pendingRequests s1)
                 = Some (mkPending c a (next_timer s0))).
  { rewrite Hp. apply (map_get_set_eq String.eqb_eq). }
  split; [exact Ho|].
  rewrite Hs2. unfold route_response. rewrite Hget. simpl.
  rewrite Ha, Hw, Hp, Ht. fold tag.
  split; [now rewrite <- app_assoc|]. split; [|split; [|reflexivity]].
  - rewrite (map_set_absent String.eqb rid _ _ Hfresh).
    apply (map_delete_snoc String.eqb String.eqb_eq). exact Hfresh.
  - apply (map_delete_snoc Nat.eqb Nat.eqb_eq). now apply timer_handle_fresh.
Qed.

Lemma request_reply_round_trip_witness :
  let s0 := run (init 8675 4242 0)
                [Connect 1 None None;
                 Message 1 (Parsed (Scenario.register_frame "com.a" None));
                 Connect 2 None None] in
  let s2 := message 1 (Parsed (Scenario.reply_frame "1" (JNum 7)))
              (message 2 (Parsed (Scenario.request_frame "1" "echo" None)) s0) in
  pendingRequests s2 = pendingRequests s0 /\ timers s2 = timers s0.
Proof.
  intros s0 s2.
  destruct (request_reply_round_trip 8675 4242 0
              [Connect 1 None None;
               Message 1 (Parsed (Scenario.register_frame "com.a" None));
               Connect 2 None None]
              2 1 1 (Scenario.request_frame "1" "echo" None)
              (Scenario.reply_frame "1" (JNum 7)) "1"%string "echo"%string
              eq_refl eq_refl eq_refl ltac:(discriminate) eq_refl
              ltac:(discriminate) eq_refl eq_refl eq_refl eq_refl eq_refl eq_refl)
    as (_ & _ & Hp & Ht & _).
  split; [exact Hp | exact Ht].
Defined.

(** *** Invariants of the two tables *)

Lemma timers_fire (h : nat) (s : State) :
  timers (fire h s) = map_delete Nat.eqb h (timers s) /\
  now (fire h s) = now s /\ next_timer (fire h s) = next_timer s /\
  apps (fire h s) = apps s /\ watchers (fire h s) = watchers s.
Proof.
  destruct (map_get Nat.eqb h (timers s)) as [t|] eqn:Hget.
  - destruct (@fire_armed h t s Hget) as (Ha & Hw & _ & Hn & Hnt & Ht & _).
    now rewrite Ha, Hw, Hn, Hnt, Ht.
  - rewrite (@fire_unarmed h s Hget).
    now rewrite (map_delete_absent Nat.eqb h (timers s) Hget).
Qed.

Lemma pending_fire (h : nat) (s : State) (e : string * PendingRequest) :
  In e (pendingRequests (fire h s)) -> In e (pendingRequests s).
Proof.
  destruct (map_get Nat.eqb h (timers s)) as [t|] eqn:Hget.
  - destruct (@fire_armed h t s Hget) as (_ & _ & _ & _ & _ & _ & Hp & _).
    rewrite Hp. intros Hin. now apply (In_map_delete String.eqb_eq) in Hin.
  - now rewrite (@fire_unarmed h s Hget).
Qed.

Lemma outbox_fire (h : nat) (s : State) (m : ws * Sent) :
  In m (outbox s) -> In m (outbox (fire h s)).
Proof.
  destruct (map_get Nat.eqb h (timers s)) as [t|] eqn:Hget.
  - destruct (@fire_armed h t s Hget) as (_ & _ & _ & _ & _ & _ & _ & Ho).
    rewrite Ho. intros Hin. apply in_or_app. now left.
  - now rewrite (@fire_unarmed h s Hget).
Qed.

Lemma fold_fire_timers (l : list (nat * Timer)) (s : State) :
  let s' := fold_left (fun acc e => fire (fst e) acc) l s in
  timers s' = filter (fun e => negb (existsb (Nat.eqb (fst e)) (keys l))) (timers s) /\
  now s' = now s /\ next_timer s' = next_timer s /\
  apps s' = apps s /\ watchers s' = watchers s.
Proof.
  revert s. induction l as [|[h t] l IH]; intros s; simpl.
  - repeat split. symmetry. apply forallb_filter_id. now apply forallb_forall.
  - destruct (IH (fire h s)) as (Ht & Hn & Hnt & Ha & Hw).
    destruct (timers_fire h s) as (Ht1 & Hn1 & Hnt1 & Ha1 & Hw1).
    simpl in Ht, Hn, Hnt, Ha, Hw. rewrite Ht, Hn, Hnt, Ha, Hw, Ht1, Hn1, Hnt1, Ha1, Hw1.
    repeat split. unfold map_delete. rewrite filter_filter. apply filter_ext.
    intros e. rewrite negb_orb. reflexivity.
Qed.

Lemma armed_same (s s' : State) :
  pendingRequests s' = pendingRequests s -> timers s' = timers s ->
  armed s -> armed s'.
Proof. unfold armed. intros -> ->. trivial. Qed.

Lemma armed_unique (s : State) (id id' : string) (p p' : PendingRequest) :
  armed s -> In (id, p) (pendingRequests s) -> In (id', p') (pendingRequests s) ->
  timer p = timer p' -> id = id'.
Proof.
  intros Harmed Hin Hin' Heq.
  destruct (Harmed id p Hin) as [d Hd]. destruct (Harmed id' p' Hin') as [d' Hd'].
  rewrite Heq in Hd. rewrite Hd in Hd'. now injection Hd'.
Qed.

Lemma armed_fire (h : nat) (s : State) : armed s -> armed (fire h s).
Proof.
  intros Harmed.
  destruct (map_get Nat.eqb h (timers s)) as [t|] eqn:Hget.
  - destruct (@fire_armed h t s Hget) as (_ & _ & _ & _ & _ & Ht & Hp & _).
    intros id p Hin. rewrite Hp in Hin. rewrite Ht.
    apply (In_map_delete String.eqb_eq) in Hin. destruct Hin as [Hin Hne].
    destruct (Harmed id p Hin) as [d Hd]. exists d.
    rewrite (map_get_delete_neq Nat.eqb_eq); [exact Hd|].
    intro Heq. apply Hne. simpl. rewrite <- Heq in Hd. rewrite Hget in Hd.
    injection Hd as ->. reflexivity.
  - now rewrite (@fire_unarmed h s Hget).
Qed.

Lemma armed_route_response (msg : Frame) (id : string) (s : State) :
  armed s -> armed (route_response msg id s).
Proof.
  intros Harmed. unfold route_response.
  destruct (map_get String.eqb id (pendingRequests s)) as [p|] eqn:Hget; [|assumption].
  intros id' p' Hin. simpl in Hin |- *.
  apply (In_map_delete String.eqb_eq) in Hin. destruct Hin as [Hin Hne].
  destruct (Harmed id' p' Hin) as [d Hd]. exists d.
  rewrite (map_get_delete_neq Nat.eqb_eq); [exact Hd|].
  intro Heq. apply Hne. simpl. symmetry.
  apply (armed_unique s id id' p p' Harmed); [|assumption|assumption].
  now apply (map_get_In String.eqb_eq).
Qed.

Lemma armed_route_request (w : ws) (msg : Frame) (id type : string) (s : State) :
  wf s -> armed s -> armed (route_request w msg id type s).
Proof.
  intros Hwf Harmed.
  destruct (serverHandlers type) as [handler|] eqn:Hown.
  - unfold route_request, handleServerCommand. rewrite Hown.
    now apply (armed_same s).
  - destruct (findAppSocket (apps s) (appId (ws_data s w))) as [a|] eqn:Hfind.
    + destruct (@route_request_forward w a msg id type s Hown Hfind)
        as (_ & _ & _ & _ & _ & Ht & Hp & _).
      intros id' p' Hin. rewrite Hp in Hin. rewrite Ht.
      apply In_map_set in Hin. destruct Hin as [Hin | Hin].
      * injection Hin as -> ->. simpl. eexists.
        apply (map_get_snoc_fresh Nat.eqb Nat.eqb_eq). now apply timer_handle_fresh.
      * destruct (Harmed id' p' Hin) as [d Hd]. exists d.
        now apply map_get_app_found.
    + unfold route_request, handleServerCommand. rewrite Hown, Hfind.
      destruct (negb _ && _); now apply (armed_same s).
Qed.

Lemma armed_cleanupApp (w : ws) (s : State) : armed s -> armed (cleanupApp w s).
Proof.
  intros Harmed. unfold cleanupApp.
  destruct (map_get Nat.eqb w (apps s)) as [info|]; [|assumption].
  match goal with
  | |- armed (fail_pending w ?l ?s2) =>
      destruct (fail_pending_effect w l s2) as (Hp & Ht & _)
  end.
  simpl in Hp, Ht |- *. intros id p Hin. rewrite Hp in Hin. rewrite Ht.
  apply filter_In in Hin. destruct Hin as [Hin Hkept].
  destruct (Harmed id p Hin) as [d Hd]. exists d.
  rewrite (map_get_filter Nat.eqb Nat.eqb_eq); [exact Hd|].
  intros v _. apply negb_true_iff. apply not_true_is_false. intro Ex.
  apply existsb_exists in Ex. destruct Ex as ([gid gp] & Hg & Hk).
  simpl in Hk. apply Nat.eqb_eq in Hk.
  assert (Hgin : In (gid, gp) (pendingRequests s)).
  { apply filter_In in Hg. apply Hg. }
  assert (Hsame : id = gid) by (apply (armed_unique s id gid p gp); assumption).
  apply negb_true_iff in Hkept.
  rewrite (proj2 (existsb_exists _ _)) in Hkept; [discriminate|].
  exists (gid, gp). split; [assumption|]. simpl. now apply String.eqb_eq.
Qed.

Lemma armed_message (w : ws) (raw : Raw) (s : State) :
  wf s -> armed s -> armed (message w raw s).
Proof.
  intros Hwf Harmed. destruct raw as [|msg]; [assumption|]. unfold message.
  destruct (is_register msg).
  - destruct (f_appId msg); [|assumption]. now apply (armed_same s).
  - destruct (is_response msg).
    + destruct (f_id msg); [now apply armed_route_response | assumption].
    + destruct (truthy_str (f_id msg) && truthy_str (f_type msg)); [|assumption].
      destruct (f_id msg); [|assumption].
      destruct (f_type msg); [now apply armed_route_request | assumption].
Qed.

Lemma armed_elapse (t : Z) (s : State) : armed s -> armed (elapse t s).
Proof.
  intros Harmed. unfold elapse.
  match goal with
  | |- armed (with_now _ ?s1) => apply (armed_same s1); try reflexivity
  end.
  apply (fold_fire_preserves armed (fun _ => True)).
  - intros h s0 _. apply armed_fire.
  - apply Forall_forall. trivial.
  - assumption.
Qed.

Lemma armed_step (s : State) (e : Event) : wf s -> armed s -> armed (step s e).
Proof.
  intros Hwf Harmed. destruct e as [w r a | w raw | w | t]; simpl.
  - unfold open. destruct (role _); now apply (armed_same s).
  - now apply armed_message.
  - unfold close. destruct (role _).
    + now apply armed_cleanupApp.
    + assumption.
    + now apply (armed_same s).
  - now apply armed_elapse.
Qed.

Lemma in_window_same (s s' : State) :
  timers s' = timers s -> now s' = now s -> in_window s -> in_window s'.
Proof. unfold in_window. intros -> ->. trivial. Qed.

Lemma in_window_sub (s s' : State) :
  (forall e, In e (timers s') -> In e (timers s)) -> now s' = now s ->
  in_window s -> in_window s'.
Proof.
  unfold in_window. intros Hsub -> Hwin h t Hin. apply Hwin with h. now apply Hsub.
Qed.

Lemma in_window_message (w : ws) (raw : Raw) (s : State) :
  in_window s -> in_window (message w raw s).
Proof.
  intros Hwin. destruct raw as [|msg]; [assumption|]. unfold message.
  destruct (is_register msg).
  - destruct (f_appId msg); [|assumption]. now apply (in_window_same s).
  - destruct (is_response msg).
    + destruct (f_id msg) as [id|]; [|assumption]. unfold route_response.
      destruct (map_get String.eqb id (pendingRequests s)) as [p|]; [|assumption].
      apply (in_window_sub s); [|reflexivity|assumption].
      simpl. intros e Hin. now apply (In_map_delete Nat.eqb_eq) in Hin.
    + destruct (truthy_str (f_id msg) && truthy_str (f_type msg)); [|assumption].
      destruct (f_id msg) as [id|]; [|assumption].
      destruct (f_type msg) as [type|]; [|assumption].
      destruct (serverHandlers type) as [handler|] eqn:Hown.
      * unfold route_request, handleServerCommand. rewrite Hown.
        now apply (in_window_same s).
      * destruct (findAppSocket (apps s) (appId (ws_data s w))) as [a|] eqn:Hfind.
        -- destruct (@route_request_forward w a msg id type s Hown Hfind)
             as (_ & _ & _ & Hn & _ & Ht & _).
           intros h t Hin. rewrite Ht in Hin. rewrite Hn.
           apply in_app_or in Hin. destruct Hin as [Hin | [Hin | []]].
           ++ now apply Hwin with h.
           ++ injection Hin as _ <-. simpl. unfold REQUEST_TIMEOUT. lia.
        -- unfold route_request, handleServerCommand. rewrite Hown, Hfind.
           destruct (negb _ && _); now apply (in_window_same s).
Qed.

Lemma in_window_elapse (t : Z) (s : State) : in_window s -> in_window (elapse t s).
Proof.
  intros Hwin. unfold elapse.
  match goal with
  | |- context [fold_left ?f ?l s] =>
      destruct (fold_fire_timers l s) as (Ht & Hn & _)
  end.
  simpl in Ht, Hn. intros h tm Hin. simpl in Hin |- *. rewrite Ht in Hin. rewrite Hn.
  apply filter_In in Hin. destruct Hin as [Hin Hkept].
  specialize (Hwin h tm Hin).
  assert (Hlate : (t < due tm)%Z).
  { destruct (due tm <=? t)%Z eqn:Hdue; [|now apply Z.leb_gt].
    exfalso. apply negb_true_iff in Hkept.
    assert (Ex : existsb (Nat.eqb (fst (h, tm)))
                   (keys (filter (fun e => (due (snd e) <=? t)%Z) (timers s))) = true).
    { apply existsb_exists. exists h. split; [|apply Nat.eqb_refl].
      change h with (fst (h, tm)). apply in_map. apply filter_In. now split. }
    congruence. }
  lia.
Qed.

Lemma in_window_step (s : State) (e : Event) : in_window s -> in_window (step s e).
Proof.
  intros Hwin. destruct e as [w r a | w raw | w | t]; simpl.
  - unfold open. destruct (role _); now apply (in_window_same s).
  - now apply in_window_message.
  - unfold close. destruct (role _).
    + unfold cleanupApp. destruct (map_get Nat.eqb w (apps s)) as [info|]; [|assumption].
      match goal with
      | |- in_window (fail_pending w ?l ?s2) =>
          destruct (fail_pending_effect w l s2) as (_ & Ht & _ & _ & _ & _ & _ & Hn)
      end.
      apply (in_window_sub s); [|exact Hn|assumption].
      rewrite Ht. simpl. intros e Hin. apply filter_In in Hin. apply Hin.
    + assumption.
    + now apply (in_window_same s).
  - now apply in_window_elapse.
Qed.

Lemma tables_reachable (port pid start : Z) (hist : list Event) :
  let s := run (init port pid start) hist in
  wf s /\ armed s /\ in_window s.
Proof.
  cbv zeta. unfold run.
  assert (Hinit : wf (init port pid start) /\ armed (init port pid start)
                  /\ in_window (init port pid start)).
  { split; [apply wf_init|]. split; intros ? ? []. }
  revert Hinit. generalize (init port pid start).
  induction hist as [|e hist IH]; intros s (Hwf & Harmed & Hwin); simpl.
  - exact (conj Hwf (conj Harmed Hwin)).
  - apply IH. split; [now apply wf_step|].
    split; [now apply armed_step | now apply in_window_step].
Qed.

(** X3.  In every reachable state a pending correlation has its timer armed; the
    timer carries the correlation's id and client and is due after now and
    at most 30 seconds from now. *)
Theorem pending_has_deadline (port pid start : Z) (hist : list Event)
        (id : string) (p : PendingRequest) :
  let s := run (init port pid start) hist in
  map_get String.eqb id (pendingRequests s) = Some p ->
  exists d,
    map_get Nat.eqb (timer p) (timers s) = Some (mkTimer d id (cliSocket p)) /\
    (now s < d <= now s + 30000)%Z.
Proof.
  intros s Hget.
  destruct (tables_reachable port pid start hist) as (Hwf & Harmed & Hwin).
  fold s in Hwf, Harmed, Hwin.
  apply (map_get_In String.eqb_eq) in Hget.
  destruct (Harmed id p Hget) as [d Hd]. exists d. split; [exact Hd|].
  apply (map_get_In Nat.eqb_eq) in Hd. apply (Hwin _ _ Hd).
Qed.

Lemma pending_has_deadline_witness :
  exists d,
    map_get Nat.eqb 0 (timers Scenario.one_in_flight) = Some (mkTimer d "1" 2) /\
    (now Scenario.one_in_flight < d <= now Scenario.one_in_flight + 30000)%Z.
Proof.
  exact (pending_has_deadline 8675 4242 0
           [Connect 1 None None;
            Message 1 (Parsed (Scenario.register_frame "com.a" None));
            Connect 2 None None;
            Message 2 (Parsed (Scenario.request_frame "1" "echo" None))]
           "1"%string (mkPending 2 1 0) eq_refl).
Defined.

(** *** Thirty seconds of silence *)

Lemma outbox_fold_fire (m : ws * Sent) (l : list (nat * Timer)) (s : State) :
  In m (outbox s) -> In m (outbox (fold_left (fun acc e => fire (fst e) acc) l s)).
Proof.
  intros Hin.
  apply (fold_fire_preserves (fun s0 => In m (outbox s0)) (fun _ => True)).
  - intros h s0 _. apply outbox_fire.
  - apply Forall_forall. trivial.
  - assumption.
Qed.

Lemma fire_each (l : list (nat * Timer)) (s : State) :
  NoDup (keys l) ->
  (forall h t, In (h, t) l -> map_get Nat.eqb h (timers s) = Some t) ->
  let s' := fold_left (fun acc e => fire (fst e) acc) l s in
  (forall h t, In (h, t) l ->
     In (t_ws t, SMsg (timeout_response (t_id t))) (outbox s')) /\
  (forall e, In e (pendingRequests s') ->
     In e (pendingRequests s) /\ forall h t, In (h, t) l -> t_id t <> fst e).
Proof.
  revert s. induction l as [|[h t] l IH]; intros s Hnd Harmed; simpl.
  - split; [intros ? ? [] | intros e He; split; [assumption | intros ? ? []]].
  - inversion Hnd as [|? ? Hnotin Hnd']; subst.
    assert (Hget : map_get Nat.eqb h (timers s) = Some t) by (apply Harmed; now left).
    destruct (@fire_armed h t s Hget) as (_ & _ & _ & _ & _ & Ht & Hp & Ho).
    assert (Hrest : forall h' t', In (h', t') l ->
                      map_get Nat.eqb h' (timers (fire h s)) = Some t').
    { intros h' t' Hin. rewrite Ht. rewrite (map_get_delete_neq Nat.eqb_eq).
      - apply Harmed. now right.
      - intro Heq. apply Hnotin. subst h'.
        change h with (fst (h, t')). now apply in_map. }
    destruct (IH (fire h s) Hnd' Hrest) as (Hsent & Hpend). split.
    + intros h' t' [Hin | Hin].
      * injection Hin as <- <-. apply outbox_fold_fire. rewrite Ho.
        apply in_or_app. right. now left.
      * now apply Hsent with h'.
    + intros e He. destruct (Hpend e He) as (Hin & Hids).
      rewrite Hp in Hin. apply (In_map_delete String.eqb_eq) in Hin.
      destruct Hin as [Hin Hne]. split; [assumption|].
      intros h' t' [Heq | Hin'].
      * injection Heq as <- <-. congruence.
      * now apply Hids with h'.
Qed.

(** X4.  From any reachable state, once the clock has moved on by the request
    timeout with nothing else happening, every client that had a request
    pending has been sent the timeout error for it, and no correlation and
    no timer is left. *)
Theorem all_resolved_in_time (port pid start : Z) (hist : list Event) :
  let s := run (init port pid start) hist in
  let s' := elapse (now s + REQUEST_TIMEOUT) s in
  pendingRequests s' = [] /\
  timers s' = [] /\
  (forall id p, map_get String.eqb id (pendingRequests s) = Some p ->
                In (cliSocket p, SMsg (timeout_response id)) (outbox s')).
Proof.
  intros s s'.
  destruct (tables_reachable port pid start hist) as (Hwf & Harmed & Hwin).
  fold s in Hwf, Harmed, Hwin.
  assert (Hready : filter (fun e => (due (snd e) <=? now s + REQUEST_TIMEOUT)%Z) (timers s)
                   = timers s).
  { apply forallb_filter_id. apply forallb_forall. intros [h t] Hin.
    apply Z.leb_le. apply (Hwin h t Hin). }
  subst s'. unfold elapse. rewrite Hready. simpl.
  destruct (fire_each (timers s) s (wf_timer_keys Hwf)) as (Hsent & Hpend).
  { intros h t Hin. now apply (In_map_get_nodup Nat.eqb_eq), Hin; apply Hwf. }
  destruct (fold_fire_timers (timers s) s) as (Ht & _).
  simpl in Hsent, Hpend, Ht. split; [|split].
  - destruct (pendingRequests _) as [|[id p] rest] eqn:E; [reflexivity|].
    exfalso. destruct (Hpend (id, p)) as (Hin & Hids); [now left|].
    destruct (Harmed id p Hin) as [d Hd].
    apply (map_get_In Nat.eqb_eq) in Hd. now apply (Hids _ _ Hd).
  - rewrite Ht. apply filter_none. apply Forall_forall. intros [h t] Hin.
    apply negb_false_iff. apply existsb_exists. exists h. split.
    + change h with (fst (h, t)). now apply in_map.
    + apply Nat.eqb_refl.
  - intros id p Hget. apply (map_get_In String.eqb_eq) in Hget.
    destruct (Harmed id p Hget) as [d Hd].
    apply (map_get_In Nat.eqb_eq) in Hd.
    apply (Hsent _ _ Hd).
Qed.

Lemma all_resolved_in_time_witness :
  let s := Scenario.one_in_flight in
  In (2, SMsg (timeout_response "1")) (outbox (elapse (now s + REQUEST_TIMEOUT) s)).
Proof.
  destruct (all_resolved_in_time 8675 4242 0
              [Connect 1 None None;
               Message 1 (Parsed (Scenario.register_frame "com.a" None));
               Connect 2 None None;
               Message 2 (Parsed (Scenario.request_frame "1" "echo" None))])
    as (_ & _ & H).
  exact (H "1"%string (mkPending 2 1 0) eq_refl).
Defined.

(** *** The id list of the ambiguity error *)

Lemma dedup_spec (xs seen : list string) :
  NoDup (dedup seen xs) /\
  forall x, In x (dedup seen xs) <-> In x xs /\ existsb (String.eqb x) seen = false.
Proof.
  revert seen. induction xs as [|y rest IH]; intros seen; simpl.
  - split; [constructor | intros x; tauto].
  - destruct (existsb (String.eqb y) seen) eqn:Ey.
    + destruct (IH seen) as (Hnd & Hin). split; [assumption|].
      intros x. rewrite Hin. split.
      * intros [H1 H2]. split; [now right | assumption].
      * intros [[-> | H1] H2]; [congruence | now split].
    + destruct (IH (y :: seen)) as (Hnd & Hin). split.
      * constructor; [|assumption]. intro Hy. apply Hin in Hy.
        destruct Hy as [_ Hy]. simpl in Hy. now rewrite String.eqb_refl in Hy.
      * intros x. simpl. rewrite Hin. simpl. split.
        -- intros [-> | [H1 H2]]; [split; [now left | assumption]|].
           apply orb_false_iff in H2. split; [now right | apply H2].
        -- intros [[-> | H1] H2]; [now left|].
           destruct (String.eqb x y) eqn:Exy.
           ++ apply String.eqb_eq in Exy. subst. now left.
           ++ right. split; [assumption|]. simpl. exact H2.
Qed.

Lemma listAppIds_spec (registry : list (ws * AppConnection)) :
  NoDup (listAppIds registry) /\
  forall a, In a (listAppIds registry) <->
            exists w info, In (w, info) registry /\ conn_appId info = a.
Proof.
  unfold listAppIds.
  destruct (dedup_spec (map (fun e => conn_appId (snd e)) registry) []) as (Hnd & Hin).
  split; [assumption|]. intros a. rewrite Hin. simpl. rewrite in_map_iff. split.
  - intros [([w info] & Ha & Hreg) _]. now exists w, info.
  - intros (w & info & Hreg & Ha). split; [|reflexivity]. now exists (w, info).
Qed.

(** X5.  [listAppIds] names every registered application id, each once, however
    many sockets share it. *)
Theorem listAppIds_exact (registry : list (ws * AppConnection)) :
  NoDup (listAppIds registry) /\
  forall a, In a (listAppIds registry) <->
            exists w info, In (w, info) registry /\ conn_appId info = a.
Proof.
  exact (listAppIds_spec registry).
Qed.

(** *** The listing of handlers *)



(** *** The registry and the watcher set *)

Lemma set_add_NoDup (x : nat) (l : list nat) : NoDup l -> NoDup (set_add x l).
Proof.
  intros Hnd. unfold set_add. destruct (existsb (Nat.eqb x) l) eqn:E; [assumption|].
  apply NoDup_snoc; [assumption|]. intro Hin.
  assert (Ex : existsb (Nat.eqb x) l = true).
  { apply existsb_exists. exists x. split; [assumption | apply Nat.eqb_refl]. }
  congruence.
Qed.

Lemma message_registry (w : ws) (raw : Raw) (s : State) :
  watchers (message w raw s) = watchers s /\
  (apps (message w raw s) = apps s \/
   exists conn, apps (message w raw s) = map_set Nat.eqb w conn (apps s)).
Proof.
  destruct raw as [|msg]; [now split; [|left]|]. unfold message.
  destruct (is_register msg).
  - destruct (f_appId msg) as [a|]; [|now split; [|left]].
    unfold register. simpl. split; [reflexivity|]. right. eexists. reflexivity.
  - destruct (is_response msg).
    + destruct (f_id msg) as [id|]; [|now split; [|left]]. unfold route_response.
      destruct (map_get String.eqb id (pendingRequests s)); now split; [|left].
    + destruct (truthy_str (f_id msg) && truthy_str (f_type msg)); [|now split; [|left]].
      destruct (f_id msg) as [id|]; [|now split; [|left]].
      destruct (f_type msg) as [type|]; [|now split; [|left]].
      unfold route_request, handleServerCommand.
      destruct (serverHandlers type); [now split; [|left]|].
      destruct (findAppSocket (apps s) (appId (ws_data s w))); [now split; [|left]|].
      destruct (negb _ && _); now split; [|left].
Qed.

Lemma cleanupApp_registry (w : ws) (s : State) :
  watchers (cleanupApp w s) = watchers s /\
  apps (cleanupApp w s) = map_delete Nat.eqb w (apps s).
Proof.
  unfold cleanupApp. destruct (map_get Nat.eqb w (apps s)) as [info|] eqn:Hget.
  - match goal with
    | |- context [fail_pending w ?l ?s2] =>
        destruct (fail_pending_effect w l s2) as (_ & _ & _ & Ha & Hw & _)
    end.
    now rewrite Ha, Hw.
  - split; [reflexivity|]. symmetry. now apply map_delete_absent.
Qed.

Lemma sets_ok_step (s : State) (e : Event) : sets_ok s -> sets_ok (step s e).
Proof.
  intros [Happs Hwatch]. destruct e as [w r a | w raw | w | t]; simpl.
  - unfold open. destruct (role _); split; simpl; try assumption.
    now apply set_add_NoDup.
  - destruct (message_registry w raw s) as (Hw & [Ha | (conn & Ha)]);
      split; rewrite ?Hw, ?Ha; try assumption.
    now apply (NoDup_keys_set Nat.eqb_eq).
  - unfold close. destruct (role _).
    + destruct (cleanupApp_registry w s) as (Hw & Ha). split; rewrite ?Hw, ?Ha.
      * now apply NoDup_keys_delete.
      * assumption.
    + now split.
    + split; simpl; [assumption|]. unfold set_delete. now apply NoDup_filter.
  - unfold elapse.
    match goal with
    | |- context [fold_left ?f ?l s] =>
        destruct (fold_fire_timers l s) as (_ & _ & _ & Ha & Hw)
    end.
    simpl in Ha, Hw. split; simpl; now rewrite ?Ha, ?Hw.
Qed.

(** X7.  In every reachable state a socket is in the registry at most once and
    among the watchers at most once: a listing shows it once, and a
    broadcast sends it one copy. *)
Theorem sockets_listed_once (port pid start : Z) (hist : list Event) :
  let s := run (init port pid start) hist in
  NoDup (keys (apps s)) /\ NoDup (watchers s) /\
  List.length (listAppIds (apps s)) <= List.length (apps s).
Proof.
  cbv zeta.
  assert (Hok : sets_ok (run (init port pid start) hist)).
  { unfold run. assert (Hinit : sets_ok (init port pid start))
      by (split; constructor).
    revert Hinit. generalize (init port pid start).
    induction hist as [|e hist IH]; intros s Hs; simpl; [assumption|].
    apply IH. now apply sets_ok_step. }
  destruct Hok as [Ha Hw]. split; [assumption|]. split; [assumption|].
  set (registry := apps (run (init port pid start) hist)).
  destruct (listAppIds_spec registry) as (Hnd & Hin).
  replace (List.length registry)
    with (List.length (map (fun e : ws * AppConnection => conn_appId (snd e)) registry))
    by apply length_map.
  apply NoDup_incl_length; [assumption|].
  intros a Hain. apply Hin in Hain. destruct Hain as (w & info & Hreg & <-).
  apply in_map_iff. now exists (w, info).
Qed.

Lemma registration_effect (s : State) (w : ws) (reg : Frame) (a : string) :
  is_register reg = true ->
  f_appId reg = Some a ->
  let s' := message w (Parsed reg) s in
  map_get Nat.eqb w (apps s')
  = Some (mkAppConnection a (now s)
            (if truthy (f_handlers reg) then f_handlers reg else None)) /\
  ws_data s' w = mkClientData RoleApp (Some a) /\
  (forall w', w' <> w -> map_get Nat.eqb w' (apps s') = map_get Nat.eqb w' (apps s)) /\
  keys (apps s') = (if existsb (Nat.eqb w) (keys (apps s)) then keys (apps s)
                    else keys (apps s) ++ [w]) /\
  outbox s' = outbox s ++ map (fun o => (o, SBroadcast DirReq (Some a)
                                              (register_notice a (f_handlers reg))))
                              (watchers s) /\
  pendingRequests s' = pendingRequests s /\ timers s' = timers s.
Proof.
  intros Hreg Ha s'. subst s'. unfold message. rewrite Hreg, Ha.
  split; [|split; [|split; [|split; [|split; [|split]]]]]; try reflexivity.
  - unfold register. simpl. apply (map_get_set_eq Nat.eqb_eq).
  - unfold ws_data, register. simpl. now rewrite (map_get_set_eq Nat.eqb_eq).
  - intros w' Hne. unfold register. simpl.
    apply (map_get_set_neq Nat.eqb_eq). congruence.
  - apply register_order.
Qed.

(** X8.  A registration replaces whatever the socket had registered before: its
    entry holds the new id, the time, and the handlers of this frame only
    (none if the frame has none), in the place the socket already had; the
    entries of the other sockets stay as they were; the watchers are sent
    the notice. *)
Theorem registration_replaces (s : State) (w : ws) (reg : Frame) (a : string) :
  is_register reg = true ->
  f_appId reg = Some a ->
  let s' := message w (Parsed reg) s in
  map_get Nat.eqb w (apps s')
  = Some (mkAppConnection a (now s)
            (if truthy (f_handlers reg) then f_handlers reg else None)) /\
  ws_data s' w = mkClientData RoleApp (Some a) /\
  (forall w', w' <> w -> map_get Nat.eqb w' (apps s') = map_get Nat.eqb w' (apps s)) /\
  keys (apps s') = (if existsb (Nat.eqb w) (keys (apps s)) then keys (apps s)
                    else keys (apps s) ++ [w]) /\
  outbox s' = outbox s ++ map (fun o => (o, SBroadcast DirReq (Some a)
                                              (register_notice a (f_handlers reg))))
                              (watchers s) /\
  pendingRequests s' = pendingRequests s /\ timers s' = timers s.
Proof.
  exact (registration_effect s w reg a).
Qed.

Lemma registration_replaces_witness :
  let s := message 1 (Parsed (Scenario.register_frame "com.a" (Some (JArr [JNull]))))
                   Scenario.boot in
  let s' := message 1 (Parsed (Scenario.register_frame "com.b" None)) s in
  map_get Nat.eqb 1 (apps s') = Some (mkAppConnection "com.b" 0 None) /\
  keys (apps s') = [1].
Proof.
  intros s s'.
  destruct (registration_replaces s 1 (Scenario.register_frame "com.b" None)
              "com.b"%string eq_refl eq_refl) as (H & _ & _ & K & _).
  split; [exact H | exact K].
Defined.

(** *** The relay's own commands *)

(** X9.  A request for [ping], [list-apps] or [list-handlers] is answered by the
    relay itself with [ok: true], whoever asks and whatever is registered:
    the requester is sent the one response, the watchers nothing, and the
    registry, the pending table and the timers stay as they were. *)
Theorem own_commands_answered (s : State) (w : ws) (msg : Frame) (id type : string) :
  is_register msg = false ->
  is_response msg = false ->
  f_id msg = Some id -> id <> ""%string ->
  f_type msg = Some type ->
  own_command type ->
  let s' := message w (Parsed msg) s in
  let payload := match f_payload msg with
                 | None | Some JNull => JObj []
                 | Some p => p
                 end in
  let result :=
    if (type =? "ping")%string then JObj []
    else if (type =? "list-apps")%string then list_apps s
    else list_handlers s payload in
  outbox s' = outbox s ++ [(w, SMsg (response_ok id result))] /\
  apps s' = apps s /\ watchers s' = watchers s /\ data s' = data s /\
  pendingRequests s' = pendingRequests s /\ timers s' = timers s.
Proof.
  intros Hreg Hres Hid Hne Hty Hown s' payload result. subst s'.
  assert (Hnt : type <> ""%string).
  { destruct Hown as [-> | [-> | ->]]; discriminate. }
  rewrite (message_request w msg s Hreg Hres Hid Hne Hty Hnt).
  unfold route_request, handleServerCommand. subst result payload.
  destruct Hown as [-> | [-> | ->]]; simpl; repeat split.
Qed.

Lemma own_commands_answered_witness :
  let s := Scenario.two_apps in
  outbox (message 2 (Parsed (Scenario.request_frame "9" "ping" None)) s)
  = outbox s ++ [(2, SMsg (response_ok "9" (JObj [])))].
Proof.
  intros s.
  destruct (own_commands_answered s 2 (Scenario.request_frame "9" "ping" None)
              "9"%string "ping"%string eq_refl eq_refl eq_refl
              ltac:(discriminate) eq_refl (or_introl eq_refl)) as (H & _).
  exact H.
Defined.

(** *** Payloads of no shape *)




(** *** Where requests are forwarded *)

Lemma findAppSocket_registered (registry : list (ws * AppConnection))
      (target : option string) (w : ws) :
  findAppSocket registry target = Some w ->
  exists info, In (w, info) registry /\
               (forall t, given target t -> conn_appId info = t).
Proof.
  unfold findAppSocket. destruct (List.length registry =? 0); [discriminate|].
  destruct (truthy_str target) eqn:Htr; simpl.
  - destruct (filter _ registry) as [|[w0 info] rest] eqn:Hf; [discriminate|].
    intros H. injection H as <-.
    assert (Hin : In (w0, info) (filter (fun e => opt_str_is target (conn_appId (snd e)))
                                        registry)).
    { rewrite Hf. now left. }
    apply filter_In in Hin. destruct Hin as [Hin Hm]. exists info. split; [assumption|].
    intros t [-> _]. simpl in Hm. apply String.eqb_eq in Hm. now symmetry.
  - destruct registry as [|[w0 info] [|e rest]]; try discriminate.
    intros H. injection H as <-. exists info. split; [now left|].
    intros t [-> Hne]. simpl in Htr. apply negb_false_iff in Htr.
    apply String.eqb_eq in Htr. contradiction.
Qed.

(** X11.  A request is only ever forwarded to a socket that is in the registry,
    under the target's id when the client named one; and once a registered
    application's socket has closed, no target resolves to it. *)
Theorem forwarded_to_registered (s : State) (w a : ws) (msg : Frame)
        (id type : string) :
  is_register msg = false ->
  is_response msg = false ->
  f_id msg = Some id -> id <> ""%string ->
  f_type msg = Some type -> type <> ""%string ->
  (forall f, In (a, SMsg f) (skipn (List.length (outbox s))
                                   (outbox (message w (Parsed msg) s))) ->
             a <> w ->
             exists info, In (a, info) (apps s) /\
                          (forall t, given (appId (ws_data s w)) t ->
                                     conn_appId info = t)) /\
  (forall target, role (ws_data s a) = RoleApp ->
                  findAppSocket (apps (close a s)) target <> Some a).
Proof.
  intros Hreg Hres Hid Hne Hty Hnt. split.
  - rewrite (message_request w msg s Hreg Hres Hid Hne Hty Hnt).
    unfold route_request, handleServerCommand.
    destruct (serverHandlers type) as [handler|] eqn:Hown.
    + simpl. rewrite since_app, since_all by lia. simpl.
      intros f [Hin | []] Hneq. injection Hin as -> _. contradiction.
    + destruct (findAppSocket (apps s) (appId (ws_data s w))) as [a'|] eqn:Hfind.
      * simpl. rewrite <- app_assoc. rewrite since_app, since_all by lia. simpl.
        intros f Hin Hneq. apply in_app_or in Hin. destruct Hin as [Hin | [Hin | []]].
        -- apply in_map_iff in Hin. destruct Hin as (o & Ho & _). discriminate.
        -- injection Hin as -> _. now apply findAppSocket_registered.
      * destruct (negb _ && _); simpl; rewrite since_app, since_all by lia; simpl;
          intros f [Hin | []] Hneq; injection Hin as -> _; contradiction.
  - intros target Hrole Hfind. unfold close in Hfind. rewrite Hrole in Hfind.
    destruct (cleanupApp_registry a s) as (_ & Ha). rewrite Ha in Hfind.
    apply findAppSocket_registered in Hfind. destruct Hfind as (info & Hin & _).
    apply (In_map_delete Nat.eqb_eq) in Hin. now destruct Hin as [_ Hin].
Qed.

Lemma forwarded_to_registered_witness :
  findAppSocket (apps (close 1 Scenario.one_in_flight)) (Some "com.a"%string)
  <> Some 1.
Proof.
  destruct (forwarded_to_registered Scenario.one_in_flight 2 1
              (Scenario.request_frame "3" "echo" None) "3"%string "echo"%string
              eq_refl eq_refl eq_refl ltac:(discriminate) eq_refl
              ltac:(discriminate)) as (_ & H).
  exact (H (Some "com.a"%string) eq_refl).
Defined.

(** *** A watcher that registers *)

(** X12.  A socket that connected as a watcher and then registers as an
    application is handled as an application when it closes: it leaves the
    registry but stays in the watcher set, and later broadcasts are still
    addressed to it. *)
Theorem watcher_turned_app_stays (s : State) (w : ws) (reg : Frame) (a : string) :
  In w (watchers s) ->
  is_register reg = true ->
  f_appId reg = Some a ->
  let s' := close w (message w (Parsed reg) s) in
  In w (watchers s') /\
  map_get Nat.eqb w (apps s') = None /\
  (forall w2 reg2 a2, is_register reg2 = true -> f_appId reg2 = Some a2 ->
     In (w, SBroadcast DirReq (Some a2) (register_notice a2 (f_handlers reg2)))
        (outbox (message w2 (Parsed reg2) s'))).
Proof.
  intros Hin Hreg Ha s'.
  destruct (registration_effect s w reg a Hreg Ha) as (_ & Hdata & _).
  destruct (message_registry w (Parsed reg) s) as (Hw & _).
  assert (Hs' : s' = cleanupApp w (message w (Parsed reg) s)).
  { subst s'. unfold close. cbv zeta in Hdata. now rewrite Hdata. }
  destruct (cleanupApp_registry w (message w (Parsed reg) s)) as (Hw' & Ha').
  rewrite <- Hs' in Hw', Ha'.
  assert (Hstill : In w (watchers s')) by now rewrite Hw', Hw.
  split; [assumption|]. split.
  - rewrite Ha'. apply map_get_delete_eq.
  - intros w2 reg2 a2 Hreg2 Ha2.
    destruct (registration_effect s' w2 reg2 a2 Hreg2 Ha2)
      as (_ & _ & _ & _ & Ho & _).
    cbv zeta in Ho. rewrite Ho. apply in_or_app. right.
    apply in_map_iff. exists w. now split.
Qed.

Lemma watcher_turned_app_stays_witness :
  let s := run Scenario.boot [Connect 4 (Some "watch"%string) None] in
  In 4 (watchers (close 4 (message 4 (Parsed (Scenario.register_frame "com.a" None)) s))).
Proof.
  intros s.
  assert (Hin : In 4 (watchers s)) by (left; reflexivity).
  destruct (watcher_turned_app_stays s 4 (Scenario.register_frame "com.a" None)
              "com.a"%string Hin eq_refl eq_refl) as (H & _).
  exact H.
Defined.

(** *** Shutdown *)

Lemma fold_clearTimeout (l : list (string * PendingRequest)) (s : State) :
  let s' := fold_left (fun acc e => clearTimeout (timer (snd e)) acc) l s in
  timers s' = filter (fun t => negb (existsb (fun e => fst t =? timer (snd e)) l))
                     (timers s) /\
  outbox s' = outbox s /\ apps s' = apps s /\ watchers s' = watchers s.
Proof.
  revert s. induction l as [|e l IH]; intros s; simpl.
  - repeat split. symmetry. apply forallb_filter_id. now apply forallb_forall.
  - destruct (IH (clearTimeout (timer (snd e)) s)) as (Ht & Ho & Ha & Hw).
    simpl in Ht, Ho, Ha, Hw. rewrite Ht, Ho, Ha, Hw. repeat split.
    unfold map_delete. rewrite filter_filter. apply filter_ext.
    intros t. now rewrite negb_orb.
Qed.

(** X13.  [shutdown] empties the pending table and clears the timer of every
    pending correlation, and sends nothing: a client with a request pending
    is not told. *)
Theorem shutdown_silent (s : State) :
  let s' := shutdown s in
  pendingRequests s' = [] /\
  outbox s' = outbox s /\
  (forall id p, In (id, p) (pendingRequests s) ->
                map_get Nat.eqb (timer p) (timers s') = None) /\
  (forall e, In e (timers s') -> In e (timers s)).
Proof.
  unfold shutdown. destruct (fold_clearTimeout (pendingRequests s) s) as (Ht & Ho & _).
  simpl in Ht, Ho |- *. rewrite Ht, Ho. repeat split.
  - intros id p Hin. apply (map_get_notin Nat.eqb Nat.eqb_eq).
    intros Hk. apply in_map_iff in Hk. destruct Hk as ([h t] & Hh & Hk).
    simpl in Hh. subst h. apply filter_In in Hk. destruct Hk as [_ Hk].
    apply negb_true_iff in Hk.
    rewrite (proj2 (existsb_exists _ _)) in Hk; [discriminate|].
    exists (id, p). split; [assumption|]. simpl. apply Nat.eqb_refl.
  - intros e He. apply filter_In in He. apply He.
Qed.

Lemma shutdown_silent_witness :
  map_get Nat.eqb 0 (timers (shutdown Scenario.one_in_flight)) = None.
Proof.
  destruct (shutdown_silent Scenario.one_in_flight) as (_ & _ & H & _).
  apply (H "1"%string (mkPending 2 1 0)). left. reflexivity.
Defined.
End RelayMoreFacts.

(** ** More of the client *)

Module ClientMoreFacts.
Import Client ClientMore ClientFacts.

#[local] Unset Implicit Arguments.

(** *** The advertised schemas *)

Lemma findIndex_found {A : Type} (p : A -> bool) (xs : list A) (i : nat) :
  findIndex p xs = Some i ->
  exists pre x post, xs = pre ++ x :: post /\ List.length pre = i /\ p x = true.
Proof.
  revert i. induction xs as [|y rest IH]; intros i; simpl; [discriminate|].
  destruct (p y) eqn:Hy.
  - intros H. injection H as <-. now exists [], y, rest.
  - destruct (findIndex p rest) as [j|]; [|discriminate].
    intros H. injection H as <-.
    destruct (IH j eq_refl) as (pre & x & post & -> & Hlen & Hx).
    exists (y :: pre), x, post. simpl. now rewrite Hlen.
Qed.

Lemma findIndex_none {A : Type} (p : A -> bool) (xs : list A) :
  findIndex p xs = None -> forall x, In x xs -> p x = false.
Proof.
  induction xs as [|y rest IH]; simpl; [intros _ x []|].
  destruct (p y) eqn:Hy; [discriminate|].
  destruct (findIndex p rest); [discriminate|].
  intros _ x [<- | Hin]; [assumption | now apply IH].
Qed.

Lemma assign_middle {A : Type} (pre post : list A) (x y : A) :
  assign (List.length pre) y (pre ++ x :: post) = pre ++ y :: post.
Proof. induction pre as [|z pre IH]; simpl; [reflexivity | now rewrite IH]. Qed.

(** What [registerHandler] does to the schema list. *)
Lemma schemas_registerHandler (type : string) (config : HandlerConfig) (s : State) :
  let schema := mkSchema type (description config) (fields config) in
  (exists pre old post,
      handlerSchemas s = pre ++ old :: post /\ schema_type old = type /\
      handlerSchemas (registerHandler type config s) = pre ++ schema :: post) \/
  ((forall sc, In sc (handlerSchemas s) -> schema_type sc <> type) /\
   handlerSchemas (registerHandler type config s) = handlerSchemas s ++ [schema]).
Proof.
  intros schema. unfold registerHandler.
  destruct (findIndex _ (handlerSchemas s)) as [i|] eqn:Hfind.
  - left. destruct (findIndex_found _ _ _ Hfind) as (pre & old & post & Hl & Hlen & Hp).
    exists pre, old, post. simpl. rewrite Hl. split; [reflexivity|].
    split; [now apply String.eqb_eq|]. rewrite <- Hlen. apply assign_middle.
  - right. split; [|reflexivity].
    intros sc Hin. apply String.eqb_neq. now apply (findIndex_none _ _ Hfind).
Qed.

Lemma schemas_ok_registerHandler (type : string) (config : HandlerConfig) (s : State) :
  schemas_ok s -> schemas_ok (registerHandler type config s).
Proof.
  intros [Hnd Hhas]. split.
  - destruct (schemas_registerHandler type config s)
      as [(pre & old & post & Hl & Hold & Hl') | (Hnone & Hl')]; rewrite Hl'.
    + rewrite Hl in Hnd. rewrite map_app in Hnd |- *. simpl in Hnd |- *.
      now rewrite Hold in Hnd.
    + rewrite map_app. simpl. apply RelayFacts.NoDup_snoc; [assumption|].
      intro Hin. apply in_map_iff in Hin. destruct Hin as (sc & Hty & Hin).
      now apply (Hnone sc Hin).
  - intros sc Hin. rewrite handlers_registerHandler.
    destruct (String.eqb type (schema_type sc)) eqn:E.
    + apply String.eqb_eq in E. rewrite <- E. eexists.
      apply (map_get_set_eq String.eqb_eq).
    + apply String.eqb_neq in E. rewrite (map_get_set_neq String.eqb_eq) by assumption.
      apply Hhas.
      destruct (schemas_registerHandler type config s)
        as [(pre & old & post & Hl & Hold & Hl') | (Hnone & Hl')]; rewrite Hl' in Hin.
      * rewrite Hl. apply in_app_or in Hin. apply in_or_app.
        destruct Hin as [Hin | [Hin | Hin]]; [now left | | right; now right].
        subst sc. simpl in E. congruence.
      * apply in_app_or in Hin. destruct Hin as [Hin | [Hin | []]]; [assumption|].
        subst sc. simpl in E. congruence.
Qed.

Lemma schemas_ok_construction (entries : list (string * HandlerConfig)) (s : State) :
  schemas_ok s ->
  schemas_ok (fold_left (fun acc e => registerHandler (fst e) (snd e) acc) entries s).
Proof.
  revert s. induction entries as [|e entries IH]; intros s Hok; simpl; [assumption|].
  apply IH. now apply schemas_ok_registerHandler.
Qed.

Lemma schemas_ok_created (options : HotlineOptions) : schemas_ok (createHotline options).
Proof.
  unfold createHotline.
  match goal with
  | |- schemas_ok (with_handlers _ _ ?s1) =>
      assert (Hok : schemas_ok s1)
  end.
  { destruct (opt_handlers options) as [entries|].
    - apply schemas_ok_construction. split; [constructor | intros sc []].
    - split; [constructor | intros sc []]. }
  destruct Hok as [Hnd Hhas]. split; [exact Hnd|]. simpl.
  intros sc Hin. destruct (String.eqb "ping" (schema_type sc)) eqn:E.
  - apply String.eqb_eq in E. rewrite <- E. eexists. apply (map_get_set_eq String.eqb_eq).
  - apply String.eqb_neq in E. rewrite (map_get_set_neq String.eqb_eq) by assumption.
    now apply Hhas.
Qed.

Section MoreRuns.
Variable DEV : option bool.

Lemma schemas_step (s : State) (e : Event) :
  handlerSchemas (step DEV s e) =
  match e with
  | CallHandle type config => handlerSchemas (registerHandler type config s)
  | _ => handlerSchemas s
  end.
Proof.
  destruct e as [ | | type config | | raw | | h]; simpl; try reflexivity.
  - unfold connect. now destruct DEV as [[|]|].
  - unfold disconnect. simpl. destruct (reconnectTimer s); simpl; now destruct (ws s).
  - unfold onopen, ws_send. simpl. now destruct (ws s).
  - unfold onmessage, ws_send. destruct raw as [|msg]; [reflexivity|].
    destruct (req_id msg); [|reflexivity]. destruct (req_type msg); [|reflexivity].
    destruct (_ || _); [reflexivity|].
    destruct (map_get _ _ _) as [f|]; [destruct (f _)|]; now destruct (ws s).
  - unfold onclose, scheduleReconnect. simpl.
    destruct (intentionalClose s); simpl; [reflexivity|].
    now destruct (reconnectTimer s).
  - unfold timer_fires. destruct (map_get _ _ _); [|reflexivity].
    unfold reconnect_callback, connect. now destruct DEV as [[|]|].
Qed.

Lemma schemas_ok_step (s : State) (e : Event) : schemas_ok s -> schemas_ok (step DEV s e).
Proof.
  intros Hok. destruct e as [ | | type config | | raw | | h];
    try (destruct Hok as [Hnd Hhas]; split;
         [now rewrite schemas_step
         | intros sc Hin; rewrite schemas_step in Hin; rewrite handlers_step;
           now apply Hhas]).
  simpl. now apply schemas_ok_registerHandler.
Qed.

Lemma appId_registerHandler (type : string) (config : HandlerConfig) (s : State) :
  appId (registerHandler type config s) = appId s.
Proof. unfold registerHandler. now destruct (findIndex _ _). Qed.

Lemma appId_construction (entries : list (string * HandlerConfig)) (s : State) :
  appId (fold_left (fun acc e => registerHandler (fst e) (snd e) acc) entries s)
  = appId s.
Proof.
  revert s. induction entries as [|e entries IH]; intros s; simpl; [reflexivity|].
  rewrite IH. apply appId_registerHandler.
Qed.

Lemma appId_created (options : HotlineOptions) :
  appId (createHotline options) = opt_appId options.
Proof.
  unfold createHotline. simpl.
  destruct (opt_handlers options) as [entries|]; [|reflexivity].
  now rewrite appId_construction.
Qed.

Lemma appId_step (s : State) (e : Event) : appId (step DEV s e) = appId s.
Proof.
  destruct e as [ | | type config | | raw | | h]; simpl.
  - unfold connect. now destruct DEV as [[|]|].
  - unfold disconnect. simpl. destruct (reconnectTimer s); simpl; now destruct (ws s).
  - apply appId_registerHandler.
  - unfold onopen, ws_send. simpl. now destruct (ws s).
  - unfold onmessage, ws_send. destruct raw as [|msg]; [reflexivity|].
    destruct (req_id msg); [|reflexivity]. destruct (req_type msg); [|reflexivity].
    destruct (_ || _); [reflexivity|].
    destruct (map_get _ _ _) as [f|]; [destruct (f _)|]; now destruct (ws s).
  - unfold onclose, scheduleReconnect. simpl.
    destruct (intentionalClose s); simpl; [reflexivity|].
    now destruct (reconnectTimer s).
  - unfold timer_fires. destruct (map_get _ _ _); [|reflexivity].
    unfold reconnect_callback, connect. now destruct DEV as [[|]|].
Qed.

Lemma run_keeps (P : State -> Prop) :
  (forall s e, P s -> P (step DEV s e)) ->
  forall es s, P s -> P (run DEV s es).
Proof.
  intros Hstep es. induction es as [|e es IH]; intros s Hs; simpl; [assumption|].
  apply IH. now apply Hstep.
Qed.

(** X14.  In every state of the client the schema list, which is what a
    registration advertises, names no command twice, and every command it
    names has a handler; [handle] puts the schema of its call in the list,
    in the place an earlier schema of that type had or else last; and on
    open the client registers with exactly that list. *)
Theorem schemas_advertised (options : HotlineOptions) (es : list Event) :
  let s := run DEV (createHotline options) es in
  NoDup (map schema_type (handlerSchemas s)) /\
  (forall sc, In sc (handlerSchemas s) ->
              exists f, map_get String.eqb (schema_type sc) (handlers s) = Some f) /\
  (forall type config,
      let s' := handle type config s in
      In (mkSchema type (description config) (fields config)) (handlerSchemas s') /\
      map schema_type (handlerSchemas s')
      = (if existsb (String.eqb type) (map schema_type (handlerSchemas s))
         then map schema_type (handlerSchemas s)
         else map schema_type (handlerSchemas s) ++ [type])) /\
  (forall k, ws s = Some k ->
             sent (onopen s) = sent s ++ [(k, Register (opt_appId options)
                                                       (handlerSchemas s))]).
Proof.
  intros s.
  assert (Hok : schemas_ok s).
  { apply (run_keeps schemas_ok schemas_ok_step). apply schemas_ok_created. }
  assert (Hid : appId s = opt_appId options).
  { apply (run_keeps (fun st => appId st = opt_appId options)).
    - intros st e Hst. now rewrite appId_step.
    - apply appId_created. }
  destruct Hok as [Hnd Hhas]. split; [assumption|]. split; [assumption|]. split.
  - intros type config s'. subst s'. unfold handle.
    destruct (schemas_registerHandler type config s)
      as [(pre & old & post & Hl & Hold & Hl') | (Hnone & Hl')]; rewrite Hl'.
    + split; [apply in_or_app; right; now left|].
      rewrite Hl, !map_app. simpl. rewrite Hold.
      replace (existsb (String.eqb type) (map schema_type pre ++ type :: map schema_type post))
        with true; [reflexivity|].
      symmetry. apply existsb_exists. exists type. split.
      * apply in_or_app. right. now left.
      * apply String.eqb_refl.
    + split; [apply in_or_app; right; now left|].
      rewrite map_app. simpl.
      replace (existsb (String.eqb type) (map schema_type (handlerSchemas s)))
        with false; [reflexivity|].
      symmetry. apply not_true_is_false. intro Ex. apply existsb_exists in Ex.
      destruct Ex as (t & Hin & Ht). apply String.eqb_eq in Ht. subst t.
      apply in_map_iff in Hin. destruct Hin as (sc & Hty & Hin).
      now apply (Hnone sc Hin).
  - intros k Hws. unfold onopen, ws_send. simpl. rewrite Hws. simpl. now rewrite Hid.
Qed.

(** *** One response for a request *)


(** *** Outside development *)

Lemma silent_registerHandler (type : string) (config : HandlerConfig) (s : State) :
  silent s -> silent (registerHandler type config s).
Proof. unfold silent, registerHandler. now destruct (findIndex _ _). Qed.

Lemma silent_created (options : HotlineOptions) : silent (createHotline options).
Proof.
  unfold createHotline.
  match goal with
  | |- silent (with_handlers _ _ ?s1) => assert (Hs : silent s1)
  end.
  { destruct (opt_handlers options) as [entries|]; [|now repeat split].
    match goal with
    | |- silent (fold_left _ entries ?s0) =>
        assert (H0 : silent s0) by (now repeat split); revert H0; generalize s0
    end.
    induction entries as [|e entries IH]; intros st Hst; simpl; [assumption|].
    apply IH. now apply silent_registerHandler. }
  exact Hs.
Qed.

End MoreRuns.

Lemma silent_step (s : State) (e : Event) :
  silent s -> silent (step (Some false) s e).
Proof.
  intros (Hws & Hsent & Hsock). destruct e as [ | | type config | | raw | | h]; simpl.
  - now repeat split.
  - unfold disconnect, silent. simpl.
    destruct (reconnectTimer s); simpl; rewrite Hws; now repeat split.
  - now apply silent_registerHandler.
  - unfold onopen, ws_send, silent. simpl. rewrite Hws. now repeat split.
  - unfold onmessage, ws_send, silent. destruct raw as [|msg]; [now repeat split|].
    destruct (req_id msg); [|now repeat split].
    destruct (req_type msg); [|now repeat split].
    destruct (_ || _); [now repeat split|].
    destruct (map_get _ _ _) as [f|]; [destruct (f _)|]; rewrite Hws; now repeat split.
  - unfold onclose, scheduleReconnect, silent. simpl.
    destruct (intentionalClose s); simpl; [now repeat split|].
    destruct (reconnectTimer s); now repeat split.
  - unfold timer_fires, silent. destruct (map_get _ _ _); [|now repeat split].
    now repeat split.
Qed.

(** X16.  Where [__DEV__] is defined and false, [connect] does nothing: whatever
    is called and whatever timers run, the client never opens a socket and
    never writes a frame. *)
Theorem production_never_connects (options : HotlineOptions) (es : list Event) :
  let s := run (Some false) (createHotline options) es in
  ws s = None /\ sent s = [] /\ next_socket s = 0.
Proof.
  apply (run_keeps (Some false) silent silent_step). apply silent_created.
Qed.

Lemma schemas_advertised_witness :
  let options := mkOptions None "com.a" (Some [("get-state"%string, get_state)]) in
  let s := run None (createHotline options)
               [CallHandle "get-state" throwing; CallConnect] in
  sent (onopen s)
  = sent s ++ [(0, Register "com.a" [mkSchema "get-state" None None])].
Proof.
  intros options s.
  destruct (schemas_advertised None options
              [CallHandle "get-state" throwing; CallConnect]) as (_ & _ & _ & H).
  exact (H 0 eq_refl).
Defined.

End ClientMoreFacts.

(** ** Facts about the command line *)

Module CliFacts.
Import Cli.
#[local] Unset Implicit Arguments.

(** *** Flags *)

Lemma indexOf_first (x : string) (pre post : list string) :
  ~ In x pre -> indexOf x (pre ++ x :: post) = Some (List.length pre).
Proof.
  induction pre as [|y pre IH]; intros Hn; simpl.
  - now rewrite String.eqb_refl.
  - destruct (String.eqb_spec y x) as [->|_].
    + exfalso. apply Hn. now left.
    + rewrite IH; [reflexivity|]. intros Hin. apply Hn. now right.
Qed.

Lemma indexOf_split (x : string) (args : list string) (i : nat) :
  indexOf x args = Some i ->
  exists pre post,
    args = pre ++ x :: post /\ ~ In x pre /\ List.length pre = i.
Proof.
  revert i. induction args as [|y rest IH]; intros i; simpl; [discriminate|].
  destruct (String.eqb_spec y x) as [->|Hne].
  - intros [= <-]. exists [], rest. repeat split. intros [].
  - destruct (indexOf x rest) as [k|] eqn:Hk; simpl; [|discriminate].
    intros [= <-]. destruct (IH k eq_refl) as (pre & post & -> & Hn & Hl).
    exists (y :: pre), post. split; [reflexivity|]. split.
    + intros [He|Hin]; [now apply Hne|now apply Hn].
    + simpl. now rewrite Hl.
Qed.

Lemma indexOf_none (x : string) (args : list string) :
  indexOf x args = None <-> ~ In x args.
Proof.
  induction args as [|y rest IH]; simpl.
  - split; [intros _ []|reflexivity].
  - destruct (String.eqb_spec y x) as [->|Hne].
    + split; [discriminate|]. intros Hn. exfalso. apply Hn. now left.
    + destruct (indexOf x rest) as [k|]; simpl.
      * split; [discriminate|]. intros Hn. exfalso.
        assert (Hk : ~ In x rest) by (intros Hin; apply Hn; now right).
        apply IH in Hk. discriminate.
      * split; [|reflexivity]. intros _ [He|Hin]; [now apply Hne|].
        now apply (proj1 IH eq_refl).
Qed.

Lemma nth_error_middle (pre post : list string) (v : string) (x : string) :
  nth_error (pre ++ x :: v :: post) (List.length pre + 1) = Some v.
Proof.
  induction pre as [|y pre IH]; simpl; [reflexivity|exact IH].
Qed.

(** *** The table *)

Lemma length_assign {A : Type} (i : nat) (x : A) (l : list A) :
  List.length (Client.assign i x l) = List.length l.
Proof.
  revert i. induction l as [|y l IH]; intros [|i]; simpl; auto.
Qed.

Lemma nth_assign_same {A : Type} (i : nat) (x d : A) (l : list A) :
  nth i (Client.assign i x l) d = if i <? List.length l then x else d.
Proof.
  revert i. induction l as [|y l IH]; intros [|i]; simpl; auto.
Qed.

Lemma nth_assign_other {A : Type} (i k : nat) (x d : A) (l : list A) :
  i <> k -> nth k (Client.assign i x l) d = nth k l d.
Proof.
  revert i k. induction l as [|y l IH]; intros [|i] [|k] Hne; simpl; auto.
  congruence.
Qed.

Lemma In_assign {A : Type} (i : nat) (x r : A) (l : list A) :
  In r (Client.assign i x l) -> (r = x /\ i < List.length l) \/ In r l.
Proof.
  revert i. induction l as [|y l IH]; intros [|i]; simpl; auto.
  - intros [<-|H]; auto. left. split; [reflexivity|lia].
  - intros [<-|H]; auto. destruct (IH _ H) as [[-> Hlt]|Hin]; auto.
    left. split; [reflexivity|lia].
Qed.

Lemma shaped_row (m n : nat) (dp : Table) (i : nat) :
  shaped m n dp -> i <= m -> List.length (nth i dp []) = n + 1.
Proof.
  intros [Hl Hr] Hi. apply Hr. apply nth_In. lia.
Qed.

Lemma shaped_set2 (m n : nat) (dp : Table) (i j v : nat) :
  shaped m n dp -> shaped m n (set2 dp i j v).
Proof.
  intros [Hl Hr]. split.
  - unfold set2. now rewrite length_assign.
  - intros r Hin. unfold set2 in Hin. apply In_assign in Hin.
    destruct Hin as [[-> Hlt]|Hin]; [|now apply Hr].
    rewrite length_assign. apply Hr. now apply nth_In.
Qed.

Lemma get2_set2_same (m n : nat) (dp : Table) (i j v : nat) :
  shaped m n dp -> i <= m -> j <= n -> get2 (set2 dp i j v) i j = v.
Proof.
  intros Hs Hi Hj. unfold get2, set2.
  rewrite nth_assign_same.
  destruct Hs as [Hl Hr].
  replace (i <? List.length dp) with true
    by (symmetry; apply Nat.ltb_lt; lia).
  rewrite nth_assign_same.
  replace (j <? List.length (nth i dp [])) with true; [reflexivity|].
  symmetry. apply Nat.ltb_lt.
  rewrite (shaped_row m n dp i (conj Hl Hr) Hi). lia.
Qed.

Lemma get2_set2_other (dp : Table) (i j v i' j' : nat) :
  i' <> i \/ j' <> j -> get2 (set2 dp i j v) i' j' = get2 dp i' j'.
Proof.
  intros Hne. unfold get2, set2.
  destruct (Nat.eq_dec i' i) as [->|Hi].
  - destruct Hne as [Hne|Hne]; [congruence|].
    rewrite nth_assign_same.
    destruct (i <? List.length dp) eqn:Hlt.
    + apply nth_assign_other. congruence.
    + apply Nat.ltb_ge in Hlt. now rewrite (nth_overflow dp [] Hlt).
  - rewrite nth_assign_other by congruence. reflexivity.
Qed.

(** *** The recurrence *)

Lemma edit_0_l (a b : string) (j : nat) : edit a b 0 j = j.
Proof. reflexivity. Qed.

Lemma edit_0_r (a b : string) (i : nat) : edit a b i 0 = i.
Proof. destruct i; reflexivity. Qed.

Lemma edit_S (a b : string) (i j : nat) :
  edit a b (S i) (S j) =
  min3 (edit a b i (S j) + 1) (edit a b (S i) j + 1)
       (edit a b i j + cost a b (S i) (S j)).
Proof. reflexivity. Qed.

Lemma cost_le (a b : string) (i j : nat) : cost a b i j <= 1.
Proof. unfold cost. destruct (differ _ _); lia. Qed.

(** *** The loops fill the table with the recurrence *)

Section Loops.
Variables a b : string.
Variables m n : nat.

Lemma shaped_initial : shaped m n (repeat (repeat 0 (n + 1)) (m + 1)).
Proof.
  split.
  - apply repeat_length.
  - intros r Hin. apply repeat_spec in Hin. subst r. apply repeat_length.
Qed.

Lemma first_column (dp0 : Table) (k : nat) :
  shaped m n dp0 -> k <= m + 1 ->
  let dp := fold_left (fun dp i => set2 dp i 0 i) (seq 0 k) dp0 in
  shaped m n dp /\ forall i, i < k -> get2 dp i 0 = i.
Proof.
  intros Hs. induction k as [|k IH]; intros Hk; cbv zeta.
  - split; [exact Hs|]. intros i Hi. lia.
  - rewrite seq_S, fold_left_app. simpl.
    destruct IH as [Hs' Hc]; [lia|]. split.
    + now apply shaped_set2.
    + intros i Hi. destruct (Nat.eq_dec i k) as [->|Hne].
      * apply (get2_set2_same m n); [exact Hs'|lia|lia].
      * rewrite get2_set2_other by (left; exact Hne). apply Hc. lia.
Qed.

Lemma first_row (dp1 : Table) (k : nat) :
  shaped m n dp1 -> (forall i, i <= m -> get2 dp1 i 0 = i) -> k <= n + 1 ->
  let dp := fold_left (fun dp j => set2 dp 0 j j) (seq 0 k) dp1 in
  shaped m n dp /\ (forall j, j < k -> get2 dp 0 j = j) /\
  (forall i, i <= m -> get2 dp i 0 = i).
Proof.
  intros Hs Hc. induction k as [|k IH]; intros Hk; cbv zeta.
  - split; [exact Hs|]. split; [intros j Hj; lia|exact Hc].
  - rewrite seq_S, fold_left_app. simpl.
    destruct IH as (Hs' & Hr & Hc'); [lia|]. split; [|split].
    + now apply shaped_set2.
    + intros j Hj. destruct (Nat.eq_dec j k) as [->|Hne].
      * apply (get2_set2_same m n); [exact Hs'|lia|lia].
      * rewrite get2_set2_other by (right; exact Hne). apply Hr. lia.
    + intros i Hi. destruct (Nat.eq_dec i 0) as [->|Hi0].
      * destruct (Nat.eq_dec k 0) as [->|Hk0].
        -- apply (get2_set2_same m n); [exact Hs'|lia|lia].
        -- rewrite get2_set2_other by (right; congruence). now apply Hc'.
      * rewrite get2_set2_other by (left; exact Hi0). now apply Hc'.
Qed.

Lemma inner_loop (k : nat) (dp : Table) (l : nat) :
  k < m -> filled a b m n k dp -> l <= n ->
  let dp' := fold_left (cell a b (S k)) (seq 1 l) dp in
  filled a b m n k dp' /\ forall j, j <= l -> get2 dp' (S k) j = edit a b (S k) j.
Proof.
  intros Hk Hf. induction l as [|l IH]; intros Hl; cbv zeta.
  - split; [exact Hf|]. intros j Hj. assert (j = 0) as -> by lia.
    destruct Hf as (_ & _ & Hc). rewrite Hc by lia. now rewrite edit_0_r.
  - rewrite seq_S, fold_left_app. simpl fold_left.
    destruct IH as ((Hs & Hrows & Hcol) & Hrow); [lia|].
    set (prev := fold_left (cell a b (S k)) (seq 1 l) dp) in *.
    unfold cell.
    change (1 + l) with (S l).
    replace (S k - 1) with k by lia. replace (S l - 1) with l by lia.
    rewrite (Hrows k (S l)) by lia. rewrite (Hrow l) by lia.
    rewrite (Hrows k l) by lia. rewrite <- edit_S.
    split; [split; [|split]|].
    + now apply shaped_set2.
    + intros i j Hi Hj. rewrite get2_set2_other by (left; lia).
      now apply Hrows.
    + intros i Hi. rewrite get2_set2_other by (right; lia). now apply Hcol.
    + intros j Hj. destruct (Nat.eq_dec j (S l)) as [->|Hne].
      * apply (get2_set2_same m n); [exact Hs|lia|lia].
      * rewrite get2_set2_other by (right; exact Hne). apply Hrow. lia.
Qed.

Lemma outer_loop (dp2 : Table) (k : nat) :
  filled a b m n 0 dp2 -> k <= m ->
  filled a b m n k (fold_left (fun dp i => fold_left (cell a b i) (seq 1 n) dp)
                      (seq 1 k) dp2).
Proof.
  intros H0. induction k as [|k IH]; intros Hk.
  - exact H0.
  - rewrite seq_S, fold_left_app. simpl fold_left.
    change (1 + k) with (S k).
    destruct (inner_loop k _ n ltac:(lia) (IH ltac:(lia)) (le_n n))
      as ((Hs & Hrows & Hcol) & Hrow).
    split; [exact Hs|]. split; [|exact Hcol].
    intros i j Hi Hj. destruct (Nat.eq_dec i (S k)) as [->|Hne].
    + now apply Hrow.
    + apply Hrows; lia.
Qed.

End Loops.

Lemma levenshtein_edit (a b : string) :
  levenshtein a b = edit a b (String.length a) (String.length b).
Proof.
  unfold levenshtein.
  set (m := String.length a). set (n := String.length b).
  destruct (first_column m n _ (m + 1) (shaped_initial m n) (le_n _))
    as [Hs1 Hc1].
  cbv zeta in Hs1, Hc1.
  set (dp1 := fold_left (fun dp i => set2 dp i 0 i) (seq 0 (m + 1)) _) in *.
  destruct (first_row m n dp1 (n + 1) Hs1
              (fun i Hi => Hc1 i ltac:(lia)) (le_n _)) as (Hs2 & Hr2 & Hc2).
  cbv zeta in Hs2, Hr2, Hc2.
  set (dp2 := fold_left (fun dp j => set2 dp 0 j j) (seq 0 (n + 1)) dp1) in *.
  assert (H0 : filled a b m n 0 dp2).
  { split; [exact Hs2|]. split; [|exact Hc2].
    intros i j Hi Hj. assert (i = 0) as -> by lia.
    rewrite edit_0_l. apply Hr2. lia. }
  destruct (outer_loop a b m n dp2 m H0 (le_n m)) as (_ & Hrows & _).
  apply Hrows; lia.
Qed.

(** *** What the recurrence gives *)

Lemma differ_false (x y : option Ascii.ascii) : differ x y = false <-> x = y.
Proof.
  destruct x as [c|], y as [d|]; simpl; split;
    try discriminate; try reflexivity.
  - intros H. apply negb_false_iff in H. apply Ascii.eqb_eq in H. now subst.
  - intros [= ->]. now rewrite Ascii.eqb_refl.
Qed.

Lemma differ_sym (x y : option Ascii.ascii) : differ x y = differ y x.
Proof.
  destruct x as [c|], y as [d|]; simpl; auto. now rewrite Ascii.eqb_sym.
Qed.

Lemma cost_sym (a b : string) (i j : nat) : cost a b i j = cost b a j i.
Proof. unfold cost. now rewrite differ_sym. Qed.

Lemma cost_zero (a b : string) (i j : nat) :
  cost a b (S i) (S j) = 0 <-> String.get i a = String.get j b.
Proof.
  unfold cost. replace (S i - 1) with i by lia. replace (S j - 1) with j by lia.
  rewrite <- differ_false. destruct (differ _ _); split; congruence.
Qed.

Lemma cost_triangle (a b c : string) (i j k : nat) :
  cost a b (S i) (S j) <= cost a c (S i) (S k) + cost c b (S k) (S j).
Proof.
  pose proof (cost_le a b (S i) (S j)) as Hab.
  destruct (Nat.eq_dec (cost a c (S i) (S k)) 0) as [Hac|Hac]; [|lia].
  destruct (Nat.eq_dec (cost c b (S k) (S j)) 0) as [Hcb|Hcb]; [|lia].
  assert (H0 : cost a b (S i) (S j) = 0); [|lia].
  apply cost_zero. apply cost_zero in Hac, Hcb. congruence.
Qed.

Lemma min3_swap (x y z : nat) : min3 x y z = min3 y x z.
Proof. unfold min3. lia. Qed.

Lemma edit_sym (a b : string) (i j : nat) : edit a b i j = edit b a j i.
Proof.
  revert j. induction i as [|i IHi]; intros j.
  - now rewrite edit_0_l, edit_0_r.
  - induction j as [|j IHj].
    + now rewrite edit_0_l, edit_0_r.
    + rewrite (edit_S a b), (edit_S b a), IHj, (IHi (S j)), (IHi j), cost_sym.
      apply min3_swap.
Qed.

Lemma edit_upper (a b : string) (i j : nat) : edit a b i j <= Nat.max i j.
Proof.
  revert j. induction i as [|i IHi]; intros j.
  - rewrite edit_0_l. lia.
  - induction j as [|j IHj].
    + rewrite edit_0_r. lia.
    + rewrite edit_S. pose proof (IHi j). pose proof (cost_le a b (S i) (S j)).
      unfold min3. lia.
Qed.

Lemma edit_lower (a b : string) (i j : nat) :
  i - j <= edit a b i j /\ j - i <= edit a b i j.
Proof.
  revert j. induction i as [|i IHi]; intros j.
  - rewrite edit_0_l. lia.
  - induction j as [|j IHj].
    + rewrite edit_0_r. lia.
    + rewrite edit_S. pose proof (IHi j). pose proof (IHi (S j)).
      unfold min3. lia.
Qed.

Lemma edit_step_l (a b : string) (i j : nat) :
  edit a b (S i) j <= edit a b i j + 1.
Proof.
  destruct j as [|j].
  - rewrite !edit_0_r. lia.
  - rewrite edit_S. unfold min3. lia.
Qed.

Lemma edit_step_r (a b : string) (i j : nat) :
  edit a b i (S j) <= edit a b i j + 1.
Proof.
  rewrite (edit_sym a b i (S j)), (edit_sym a b i j). apply edit_step_l.
Qed.

Lemma edit_zero (a b : string) (i j : nat) :
  edit a b i j = 0 ->
  i = j /\ forall k, k < i -> String.get k a = String.get k b.
Proof.
  revert j. induction i as [|i IHi]; intros j.
  - rewrite edit_0_l. intros ->. split; [reflexivity|]. intros k Hk. lia.
  - induction j as [|j IHj].
    + rewrite edit_0_r. discriminate.
    + rewrite edit_S. unfold min3. intros H.
      assert (He : edit a b i j = 0) by lia.
      assert (Hc : cost a b (S i) (S j) = 0) by lia.
      destruct (IHi j He) as [<- Hget]. split; [reflexivity|].
      intros k Hk. destruct (Nat.eq_dec k i) as [->|Hne].
      * now apply cost_zero.
      * apply Hget. lia.
Qed.

Lemma edit_same (a b : string) (i : nat) :
  (forall k, k < i -> String.get k a = String.get k b) -> edit a b i i = 0.
Proof.
  induction i as [|i IHi]; intros H.
  - reflexivity.
  - rewrite edit_S, IHi by (intros k Hk; apply H; lia).
    replace (cost a b (S i) (S i)) with 0
      by (symmetry; apply cost_zero; apply H; lia).
    unfold min3. lia.
Qed.

Lemma edit_prefix (a b a' b' : string) (i j : nat) :
  (forall k, k < i -> String.get k a = String.get k a') ->
  (forall k, k < j -> String.get k b = String.get k b') ->
  edit a b i j = edit a' b' i j.
Proof.
  revert j. induction i as [|i IHi]; intros j Ha Hb.
  - reflexivity.
  - induction j as [|j IHj].
    + reflexivity.
    + rewrite (edit_S a b), (edit_S a' b').
      rewrite IHj by (intros k Hk; apply Hb; lia).
      rewrite (IHi (S j)) by (intros k Hk; (apply Ha || apply Hb); lia).
      rewrite (IHi j) by (intros k Hk; (apply Ha || apply Hb); lia).
      unfold cost. replace (S i - 1) with i by lia.
      replace (S j - 1) with j by lia.
      rewrite (Ha i), (Hb j) by lia. reflexivity.
Qed.

Lemma edit_triangle (a b c : string) (s : nat) :
  forall i j k, i + j + k <= s ->
  edit a b i j <= edit a c i k + edit c b k j.
Proof.
  induction s as [|s IH]; intros i j k Hs.
  - assert (i = 0) as -> by lia. assert (j = 0) as -> by lia.
    rewrite edit_0_l. lia.
  - destruct k as [|k].
    + rewrite edit_0_r, edit_0_l. pose proof (edit_upper a b i j). lia.
    + destruct i as [|i].
      * rewrite !edit_0_l. pose proof (edit_lower c b (S k) j). lia.
      * destruct j as [|j].
        -- rewrite !edit_0_r. pose proof (edit_lower a c (S i) (S k)). lia.
        -- pose proof (IH i (S j) (S k) ltac:(lia)) as H1.
           pose proof (IH (S i) j (S k) ltac:(lia)) as H2.
           pose proof (IH (S i) (S j) k ltac:(lia)) as H3.
           pose proof (IH (S i) j k ltac:(lia)) as H4.
           pose proof (IH i (S j) k ltac:(lia)) as H5.
           pose proof (IH i j k ltac:(lia)) as H6.
           pose proof (cost_triangle a b c i j k) as Hc.
           pose proof (edit_step_l a b i (S j)) as S1.
           pose proof (edit_step_r a b (S i) j) as S2.
           assert (S3 : edit a b (S i) (S j)
                        <= edit a b i j + cost a b (S i) (S j))
             by (rewrite (edit_S a b); unfold min3; lia).
           pose proof (edit_S a c i k) as E1.
           pose proof (edit_S c b k j) as E2.
           unfold min3 in E1, E2. lia.
Qed.

Lemma get_beyond (s : string) (k : nat) :
  String.length s <= k -> String.get k s = None.
Proof.
  revert k. induction s as [|c s IH]; intros k Hk; simpl in *.
  - reflexivity.
  - destruct k as [|k]; [lia|]. apply IH. lia.
Qed.

Lemma length_snoc (a : string) (c : Ascii.ascii) :
  String.length (a ++ String c EmptyString) = S (String.length a).
Proof.
  induction a as [|x a IH]; simpl; [reflexivity|now rewrite IH].
Qed.

Lemma get_snoc (a : string) (c : Ascii.ascii) :
  String.get (String.length a) (a ++ String c EmptyString) = Some c.
Proof.
  induction a as [|x a IH]; simpl; [reflexivity|exact IH].
Qed.

(** *** The distance *)

(** X19.  The table loops of [levenshtein] compute the edit-distance
    recurrence: against the empty string the distance is the other
    string's length, and with one more unit on each side it is the least
    of a deletion, an insertion, and a substitution that is free when the
    two units agree. *)
Theorem levenshtein_recurrence (a b : string) (c d : Ascii.ascii) :
  levenshtein EmptyString b = String.length b /\
  levenshtein a EmptyString = String.length a /\
  levenshtein (a ++ String c EmptyString) (b ++ String d EmptyString) =
    min3 (levenshtein a (b ++ String d EmptyString) + 1)
         (levenshtein (a ++ String c EmptyString) b + 1)
         (levenshtein a b + if Ascii.eqb c d then 0 else 1).
Proof.
  rewrite !levenshtein_edit. split; [reflexivity|]. split.
  - simpl. apply edit_0_r.
  - rewrite !length_snoc, edit_S.
    set (a' := (a ++ String c EmptyString)%string).
    set (b' := (b ++ String d EmptyString)%string).
    assert (Ha : forall k, k < String.length a ->
                           String.get k a' = String.get k a)
      by (intros k Hk; symmetry; now apply append_correct1).
    assert (Hb : forall k, k < String.length b ->
                           String.get k b' = String.get k b)
      by (intros k Hk; symmetry; now apply append_correct1).
    rewrite (edit_prefix a' b' a b' (String.length a) (S (String.length b)))
      by auto.
    rewrite (edit_prefix a' b' a' b (S (String.length a)) (String.length b))
      by auto.
    rewrite (edit_prefix a' b' a b (String.length a) (String.length b))
      by auto.
    unfold cost.
    replace (S (String.length a) - 1) with (String.length a) by lia.
    replace (S (String.length b) - 1) with (String.length b) by lia.
    unfold a', b'. rewrite !get_snoc. simpl.
    destruct (Ascii.eqb c d); reflexivity.
Qed.

Lemma levenshtein_zero (a b : string) : levenshtein a b = 0 <-> a = b.
Proof.
  rewrite levenshtein_edit. split.
  - intros H. apply edit_zero in H. destruct H as [Hl Hget].
    apply get_correct. intros k.
    destruct (Nat.lt_ge_cases k (String.length a)) as [Hk|Hk].
    + now apply Hget.
    + rewrite !get_beyond; [reflexivity|lia|lia].
  - intros <-. apply edit_same. reflexivity.
Qed.

(** X20.  [levenshtein] is zero exactly on equal strings. *)
Theorem levenshtein_zero_iff (a b : string) :
  levenshtein a b = 0 <-> a = b.
Proof.
  exact (levenshtein_zero a b).
Qed.

(** X21.  [levenshtein] does not depend on the order of its arguments. *)
Theorem levenshtein_symmetric (a b : string) :
  levenshtein a b = levenshtein b a.
Proof.
  rewrite !levenshtein_edit. apply edit_sym.
Qed.

(** X22.  [levenshtein] satisfies the triangle inequality: going through
    a third string is never shorter. *)
Theorem levenshtein_triangle (a b c : string) :
  levenshtein a b <= levenshtein a c + levenshtein c b.
Proof.
  rewrite !levenshtein_edit.
  apply (edit_triangle a b c
           (String.length a + String.length b + String.length c)).
  lia.
Qed.

(** X23.  The distance lies between the difference of the two lengths
    and the greater of them. *)
Theorem levenshtein_bounds (a b : string) :
  Nat.max (String.length a) (String.length b)
    - Nat.min (String.length a) (String.length b) <= levenshtein a b /\
  levenshtein a b <= Nat.max (String.length a) (String.length b).
Proof.
  rewrite levenshtein_edit.
  pose proof (edit_lower a b (String.length a) (String.length b)).
  pose proof (edit_upper a b (String.length a) (String.length b)).
  lia.
Qed.

(** *** Reading a flag *)

Lemma hasFlag_In (args : list string) (name : string) :
  hasFlag args name = true <-> In (dashed name) args.
Proof.
  unfold hasFlag. rewrite existsb_exists. split.
  - intros (y & Hin & Heq). apply String.eqb_eq in Heq. now subst.
  - intros Hin. exists (dashed name). split; [exact Hin|apply String.eqb_refl].
Qed.

(** X17.  [flag] gives a value exactly when the first occurrence of the dashed
    name has an argument after it, and the value is that argument,
    whatever it is; later occurrences are not looked at. *)
Theorem flag_value (args : list string) (name v : string) :
  flag args name = Some v <->
  exists pre post,
    args = pre ++ dashed name :: v :: post /\ ~ In (dashed name) pre.
Proof.
  unfold flag. split.
  - destruct (indexOf (dashed name) args) as [i|] eqn:Hi; [|discriminate].
    destruct (indexOf_split _ _ _ Hi) as (pre & post & -> & Hn & <-).
    destruct post as [|v' post].
    + rewrite length_app. simpl.
      replace (List.length pre + 1 <=? List.length pre + 1) with true
        by (symmetry; apply Nat.leb_le; lia).
      discriminate.
    + destruct (_ <=? _); [discriminate|].
      rewrite nth_error_middle. intros [= <-]. now exists pre, post.
  - intros (pre & post & -> & Hn).
    rewrite (indexOf_first _ _ _ Hn), length_app. simpl.
    replace (List.length pre + S (S (List.length post))
               <=? List.length pre + 1) with false
      by (symmetry; apply Nat.leb_gt; lia).
    apply nth_error_middle.
Qed.

(** X18.  A flag is present without a value exactly when its first occurrence
    is the last argument. *)
Theorem flag_without_value (args : list string) (name : string) :
  hasFlag args name = true /\ flag args name = None <->
  exists pre, args = pre ++ [dashed name] /\ ~ In (dashed name) pre.
Proof.
  split.
  - intros [Hhas Hnone]. apply hasFlag_In in Hhas. unfold flag in Hnone.
    destruct (indexOf (dashed name) args) as [i|] eqn:Hi.
    + destruct (indexOf_split _ _ _ Hi) as (pre & post & -> & Hn & <-).
      destruct post as [|v post]; [now exists pre|].
      rewrite length_app in Hnone. simpl in Hnone.
      replace (List.length pre + S (S (List.length post))
                 <=? List.length pre + 1) with false in Hnone
        by (symmetry; apply Nat.leb_gt; lia).
      now rewrite nth_error_middle in Hnone.
    + apply indexOf_none in Hi. contradiction.
  - intros (pre & -> & Hn). split.
    + apply hasFlag_In. apply in_or_app. right. now left.
    + unfold flag. rewrite (indexOf_first _ _ _ Hn), length_app. simpl.
      replace (List.length pre + 1 <=? List.length pre + 1) with true
        by (symmetry; apply Nat.leb_le; lia).
      reflexivity.
Qed.

(** *** Suggesting a command *)

Lemma closest_fold (input : string) (cmds : list string) :
  match fold_left (consider input) cmds (None, None) with
  | (None, None) => forall c, In c cmds -> 3 < levenshtein input c
  | (Some c, Some d) =>
      d = levenshtein input c /\ d <= 3 /\
      exists pre post,
        cmds = pre ++ c :: post /\
        (forall c', In c' pre -> d < levenshtein input c') /\
        (forall c', In c' post -> d <= levenshtein input c')
  | _ => False
  end.
Proof.
  induction cmds as [|x cmds IH] using rev_ind.
  - simpl. intros c [].
  - rewrite fold_left_app. simpl fold_left.
    destruct (fold_left (consider input) cmds (None, None)) as [[c|] [d|]];
      try contradiction; unfold consider; simpl snd; unfold below.
    + destruct IH as (Hd & Hle & pre & post & -> & Hpre & Hpost).
      destruct (levenshtein input x <? d) eqn:Hlt; simpl.
      * apply Nat.ltb_lt in Hlt.
        replace (levenshtein input x <=? 3) with true
          by (symmetry; apply Nat.leb_le; lia).
        split; [reflexivity|]. split; [lia|].
        exists (pre ++ c :: post), []. split; [reflexivity|].
        split; [|intros c' []].
        intros c' Hin. apply in_app_or in Hin.
        destruct Hin as [Hin|[<-|Hin]].
        -- specialize (Hpre _ Hin). lia.
        -- lia.
        -- specialize (Hpost _ Hin). lia.
      * apply Nat.ltb_ge in Hlt.
        split; [exact Hd|]. split; [exact Hle|].
        exists pre, (post ++ [x]). split; [now rewrite <- app_assoc|].
        split; [exact Hpre|].
        intros c' Hin. apply in_app_or in Hin.
        destruct Hin as [Hin|[<-|[]]]; [now apply Hpost|exact Hlt].
    + simpl. destruct (levenshtein input x <=? 3) eqn:Hle.
      * apply Nat.leb_le in Hle.
        split; [reflexivity|]. split; [exact Hle|].
        exists cmds, []. split; [reflexivity|]. split; [|intros c' []].
        intros c' Hin. specialize (IH _ Hin). lia.
      * apply Nat.leb_gt in Hle.
        intros c Hin. apply in_app_or in Hin.
        destruct Hin as [Hin|[<-|[]]]; [now apply IH|exact Hle].
Qed.

(** X24.  The command [closestCommand] suggests is at distance at most 3 from
    the input, strictly nearer than every command listed before it and at
    least as near as every command listed after it. *)
Theorem closest_is_first_nearest (cmds : list string) (input c : string) :
  closestCommandIn cmds input = Some c ->
  levenshtein input c <= 3 /\
  exists pre post,
    cmds = pre ++ c :: post /\
    (forall c', In c' pre -> levenshtein input c < levenshtein input c') /\
    (forall c', In c' post -> levenshtein input c <= levenshtein input c').
Proof.
  unfold closestCommandIn. pose proof (closest_fold input cmds) as H.
  destruct (fold_left (consider input) cmds (None, None)) as [[c0|] [d|]];
    try contradiction; simpl; try discriminate.
  intros [= <-]. destruct H as (-> & Hle & pre & post & Hcmds & Hpre & Hpost).
  split; [exact Hle|]. now exists pre, post.
Qed.

(** X25.  [closestCommand] suggests nothing exactly when every command is
    farther than 3 from the input. *)
Theorem closest_none_iff (cmds : list string) (input : string) :
  closestCommandIn cmds input = None <->
  forall c, In c cmds -> 3 < levenshtein input c.
Proof.
  unfold closestCommandIn. pose proof (closest_fold input cmds) as H.
  destruct (fold_left (consider input) cmds (None, None)) as [[c0|] [d|]];
    try contradiction; simpl.
  - destruct H as (-> & Hle & pre & post & -> & _ & _).
    split; [discriminate|]. intros Hall.
    specialize (Hall c0 (in_elt c0 pre post)). lia.
  - split; [intros _; exact H|reflexivity].
Qed.

(** X26.  For an input that is itself a command, the suggestion is that
    command. *)
Theorem closest_of_command (cmds : list string) (input : string) :
  In input cmds -> closestCommandIn cmds input = Some input.
Proof.
  intros Hin. unfold closestCommandIn.
  pose proof (closest_fold input cmds) as H.
  assert (H0 : levenshtein input input = 0)
    by (now apply levenshtein_zero).
  destruct (fold_left (consider input) cmds (None, None)) as [[c0|] [d|]];
    try contradiction; simpl.
  - destruct H as (Hd & Hle & pre & post & -> & Hpre & Hpost).
    f_equal. symmetry. apply levenshtein_zero.
    apply in_app_or in Hin. destruct Hin as [Hin|[<-|Hin]].
    + specialize (Hpre _ Hin). lia.
    + exact H0.
    + specialize (Hpost _ Hin). lia.
  - specialize (H _ Hin). lia.
Qed.

Lemma closest_is_first_nearest_witness :
  closestCommandIn COMMANDS "statsu" = Some "status"%string /\
  levenshtein "statsu" "status" <= 3.
Proof.
  assert (H : closestCommandIn COMMANDS "statsu" = Some "status"%string)
    by (vm_compute; reflexivity).
  split; [exact H|].
  exact (proj1 (closest_is_first_nearest COMMANDS "statsu" "status" H)).
Defined.

Lemma closest_of_command_witness :
  In "watch"%string COMMANDS /\
  closestCommandIn COMMANDS "watch" = Some "watch"%string.
Proof.
  assert (H : In "watch"%string COMMANDS)
    by (unfold COMMANDS; simpl; tauto).
  split; [exact H|].
  exact (closest_of_command COMMANDS "watch" H).
Defined.

End CliFacts.

(** ** The two relay snapshots compared *)

Module RelayV1Facts.
Import Relay RelayV1.
#[local] Unset Implicit Arguments.

Lemma get_forget (w : ws) (l : list (ws * AppConnection)) :
  map_get Nat.eqb w (map forget_entry l) = option_map forget (map_get Nat.eqb w l).
Proof.
  induction l as [|[k c] rest IH]; simpl; [reflexivity|].
  destruct (k =? w); [reflexivity|exact IH].
Qed.

Lemma delete_forget (w : ws) (l : list (ws * AppConnection)) :
  map_delete Nat.eqb w (map forget_entry l) = map forget_entry (map_delete Nat.eqb w l).
Proof.
  unfold map_delete. induction l as [|[k c] rest IH]; simpl; [reflexivity|].
  destruct (k =? w); simpl; [exact IH|].
  now rewrite IH.
Qed.

Lemma set_forget (w : ws) (c : AppConnection) (l : list (ws * AppConnection)) :
  map_set Nat.eqb w (forget c) (map forget_entry l)
  = map forget_entry (map_set Nat.eqb w c l).
Proof.
  induction l as [|[k c'] rest IH]; simpl; [reflexivity|].
  destruct (k =? w); simpl; [reflexivity|].
  now rewrite IH.
Qed.

Lemma first_match_forget (p : string -> bool) (l : list (ws * AppConnection)) :
  match filter (fun e => p (conn_appId (snd e))) (map forget_entry l) with
  | [] => None
  | m :: _ => Some (fst m)
  end
  = match filter (fun e => p (conn_appId (snd e))) l with
    | [] => None
    | m :: _ => Some (fst m)
    end.
Proof.
  induction l as [|[k c] rest IH]; simpl; [reflexivity|].
  destruct (p (conn_appId c)); [reflexivity|exact IH].
Qed.

Lemma find_forget (l : list (ws * AppConnection)) (t : option string) :
  findAppSocket (map forget_entry l) t = findAppSocket l t.
Proof.
  unfold findAppSocket. rewrite length_map.
  destruct (List.length l =? 0); [reflexivity|].
  destruct (negb (truthy_str t)).
  - destruct l as [|e [|e' r]]; reflexivity.
  - apply (first_match_forget (fun a => opt_str_is t a)).
Qed.

Lemma ids_forget (l : list (ws * AppConnection)) :
  map (fun e => conn_appId (snd e)) (map forget_entry l)
  = map (fun e => conn_appId (snd e)) l.
Proof.
  rewrite map_map. reflexivity.
Qed.

Lemma ambiguous_forget (l : list (ws * AppConnection)) :
  ambiguous_error (map forget_entry l) = ambiguous_error l.
Proof.
  unfold ambiguous_error, listAppIds. now rewrite ids_forget.
Qed.

Lemma list_apps_erase (s : State) : list_apps (erase s) = list_apps s.
Proof.
  unfold list_apps, erase. simpl. now rewrite map_map.
Qed.

Lemma broadcast_none (d : Dir) (a : option string) (m : Frame) (s : State) :
  watchers s = [] -> broadcast d a m s = s.
Proof.
  destruct s. simpl. intros ->. unfold broadcast, with_outbox. simpl.
  now rewrite app_nil_r.
Qed.

Lemma fail_pending_erase (w : ws) (l : list (string * PendingRequest)) (s : State) :
  fail_pending w l (erase s) = erase (fail_pending w l s).
Proof.
  revert s. induction l as [|[id p] rest IH]; intros s; simpl; [reflexivity|].
  destruct (appSocket p =? w); [|apply IH].
  rewrite <- IH. reflexivity.
Qed.

Lemma fail_pending_keeps_watchers (w : ws) (l : list (string * PendingRequest))
      (s : State) :
  watchers (fail_pending w l s) = watchers s.
Proof.
  revert s. induction l as [|[id p] rest IH]; intros s; simpl; [reflexivity|].
  destruct (appSocket p =? w); [|apply IH].
  rewrite IH. reflexivity.
Qed.

Lemma fire_erase (h : nat) (s : State) : fire h (erase s) = erase (fire h s).
Proof.
  unfold fire. simpl. destruct (map_get Nat.eqb h (timers s)); reflexivity.
Qed.

Lemma fire_keeps_watchers (h : nat) (s : State) :
  watchers (fire h s) = watchers s.
Proof.
  unfold fire. destruct (map_get Nat.eqb h (timers s)); reflexivity.
Qed.

Lemma fires_erase (l : list (nat * Timer)) (s : State) :
  fold_left (fun acc e => fire (fst e) acc) l (erase s)
  = erase (fold_left (fun acc e => fire (fst e) acc) l s).
Proof.
  revert s. induction l as [|e rest IH]; intros s; simpl; [reflexivity|].
  rewrite fire_erase. apply IH.
Qed.

Lemma fires_keep_watchers (l : list (nat * Timer)) (s : State) :
  watchers (fold_left (fun acc e => fire (fst e) acc) l s) = watchers s.
Proof.
  revert s. induction l as [|e rest IH]; intros s; simpl; [reflexivity|].
  rewrite IH. apply fire_keeps_watchers.
Qed.

Lemma elapse_erase (t : Z) (s : State) : elapse t (erase s) = erase (elapse t s).
Proof.
  unfold elapse. simpl timers. rewrite fires_erase. reflexivity.
Qed.

Lemma elapse_keeps_watchers (t : Z) (s : State) :
  watchers (elapse t s) = watchers s.
Proof.
  unfold elapse. simpl. apply fires_keep_watchers.
Qed.

Lemma cleanupApp_erase (w : ws) (s : State) :
  watchers s = [] ->
  RelayV1.cleanupApp w (erase s) = erase (Relay.cleanupApp w s) /\
  watchers (Relay.cleanupApp w s) = [].
Proof.
  intros Hw. unfold RelayV1.cleanupApp, Relay.cleanupApp.
  simpl apps. rewrite get_forget.
  destruct (map_get Nat.eqb w (apps s)) as [info|]; simpl; [|now split].
  rewrite broadcast_none by exact Hw.
  rewrite fail_pending_keeps_watchers. split; [|exact Hw].
  rewrite <- fail_pending_erase. unfold erase. simpl.
  now rewrite delete_forget.
Qed.

Lemma register_erase (w : ws) (msg : Frame) (a : string) (s : State) :
  watchers s = [] ->
  RelayV1.register w a (erase s) = erase (Relay.register w msg a s) /\
  watchers (Relay.register w msg a s) = [].
Proof.
  intros Hw. unfold RelayV1.register, Relay.register. cbv zeta.
  rewrite broadcast_none by exact Hw. split; [|exact Hw].
  unfold erase. simpl. rewrite <- set_forget. reflexivity.
Qed.

Lemma route_response_erase (msg : Frame) (id : string) (s : State) :
  watchers s = [] ->
  RelayV1.route_response msg id (erase s) = erase (Relay.route_response msg id s) /\
  watchers (Relay.route_response msg id s) = [].
Proof.
  intros Hw. unfold RelayV1.route_response, Relay.route_response.
  simpl pendingRequests.
  destruct (map_get String.eqb id (pendingRequests s)) as [p|]; [|now split].
  cbv zeta. rewrite broadcast_none by exact Hw. split; [reflexivity|exact Hw].
Qed.

Lemma route_request_erase (w : ws) (msg : Frame) (id type : string) (s : State) :
  watchers s = [] ->
  (type =? "ping")%string = false ->
  (type =? "list-handlers")%string = false ->
  RelayV1.route_request w msg id type (erase s)
  = erase (Relay.route_request w msg id type s) /\
  watchers (Relay.route_request w msg id type s) = [].
Proof.
  intros Hw Hping Hlh.
  unfold RelayV1.route_request, Relay.route_request,
    handleBuiltIn, handleServerCommand, serverHandlers.
  rewrite Hping, Hlh.
  destruct (type =? "list-apps")%string.
  - rewrite list_apps_erase. split; [reflexivity|exact Hw].
  - change (apps (erase s)) with (map forget_entry (apps s)).
    change (ws_data (erase s) w) with (ws_data s w).
    rewrite find_forget, length_map, ambiguous_forget.
    destruct (findAppSocket (apps s) (appId (ws_data s w))) as [a|].
    + cbv zeta. unfold setTimeout. cbv zeta.
      rewrite broadcast_none by exact Hw. split; [reflexivity|exact Hw].
    + destruct (negb (truthy_str (appId (ws_data s w)))
                && (1 <? List.length (apps s)));
        (split; [reflexivity|exact Hw]).
Qed.

Lemma message_erase (w : ws) (raw : Raw) (s : State) :
  watchers s = [] ->
  shared_event (Message w raw) = true ->
  RelayV1.message w raw (erase s) = erase (Relay.message w raw s) /\
  watchers (Relay.message w raw s) = [].
Proof.
  intros Hw Hsh. destruct raw as [|msg]; [now split|].
  simpl in Hsh. apply andb_prop in Hsh. destruct Hsh as [Hp Hl].
  apply negb_true_iff in Hp, Hl.
  unfold RelayV1.message, Relay.message.
  destruct (is_register msg).
  - destruct (f_appId msg) as [a|]; [now apply register_erase|now split].
  - destruct (is_response msg).
    + destruct (f_id msg) as [id|]; [now apply route_response_erase|now split].
    + destruct (truthy_str (f_id msg) && truthy_str (f_type msg)); [|now split].
      destruct (f_id msg) as [id|]; [|now split].
      destruct (f_type msg) as [type|]; [|now split].
      now apply route_request_erase.
Qed.

Lemma step_erase (s : State) (e : Event) :
  watchers s = [] ->
  shared_event e = true ->
  RelayV1.step (erase s) e = erase (Relay.step s e) /\
  watchers (Relay.step s e) = [].
Proof.
  intros Hw Hsh. destruct e as [w r a|w raw|w|t];
    unfold RelayV1.step, Relay.step.
  - simpl in Hsh. apply negb_true_iff in Hsh.
    unfold RelayV1.open, Relay.open, RelayV1.fetch, Relay.fetch.
    rewrite Hsh. unfold ws_data. simpl data.
    destruct (map_get Nat.eqb w _) as [d|] eqn:Hd.
    + destruct (role d) eqn:Hr; try (split; [reflexivity|exact Hw]).
      exfalso. revert Hd Hr. clear.
      generalize (or_undefined a). intros o.
      induction (data s) as [|[k c] rest IH]; simpl.
      * rewrite Nat.eqb_refl. intros [= <-]. discriminate.
      * destruct (k =? w) eqn:Hk; simpl.
        -- rewrite Nat.eqb_refl. intros [= <-]. discriminate.
        -- rewrite Hk. exact IH.
    + split; [reflexivity|exact Hw].
  - now apply message_erase.
  - unfold RelayV1.close, Relay.close.
    change (ws_data (erase s) w) with (ws_data s w).
    destruct (role (ws_data s w)).
    + now apply cleanupApp_erase.
    + split; [reflexivity|exact Hw].
    + rewrite Hw. simpl. destruct s; simpl in *; subst.
      split; reflexivity.
  - rewrite elapse_keeps_watchers. split; [apply elapse_erase|exact Hw].
Qed.

Lemma run_erase (s : State) (hist : list Event) :
  watchers s = [] ->
  Forall (fun e => shared_event e = true) hist ->
  RelayV1.run (erase s) hist = erase (Relay.run s hist) /\
  watchers (Relay.run s hist) = [].
Proof.
  revert s. induction hist as [|e rest IH]; intros s Hw Hall; simpl.
  - now split.
  - inversion Hall as [|? ? He Hrest]; subst.
    destruct (step_erase s e Hw He) as [Hstep Hw'].
    rewrite Hstep. now apply IH.
Qed.

(** X27.  As long as no connection asks to watch and no frame names [ping] or
    [list-handlers], the older relay and the later one go through the
    same states but for the handler lists the later one keeps: they send
    the same frames to the same sockets in the same order, and hold the
    same correlations and timers. *)
Theorem snapshots_agree (port pid start : Z) (hist : list Event) :
  Forall (fun e => shared_event e = true) hist ->
  RelayV1.run (init port pid start) hist
  = erase (Relay.run (init port pid start) hist) /\
  outbox (RelayV1.run (init port pid start) hist)
  = outbox (Relay.run (init port pid start) hist) /\
  pendingRequests (RelayV1.run (init port pid start) hist)
  = pendingRequests (Relay.run (init port pid start) hist) /\
  timers (RelayV1.run (init port pid start) hist)
  = timers (Relay.run (init port pid start) hist).
Proof.
  intros Hall.
  destruct (run_erase (init port pid start) hist eq_refl Hall) as [H _].
  change (erase (init port pid start)) with (init port pid start) in H.
  rewrite H. repeat split.
Qed.

(** The older relay answers [ping] with a bare [{id, ok: true}]; the
    later one adds an empty [data] object; neither changes anything
    else. *)
Remark ping_answers_differ (w : ws) (msg : Frame) (id : string) (s : State) :
  is_register msg = false ->
  is_response msg = false ->
  f_id msg = Some id -> id <> ""%string ->
  f_type msg = Some "ping"%string ->
  RelayV1.message w (Parsed msg) s = send w (bare_ok id) s /\
  Relay.message w (Parsed msg) s = send w (response_ok id (JObj [])) s.
Proof.
  intros Hreg Hres Hid Hne Hty.
  unfold RelayV1.message, Relay.message. rewrite Hreg, Hres, Hid, Hty.
  simpl. destruct (String.eqb_spec id "") as [->|_]; [congruence|].
  simpl. split; reflexivity.
Qed.

Lemma snapshots_agree_witness :
  Forall (fun e => shared_event e = true) exchange /\
  outbox (RelayV1.run (init 8675 4242 0) exchange)
  = outbox (Relay.run (init 8675 4242 0) exchange).
Proof.
  assert (H : Forall (fun e => shared_event e = true) exchange)
    by (unfold exchange; repeat constructor).
  split; [exact H|].
  exact (proj1 (proj2 (snapshots_agree 8675 4242 0 exchange H))).
Defined.

End RelayV1Facts.
